(** * Hito: the image query engine and the app-config store

    Shallow embedding of [src/src-tauri/src/lib.rs]:
    - [sort_images]: the filter-then-sort query over [ImagePath] records;
    - [update_app_data_sync] and its wrappers [save_data_file_path] and
      [save_app_data]: the read-modify-write of [app-config.json]. *)

From Stdlib Require Import ZArith Lia Sorting.Permutation Sorting.Sorted OrderedTypeEx.
From stdpp Require Import base gmap strings list.
From Stdlib Require Import Ascii String.

Open Scope Z_scope.

(** ** Results of a Rust function *)

(** [Result<A, E>]. *)
Inductive result (A E : Type) : Type :=
| Ok : A -> result A E
| Err : E -> result A E.
Arguments Ok {A E} _.
Arguments Err {A E} _.

(** Build profile: with [Debug] (overflow-checks on) an arithmetic overflow
    panics; with [Release] it wraps around. *)
Inductive Profile := Debug | Release.

Definition U64_MAX : Z := 2 ^ 64 - 1.

(** [a * b] on [u64]; [None] is the overflow panic. *)
Definition mul_u64 (p : Profile) (a b : Z) : option Z :=
  match p with
  | Debug => if a * b <=? U64_MAX then Some (a * b) else None
  | Release => Some ((a * b) mod 2 ^ 64)
  end.

(** ** Strings *)

Local Open Scope string_scope.

Definition is_digit (c : ascii) : bool :=
  let n := Ascii.nat_of_ascii c in (48 <=? n)%nat && (n <=? 57)%nat.

Definition digit_val (c : ascii) : Z := Z.of_nat (Ascii.nat_of_ascii c) - 48.

Fixpoint digits_value (s : string) (acc : Z) : option Z :=
  match s with
  | EmptyString => Some acc
  | String c s' => if is_digit c then digits_value s' (acc * 10 + digit_val c)%Z else None
  end.

(** [str::parse::<u64>]: an optional leading ['+'] (not alone), then at least
    one decimal digit, and a value at most [u64::MAX]. *)
Definition parse_u64 (s : string) : option Z :=
  let digits :=
    match s with
    | String "+" (String c t) => String c t
    | _ => s
    end in
  match digits with
  | EmptyString => None
  | _ =>
      match digits_value digits 0 with
      | Some v => if Z.leb v U64_MAX then Some v else None
      | None => None
      end
  end.

Fixpoint starts_with (s pat : string) : bool :=
  match pat, s with
  | EmptyString, _ => true
  | String c p', String d s' => Ascii.eqb c d && starts_with s' p'
  | String _ _, EmptyString => false
  end.

Fixpoint contains (s pat : string) : bool :=
  starts_with s pat ||
  match s with
  | EmptyString => false
  | String _ s' => contains s' pat
  end.

Fixpoint str_rev (s : string) : string :=
  match s with
  | EmptyString => EmptyString
  | String c s' => str_rev s' +:+ String c EmptyString
  end.

Definition ends_with (s pat : string) : bool :=
  starts_with (str_rev s) (str_rev pat).

(** Components of a Unix path, as [Path::components] yields them for
    [Path::file_name]: separators collapsed, ["."] dropped. *)
Fixpoint split_slash (s : string) (cur : string) : list string :=
  match s with
  | EmptyString => [cur]
  | String c s' =>
      if Ascii.eqb c "/" then cur :: split_slash s' EmptyString
      else split_slash s' (cur +:+ String c EmptyString)
  end.

Definition path_components (p : string) : list string :=
  List.filter (fun c => negb (String.eqb c "" || String.eqb c ".")) (split_slash p "").

(** [Path::new(p).file_name()]: the last component when it is a normal one
    ([None] for ["/"], [""], ["."], a path ending in [".."]). *)
Definition file_name (p : string) : option string :=
  match last (path_components p) with
  | Some c => if String.eqb c ".." then None else Some c
  | None => None
  end.

(** ** Data model *)

(** [struct ImagePath]; [size] is a [u64] in bytes. *)
Record ImagePath := mkImagePath {
  path : string;
  size : option Z;
  created_at : option string
}.

(** [struct CategoryAssignment]. *)
Record CategoryAssignment := mkCategoryAssignment {
  category_id : string;
  assigned_at : string
}.

(** [struct FilterOptions] (fields prefixed [fo_]: [category_id] is taken by
    [CategoryAssignment]). *)
Record FilterOptions := mkFilterOptions {
  fo_category_id : option string;
  fo_name_pattern : option string;
  fo_name_operator : option string;
  fo_size_operator : option string;
  fo_size_value : option string;
  fo_size_value2 : option string
}.

Definition no_filter_fields : FilterOptions :=
  mkFilterOptions None None None None None None.

(** [image_categories.into_iter().collect::<HashMap<_, _>>()]: each pair is
    inserted in turn, a later pair for a key replaces an earlier one. *)
Definition collect_map (l : list (string * list CategoryAssignment))
  : gmap string (list CategoryAssignment) :=
  foldl (fun m kv => <[kv.1 := kv.2]> m) ∅ l.

(** ** Stable sorting: [Vec::sort_by]

    [sort_by] is a stable sort. For a comparator that is a total preorder
    (all the comparators below are) the output of a stable sort is unique,
    so the stable insertion sort below computes the same vector. *)

Fixpoint insert_by {A} (cmp : A -> A -> comparison) (x : A) (l : list A) : list A :=
  match l with
  | [] => [x]
  | y :: l' =>
      match cmp x y with
      | Gt => y :: insert_by cmp x l'
      | _ => x :: l
      end
  end.

Fixpoint sort_by {A} (cmp : A -> A -> comparison) (l : list A) : list A :=
  match l with
  | [] => []
  | x :: l' => insert_by cmp x (sort_by cmp l')
  end.

(** Insertion of [x] after every element that does not compare greater than
    it: the step of a stable sort for an element coming last in the input.
    Used in the proofs about [sort_by]. *)
Fixpoint insert_last {A} (cmp : A -> A -> comparison) (x : A) (l : list A) : list A :=
  match l with
  | [] => [x]
  | y :: l' =>
      match cmp x y with
      | Lt => x :: l
      | _ => y :: insert_last cmp x l'
      end
  end.

(** [Ordering::reverse] when [is_descending]. *)
Definition directed (is_descending : bool) (o : comparison) : comparison :=
  if is_descending then CompOpp o else o.

(** [Option::max] of an iterator of [i64]. *)
Definition max_list (l : list Z) : option Z :=
  match l with
  | [] => None
  | x :: l' => Some (foldl Z.max x l')
  end.

Section Query.

(** [str::to_lowercase] (Unicode case mapping). *)
Variable to_lowercase : string -> string.
(** [chrono::DateTime::parse_from_rfc3339(s).ok().map(|dt| dt.timestamp())]. *)
Variable parse_rfc3339 : string -> option Z.
Variable profile : Profile.

(** *** Filters *)

Definition category_filter (category_map : gmap string (list CategoryAssignment))
    (category : option string) (imgs : list ImagePath) : list ImagePath :=
  match category with
  | Some cid =>
      if String.eqb cid "" then imgs
      else if String.eqb cid "uncategorized" then
        List.filter (fun img =>
          match category_map !! path img with
          | None => true
          | Some assignments => match assignments with [] => true | _ => false end
          end) imgs
      else
        List.filter (fun img =>
          match category_map !! path img with
          | None => false
          | Some assignments => existsb (fun a => String.eqb (category_id a) cid) assignments
          end) imgs
  | None => imgs
  end.

(** The file name used by the name filter:
    [file_name().and_then(to_str).map(to_lowercase).unwrap_or_default()]. *)
Definition filter_file_name (p : string) : string :=
  match file_name p with
  | Some n => to_lowercase n
  | None => ""
  end.

Definition name_matches (operator : string) (file_name pattern : string) : bool :=
  if String.eqb operator "startsWith" then starts_with file_name pattern
  else if String.eqb operator "endsWith" then ends_with file_name pattern
  else if String.eqb operator "exact" then String.eqb file_name pattern
  else contains file_name pattern.

Definition name_filter (name_pattern name_operator : option string)
    (imgs : list ImagePath) : list ImagePath :=
  match name_pattern with
  | Some np =>
      if String.eqb np "" then imgs
      else
        let pattern := to_lowercase np in
        let operator := default "contains" name_operator in
        List.filter (fun img => name_matches operator (filter_file_name (path img)) pattern) imgs
  | None => imgs
  end.

Definition img_size (img : ImagePath) : Z := default 0 (size img).

(** The size filter; [None] is a panic (the overflow of [* 1024]). *)
Definition size_filter (size_operator size_value size_value2 : option string)
    (imgs : list ImagePath) : option (list ImagePath) :=
  match size_value with
  | Some sv =>
      if String.eqb sv "" then Some imgs
      else
        match parse_u64 sv with
        | None => Some imgs
        | Some size_value_kb =>
            match mul_u64 profile size_value_kb 1024 with
            | None => None
            | Some size_value_bytes =>
                let operator := default "largerThan" size_operator in
                if String.eqb operator "lessThan" then
                  Some (List.filter (fun img => Z.ltb (img_size img) size_value_bytes) imgs)
                else if String.eqb operator "between" then
                  match size_value2 with
                  | Some sv2 =>
                      if String.eqb sv2 "" then Some imgs
                      else
                        match parse_u64 sv2 with
                        | None => Some imgs
                        | Some size_value2_kb =>
                            match mul_u64 profile size_value2_kb 1024 with
                            | None => None
                            | Some size_value2_bytes =>
                                let min_size := Z.min size_value_bytes size_value2_bytes in
                                let max_size := Z.max size_value_bytes size_value2_bytes in
                                Some (List.filter (fun img =>
                                  Z.leb min_size (img_size img) && Z.leb (img_size img) max_size) imgs)
                            end
                        end
                  | None => Some imgs
                  end
                else
                  Some (List.filter (fun img => Z.ltb size_value_bytes (img_size img)) imgs)
            end
        end
  | None => Some imgs
  end.

Definition apply_filters (category_map : gmap string (list CategoryAssignment))
    (filter_options : option FilterOptions) (imgs : list ImagePath)
    : option (list ImagePath) :=
  match filter_options with
  | Some filters =>
      let imgs1 := category_filter category_map (fo_category_id filters) imgs in
      let imgs2 := name_filter (fo_name_pattern filters) (fo_name_operator filters) imgs1 in
      size_filter (fo_size_operator filters) (fo_size_value filters) (fo_size_value2 filters) imgs2
  | None => Some imgs
  end.

(** *** Sort comparators (ascending; [directed] applies the direction) *)

Definition sort_name (img : ImagePath) : string :=
  to_lowercase (default "" (file_name (path img))).

Definition cmp_name (a b : ImagePath) : comparison :=
  String.compare (sort_name a) (sort_name b).

Definition cmp_size (a b : ImagePath) : comparison :=
  Z.compare (img_size a) (img_size b).

Definition date_created (img : ImagePath) : option Z :=
  match created_at img with
  | Some d => parse_rfc3339 d
  | None => None
  end.

(** Dates first by timestamp, records without a parseable date last. *)
Definition cmp_date_created (a b : ImagePath) : comparison :=
  match date_created a, date_created b with
  | Some x, Some y => Z.compare x y
  | Some _, None => Lt
  | None, Some _ => Gt
  | None, None => Eq
  end.

(** The closure [get_latest_assignment]: the latest parseable assignment
    timestamp, and [0] for a path absent from the map, with no assignment or
    with no parseable one. *)
Definition get_latest_assignment (category_map : gmap string (list CategoryAssignment))
    (p : string) : Z :=
  default 0
    (match category_map !! p with
     | Some assignments =>
         match assignments with
         | [] => None
         | _ => max_list (omap (fun a => parse_rfc3339 (assigned_at a)) assignments)
         end
     | None => None
     end).

(** The parseable assignment timestamps of path [p], in list order. *)
Definition parsed_timestamps (category_map : gmap string (list CategoryAssignment))
    (p : string) : list Z :=
  match category_map !! p with
  | Some assignments => omap (fun a => parse_rfc3339 (assigned_at a)) assignments
  | None => []
  end.

Definition cmp_last_categorized (category_map : gmap string (list CategoryAssignment))
    (a b : ImagePath) : comparison :=
  Z.compare (get_latest_assignment category_map (path a))
            (get_latest_assignment category_map (path b)).

Definition sort_step (category_map : gmap string (list CategoryAssignment))
    (sort_option sort_direction : string) (imgs : list ImagePath) : list ImagePath :=
  let is_descending := String.eqb sort_direction "descending" in
  if String.eqb sort_option "name" then
    sort_by (fun a b => directed is_descending (cmp_name a b)) imgs
  else if String.eqb sort_option "size" then
    sort_by (fun a b => directed is_descending (cmp_size a b)) imgs
  else if String.eqb sort_option "dateCreated" then
    sort_by (fun a b => directed is_descending (cmp_date_created a b)) imgs
  else if String.eqb sort_option "lastCategorized" then
    sort_by (fun a b => directed is_descending (cmp_last_categorized category_map a b)) imgs
  else imgs.

(** [sort_images]: [None] is a panic, [Some (Ok v)] the returned vector. *)
Definition sort_images (images : list ImagePath) (sort_option sort_direction : string)
    (image_categories : list (string * list CategoryAssignment))
    (filter_options : option FilterOptions)
    : option (result (list ImagePath) string) :=
  let category_map := collect_map image_categories in
  match apply_filters category_map filter_options images with
  | None => None
  | Some filtered_images =>
      Some (Ok (sort_step category_map sort_option sort_direction filtered_images))
  end.

End Query.

(** ** Concrete instances of the library functions, for evaluation

    [ascii_to_lowercase] is [str::to_lowercase] on ASCII text. *)
Definition ascii_lower_char (c : ascii) : ascii :=
  let n := Ascii.nat_of_ascii c in
  if ((65 <=? n)%nat && (n <=? 90)%nat) then Ascii.ascii_of_nat (n + 32) else c.

Fixpoint ascii_to_lowercase (s : string) : string :=
  match s with
  | EmptyString => EmptyString
  | String c s' => String (ascii_lower_char c) (ascii_to_lowercase s')
  end.

(** [chrono::DateTime::parse_from_rfc3339(..).timestamp()]: the RFC 3339
    grammar chrono accepts,
    [YYYY-MM-DD(T|t| )hh:mm:ss(.frac)?(Z|z|(+|-)hh:mm)], with range checks,
    and the Unix timestamp in seconds (a leap second [:60] counts as [:59]). *)
Fixpoint take_digits (n : nat) (s : string) (acc : Z) : option (Z * string) :=
  match n with
  | O => Some (acc, s)
  | S n' =>
      match s with
      | String c s' => if is_digit c then take_digits n' s' (acc * 10 + digit_val c)%Z else None
      | EmptyString => None
      end
  end.

Definition expect_char (c : ascii) (s : string) : option string :=
  match s with
  | String d s' => if Ascii.eqb c d then Some s' else None
  | EmptyString => None
  end.

Fixpoint skip_digits (s : string) : string :=
  match s with
  | String c s' => if is_digit c then skip_digits s' else s
  | EmptyString => s
  end.

(** An optional fraction: a dot and at least one digit. *)
Definition skip_fraction (s : string) : option string :=
  match s with
  | String "." (String c s') => if is_digit c then Some (skip_digits s') else None
  | String "." EmptyString => None
  | _ => Some s
  end.

(** The offset in seconds east of UTC, and nothing after it. *)
Definition parse_offset (s : string) : option Z :=
  match s with
  | String "Z" EmptyString | String "z" EmptyString => Some 0%Z
  | String sign s1 =>
      if Ascii.eqb sign "+" || Ascii.eqb sign "-" then
        '(oh, s2) ← take_digits 2 s1 0;
        s3 ← expect_char ":" s2;
        '(om, s4) ← take_digits 2 s3 0;
        match s4 with
        | EmptyString =>
            if Z.leb oh 23 && Z.leb om 59 then
              Some ((if Ascii.eqb sign "+" then 1 else -1) * (oh * 3600 + om * 60))%Z
            else None
        | _ => None
        end
      else None
  | EmptyString => None
  end.

Definition is_leap_year (y : Z) : bool :=
  (Z.eqb (y mod 4) 0 && negb (Z.eqb (y mod 100) 0)) || Z.eqb (y mod 400) 0.

Definition days_in_month (y m : Z) : Z :=
  if Z.eqb m 2 then (if is_leap_year y then 29 else 28)
  else if Z.eqb m 4 || Z.eqb m 6 || Z.eqb m 9 || Z.eqb m 11 then 30
  else 31.

(** Days from 1970-01-01 to the civil date [y-m-d]. *)
Definition days_from_civil (y m d : Z) : Z :=
  let y' := if Z.leb m 2 then y - 1 else y in
  let era := y' / 400 in
  let yoe := y' - era * 400 in
  let mp := (m + 9) mod 12 in
  let doy := (153 * mp + 2) / 5 + d - 1 in
  let doe := yoe * 365 + yoe / 4 - yoe / 100 + doy in
  era * 146097 + doe - 719468.

Definition chrono_parse_rfc3339 (s : string) : option Z :=
  '(y, s) ← take_digits 4 s 0;
  s ← expect_char "-" s;
  '(mo, s) ← take_digits 2 s 0;
  s ← expect_char "-" s;
  '(d, s) ← take_digits 2 s 0;
  s ← (match s with
       | String c s' => if Ascii.eqb c "T" || Ascii.eqb c "t" || Ascii.eqb c " " then Some s' else None
       | EmptyString => None
       end);
  '(h, s) ← take_digits 2 s 0;
  s ← expect_char ":" s;
  '(mi, s) ← take_digits 2 s 0;
  s ← expect_char ":" s;
  '(se, s) ← take_digits 2 s 0;
  s ← skip_fraction s;
  off ← parse_offset s;
  if Z.leb 1 mo && Z.leb mo 12 && Z.leb 1 d && Z.leb d (days_in_month y mo)
     && Z.leb h 23 && Z.leb mi 59 && Z.leb se 60
  then Some (days_from_civil y mo d * 86400 + h * 3600 + mi * 60 + Z.min se 59 - off)%Z
  else None.

(** ** The app-config store *)

(** [struct CategoryData] (fields prefixed [cd_]). *)
Record CategoryData := mkCategoryData {
  cd_id : string;
  cd_name : string;
  cd_color : string
}.

(** [struct HotkeyData] (fields prefixed [hk_]). *)
Record HotkeyData := mkHotkeyData {
  hk_id : string;
  hk_key : string;
  hk_modifiers : list string;
  hk_action : string
}.

(** [struct AppData]; [DataFileMap] is a [HashMap<String, String>]. *)
Record AppData := mkAppData {
  categories : list CategoryData;
  hotkeys : list HotkeyData;
  data_file_paths : option (gmap string string)
}.

(** [AppData::default()]. *)
Definition AppData_default : AppData := mkAppData [] [] None.

(** The observable effects on [app-config.json] and its mutex. *)
Inductive Event :=
| EvLock
| EvRead
| EvWrite (content : string)
| EvUnlock.

(** The environment of the command: failures of the platform calls, the
    config file ([None]: it does not exist) and the trace of effects. *)
Record World := mkWorld {
  w_app_data_dir_error : option string;
  w_create_dir_error : option string;
  w_lock_poisoned : option string;
  w_config : option string;
  w_read_error : option string;
  w_write_error : option string;
  w_trace : list Event
}.

Definition emit (ev : Event) (w : World) : World :=
  mkWorld (w_app_data_dir_error w) (w_create_dir_error w) (w_lock_poisoned w)
          (w_config w) (w_read_error w) (w_write_error w) (w_trace w ++ [ev]).

Definition set_config (c : option string) (w : World) : World :=
  mkWorld (w_app_data_dir_error w) (w_create_dir_error w) (w_lock_poisoned w)
          c (w_read_error w) (w_write_error w) (w_trace w).

(** State and error monad: [?] of a [Result<_, String>] function. *)
Definition M (A : Type) : Type := World -> result A string * World.

Global Instance M_ret : MRet M := fun A x w => (Ok x, w).
Global Instance M_bind : MBind M := fun A B k m w =>
  match m w with
  | (Ok x, w') => k x w'
  | (Err e, w') => (Err e, w')
  end.

Definition lift {A} (r : result A string) : M A := fun w => (r, w).

Definition map_err {A} (f : string -> string) (r : result A string) : result A string :=
  match r with
  | Ok x => Ok x
  | Err e => Err (f e)
  end.

(** [get_app_data_path]: resolve and create the app data directory. *)
Definition get_app_data_path : M unit := fun w =>
  match w_app_data_dir_error w with
  | Some e => (Err ("Failed to get app data directory: " ++ e), w)
  | None =>
      match w_create_dir_error w with
      | Some e => (Err ("Failed to create app data directory: " ++ e), w)
      | None => (Ok tt, w)
      end
  end.

(** [mutex.lock()] with the guard dropped at the end of [body]. *)
Definition with_lock {A} (body : M A) : M A := fun w =>
  match w_lock_poisoned w with
  | Some e => (Err ("Failed to acquire app data lock: " ++ e), w)
  | None =>
      let '(r, w') := body (emit EvLock w) in (r, emit EvUnlock w')
  end.

(** [fs::read_to_string(&app_data_path)]. *)
Definition read_config : M string := fun w =>
  let w' := emit EvRead w in
  match w_read_error w, w_config w with
  | Some e, _ => (Err ("Failed to read app data file: " ++ e), w')
  | None, Some c => (Ok c, w')
  | None, None => (Err "Failed to read app data file: not found", w')
  end.

(** [fs::write(&app_data_path, json_content)]. *)
Definition write_config (content : string) : M unit := fun w =>
  let w' := emit (EvWrite content) w in
  match w_write_error w with
  | Some e => (Err ("Failed to write app data file: " ++ e), w')
  | None => (Ok tt, set_config (Some content) w')
  end.

Section Store.

(** [serde_json::from_str::<AppData>] and [serde_json::to_string_pretty]. *)
Variable from_json : string -> result AppData string.
Variable to_json : AppData -> result string string.

(** Read current app data, or the default if the file does not exist. *)
Definition current_data : M AppData := fun w =>
  match w_config w with
  | None => (Ok AppData_default, w)
  | Some _ =>
      (content ← read_config;
       lift (map_err (fun e => "Failed to parse app data file: " ++ e) (from_json content))) w
  end.

Definition update_app_data_sync (update_fn : AppData -> result AppData string) : M unit :=
  get_app_data_path ;;
  with_lock (
    current ← current_data;
    updated ← lift (update_fn current);
    json_content ← lift (map_err (fun e => "Failed to serialize app data: " ++ e) (to_json updated));
    write_config json_content).

Definition save_data_file_path (directory data_file_path : string) : M unit :=
  update_app_data_sync (fun app_data =>
    Ok (mkAppData (categories app_data) (hotkeys app_data)
          (Some (<[directory := data_file_path]> (default ∅ (data_file_paths app_data)))))).

Definition save_app_data (cats : list CategoryData) (hks : list HotkeyData) : M unit :=
  update_app_data_sync (fun app_data => Ok (mkAppData cats hks (data_file_paths app_data))).

(** The events a successful load emits: a read when the file exists. *)
Definition load_events (w : World) : list Event :=
  match w_config w with
  | Some _ => [EvRead]
  | None => []
  end.

(** [d] is what the command loads from [w]: the platform calls succeed and
    the file is absent ([d] is the default) or read and parsed into [d]. *)
Definition loads (w : World) (d : AppData) : Prop :=
  w_app_data_dir_error w = None /\ w_create_dir_error w = None /\
  w_lock_poisoned w = None /\
  ((w_config w = None /\ d = AppData_default) \/
   (exists c, w_config w = Some c /\ w_read_error w = None /\ from_json c = Ok d)).

Definition is_err {A E} (r : result A E) : bool :=
  match r with
  | Err _ => true
  | Ok _ => false
  end.

(** A world where the app data directory is usable and the file is absent. *)
Definition fresh_world : World := mkWorld None None None None None None [].

End Store.

(** ** Paths and file names *)

(** [Path::join] on Unix ([PathBuf::push]): an absolute [p] replaces [base];
    otherwise a separator goes between them unless [base] is empty or already
    ends with one. *)
Definition path_join (base p : string) : string :=
  if starts_with p "/" then p
  else if negb (String.eqb base "") && negb (ends_with base "/") then base ++ "/" ++ p
  else base ++ p.

(** [get_hito_file_path]: [directory] joined with [filename], by default
    [".hito.json"]. *)
Definition get_hito_file_path (directory : string) (filename : option string) : string :=
  path_join directory (default ".hito.json" filename).

(** [s] split at the first occurrence of [c]: the text before and after it. *)
Fixpoint split_at_char (c : ascii) (s : string) : option (string * string) :=
  match s with
  | EmptyString => None
  | String d s' =>
      if Ascii.eqb c d then Some (EmptyString, s')
      else match split_at_char c s' with
           | Some (a, b) => Some (String d a, b)
           | None => None
           end
  end.

(** [Path::extension]: [rsplit_file_at_dot] on the file name, the text after
    the last dot when the text before it is not empty. *)
Definition extension (p : string) : option string :=
  match file_name p with
  | Some n =>
      if String.eqb n ".." then None
      else
        match split_at_char "." (str_rev n) with
        | Some (after_rev, before_rev) =>
            if String.eqb before_rev "" then None else Some (str_rev after_rev)
        | None => None
        end
  | None => None
  end.

(** The bytes of a string. *)
Definition bytes_of (s : string) : list Z :=
  map (fun c => Z.of_nat (Ascii.nat_of_ascii c)) (list_ascii_of_string s).

Definition is_cont_byte (b : Z) : bool := (Z.leb 128 b) && (Z.leb b 191).

(** UTF-8 validation as [str::from_utf8] does it (RFC 3629: no overlong
    forms, no surrogates, nothing above U+10FFFF). *)
Fixpoint utf8_valid_bytes (l : list Z) : bool :=
  match l with
  | [] => true
  | b0 :: r =>
      if Z.leb b0 127 then utf8_valid_bytes r
      else
        match r with
        | b1 :: r1 =>
            if (Z.leb 194 b0) && (Z.leb b0 223) then is_cont_byte b1 && utf8_valid_bytes r1
            else
              match r1 with
              | b2 :: r2 =>
                  if (Z.leb 224 b0) && (Z.leb b0 239) then
                    let lo := if Z.eqb b0 224 then 160 else 128 in
                    let hi := if Z.eqb b0 237 then 159 else 191 in
                    (Z.leb lo b1) && (Z.leb b1 hi) && is_cont_byte b2 && utf8_valid_bytes r2
                  else
                    match r2 with
                    | b3 :: r3 =>
                        if (Z.leb 240 b0) && (Z.leb b0 244) then
                          let lo := if Z.eqb b0 240 then 144 else 128 in
                          let hi := if Z.eqb b0 244 then 143 else 191 in
                          (Z.leb lo b1) && (Z.leb b1 hi) && is_cont_byte b2 && is_cont_byte b3
                            && utf8_valid_bytes r3
                        else false
                    | [] => false
                    end
              | [] => false
              end
        | [] => false
        end
  end.

(** [Path::to_str] succeeds. *)
Definition utf8_valid (s : string) : bool := utf8_valid_bytes (bytes_of s).

(** *** [Path::parent] on Unix

    The [Components] iterator from the back ([next_back]) and [as_path]. The
    front state stays [State::Prefix]: [parent] only iterates from the back. A
    Unix path has no prefix. *)

Inductive CompState := StPrefix | StStartDir | StBody | StDone.

Inductive Component :=
| RootDir
| CurDir
| ParentDir
| Normal (s : list ascii).

Record Components := mkComponents {
  comp_path : list ascii;
  comp_has_physical_root : bool;
  comp_back : CompState
}.

Definition is_sep_byte (c : ascii) : bool := Ascii.eqb c "/".

Definition set_comp_path (c : Components) (p : list ascii) : Components :=
  mkComponents p (comp_has_physical_root c) (comp_back c).

Definition set_comp_back (c : Components) (st : CompState) : Components :=
  mkComponents (comp_path c) (comp_has_physical_root c) st.

Definition include_cur_dir (c : Components) : bool :=
  if comp_has_physical_root c then false
  else
    match comp_path c with
    | [d] => Ascii.eqb d "."
    | d :: b :: _ => Ascii.eqb d "." && is_sep_byte b
    | [] => false
    end.

Definition len_before_body (c : Components) : nat :=
  (if comp_has_physical_root c then 1 else 0) + (if include_cur_dir c then 1 else 0).

Definition parse_single_component (s : list ascii) : option Component :=
  match s with
  | [] => None
  | [d] => if Ascii.eqb d "." then None else Some (Normal s)
  | [d; e] => if Ascii.eqb d "." && Ascii.eqb e "." then Some ParentDir else Some (Normal s)
  | _ => Some (Normal s)
  end.

(** The reversed text up to the first separator of a reversed string, and
    whether a separator was found. *)
Fixpoint take_until_sep (l : list ascii) : list ascii * bool :=
  match l with
  | [] => ([], false)
  | d :: l' =>
      if is_sep_byte d then ([], true)
      else let '(t, found) := take_until_sep l' in (d :: t, found)
  end.

(** [parse_next_component_back]: the bytes the last component of the body
    takes (with its separator) and the component. *)
Definition parse_next_component_back (c : Components) : nat * option Component :=
  let body := drop (len_before_body c) (comp_path c) in
  let '(comp_rev, found) := take_until_sep (rev body) in
  (List.length comp_rev + (if found then 1 else 0), parse_single_component (rev comp_rev))%nat.

Definition drop_back (n : nat) (c : Components) : Components :=
  set_comp_path c (take (List.length (comp_path c) - n) (comp_path c)).

(** The loop of [next_back]; each round either shortens the path or advances
    the state, so [List.length + 3] rounds reach its end. *)
Fixpoint next_back_loop (fuel : nat) (c : Components) : option Component * Components :=
  match fuel with
  | O => (None, c)
  | S fuel' =>
      match comp_back c with
      | StBody =>
          if Nat.ltb (len_before_body c) (List.length (comp_path c)) then
            let '(sz, comp) := parse_next_component_back c in
            let c' := drop_back sz c in
            match comp with
            | Some _ => (comp, c')
            | None => next_back_loop fuel' c'
            end
          else next_back_loop fuel' (set_comp_back c StStartDir)
      | StStartDir =>
          let c1 := set_comp_back c StPrefix in
          if comp_has_physical_root c then (Some RootDir, drop_back 1 c1)
          else if include_cur_dir c then (Some CurDir, drop_back 1 c1)
          else next_back_loop fuel' c1
      | StPrefix => (None, set_comp_back c StDone)
      | StDone => (None, c)
      end
  end.

Definition next_back (c : Components) : option Component * Components :=
  next_back_loop (List.length (comp_path c) + 3) c.

Fixpoint trim_right_loop (fuel : nat) (c : Components) : Components :=
  match fuel with
  | O => c
  | S fuel' =>
      if Nat.ltb (len_before_body c) (List.length (comp_path c)) then
        let '(sz, comp) := parse_next_component_back c in
        match comp with
        | Some _ => c
        | None => trim_right_loop fuel' (drop_back sz c)
        end
      else c
  end.

(** [Components::as_path]: trailing separators and [.] components of the
    body trimmed when the back is still in the body. *)
Definition as_path (c : Components) : list ascii :=
  match comp_back c with
  | StBody => comp_path (trim_right_loop (List.length (comp_path c)) c)
  | _ => comp_path c
  end.

Definition components (p : string) : Components :=
  let l := list_ascii_of_string p in
  mkComponents l (match l with d :: _ => is_sep_byte d | [] => false end) StBody.

(** [Path::parent]. *)
Definition path_parent (p : string) : option string :=
  let '(comp, c) := next_back (components p) in
  match comp with
  | Some (Normal _) | Some CurDir | Some ParentDir => Some (string_of_list_ascii (as_path c))
  | _ => None
  end.

(** [get_parent_directory]. *)
Definition get_parent_directory (file_path : string) : result string string :=
  match path_parent file_path with
  | Some parent =>
      if utf8_valid parent then Ok parent else Err "Failed to convert path to string"
  | None => Err "File has no parent directory"
  end.

(** ** Directory listing and image loading *)

(** The file types [fs::Metadata] distinguishes here. *)
Inductive FileType := FtDir | FtFile | FtOther.

(** [fs::Metadata] (following symlinks): the type, [len()] and [created()]
    as seconds and nanoseconds relative to the Unix epoch ([None] when the
    platform does not report it). *)
Record Metadata := mkMetadata {
  md_file_type : FileType;
  md_len : Z;
  md_created : option (Z * Z)
}.

Definition md_is_dir (m : Metadata) : bool :=
  match md_file_type m with FtDir => true | _ => false end.

Definition md_is_file (m : Metadata) : bool :=
  match md_file_type m with FtFile => true | _ => false end.

(** [Path::exists], [Path::is_dir], [Path::is_file] from [fs::metadata]
    ([None]: the call fails). *)
Definition exists_md (m : option Metadata) : bool :=
  match m with Some _ => true | None => false end.

Definition is_dir_md (m : option Metadata) : bool :=
  match m with Some md => md_is_dir md | None => false end.

Definition is_file_md (m : option Metadata) : bool :=
  match m with Some md => md_is_file md | None => false end.

(** An entry of [fs::read_dir]: its file name and the metadata of its path. *)
Record DirEntry := mkDirEntry {
  de_file_name : string;
  de_metadata : option Metadata
}.

(** [struct DirectoryPath] (fields prefixed [dp_]). *)
Record DirectoryPath := mkDirectoryPath {
  dp_path : string;
  dp_size : option Z;
  dp_created_at : option string
}.

(** [struct DirectoryContents]. *)
Record DirectoryContents := mkDirectoryContents {
  directories : list DirectoryPath;
  images : list ImagePath
}.

Definition image_extensions : list string :=
  ["jpg"; "jpeg"; "png"; "gif"; "bmp"; "webp"; "svg"; "ico"].

(** [a.path.cmp(&b.path)] for the two vectors of [list_images]. *)
Definition directory_path_cmp (a b : DirectoryPath) : comparison :=
  String.compare (dp_path a) (dp_path b).

Definition image_path_cmp (a b : ImagePath) : comparison :=
  String.compare (path a) (path b).

Section Listing.

(** [str::to_lowercase]. *)
Variable to_lowercase : string -> string.
(** [DateTime::<Utc>::from_timestamp(secs, nanos).map(|dt| dt.to_rfc3339())]. *)
Variable timestamp_to_rfc3339 : Z -> Z -> option string.

(** The [created_at] of an entry: its creation time, when reported and not
    before the epoch ([duration_since(UNIX_EPOCH)] fails then), formatted. *)
Definition created_at_of (created : option (Z * Z)) : option string :=
  match created with
  | Some (secs, nanos) => if Z.leb 0 secs then timestamp_to_rfc3339 secs nanos else None
  | None => None
  end.

(** [image_extensions.contains(&ext.to_string_lossy().to_lowercase())]. The
    lossy conversion is the identity on UTF-8; on a name that is not UTF-8 the
    entry is dropped anyway, at [to_str], so the identity is used. *)
Definition is_image_extension (ext : string) : bool :=
  existsb (String.eqb (to_lowercase ext)) image_extensions.

(** One iteration of the loop over the entries of [fs::read_dir]. *)
Definition list_entry (dir : string) (acc : list DirectoryPath * list ImagePath)
    (entry : result DirEntry string) : list DirectoryPath * list ImagePath :=
  match entry with
  | Err _ => acc
  | Ok e =>
      let file_path := path_join dir (de_file_name e) in
      let md := de_metadata e in
      if is_dir_md md then
        if utf8_valid file_path then
          (acc.1 ++ [mkDirectoryPath file_path None
                      (match md with Some m => created_at_of (md_created m) | None => None end)],
           acc.2)%list
        else acc
      else if is_file_md md then
        match extension file_path with
        | Some ext =>
            if is_image_extension ext then
              match md with
              | Some m =>
                  if utf8_valid file_path then
                    (acc.1, acc.2 ++ [mkImagePath file_path (Some (md_len m))
                                        (created_at_of (md_created m))])%list
                  else acc
              | None => acc
              end
            else acc
        | None => acc
        end
      else acc
  end.

(** [list_images]: [path_metadata] is [fs::metadata(path)], [read_dir] the
    result of [fs::read_dir(path)] with its entries in the order it yields
    them. *)
Definition list_images (path : string) (path_metadata : option Metadata)
    (read_dir : result (list (result DirEntry string)) string) : result DirectoryContents string :=
  if negb (exists_md path_metadata) then Err ("Path does not exist: " ++ path)
  else if negb (is_dir_md path_metadata) then Err ("Path is not a directory: " ++ path)
  else
    match read_dir with
    | Ok entries =>
        let '(dirs, imgs) := foldl (list_entry path) ([], []) entries in
        Ok (mkDirectoryContents (sort_by directory_path_cmp dirs) (sort_by image_path_cmp imgs))
    | Err e => Err ("Failed to read directory: " ++ e)
    end.

(** The MIME type [load_image] gives a path. *)
Definition mime_type (file_path : string) : string :=
  match extension file_path with
  | Some ext =>
      let ext_str := to_lowercase ext in
      if String.eqb ext_str "jpg" || String.eqb ext_str "jpeg" then "image/jpeg"
      else if String.eqb ext_str "png" then "image/png"
      else if String.eqb ext_str "gif" then "image/gif"
      else if String.eqb ext_str "bmp" then "image/bmp"
      else if String.eqb ext_str "webp" then "image/webp"
      else if String.eqb ext_str "svg" then "image/svg+xml"
      else if String.eqb ext_str "ico" then "image/x-icon"
      else "image/png"
  | None => "image/png"
  end.

End Listing.

(** [general_purpose::STANDARD.encode]: RFC 4648 base64, standard alphabet,
    with padding. *)
Definition base64_alphabet : string :=
  "ABCDEFGHIJKLMNOPQRSTUVWXYZabcdefghijklmnopqrstuvwxyz0123456789+/".

Definition b64 (n : Z) : string :=
  String (default "A"%char (String.get (Z.to_nat n) base64_alphabet)) EmptyString.

Fixpoint base64_encode_bytes (l : list Z) : string :=
  match l with
  | a :: b :: c :: rest =>
      b64 (a / 4) ++ b64 ((a mod 4) * 16 + b / 16) ++ b64 ((b mod 16) * 4 + c / 64)
        ++ b64 (c mod 64) ++ base64_encode_bytes rest
  | [a; b] => b64 (a / 4) ++ b64 ((a mod 4) * 16 + b / 16) ++ b64 ((b mod 16) * 4) ++ "="
  | [a] => b64 (a / 4) ++ b64 ((a mod 4) * 16) ++ "=="
  | [] => ""
  end.

Definition base64_encode (data : string) : string := base64_encode_bytes (bytes_of data).

(** [load_image]: [file_metadata] is [fs::metadata(image_path)], [contents]
    the result of [fs::read]. *)
Definition load_image (to_lowercase : string -> string) (image_path : string)
    (file_metadata : option Metadata) (contents : result string string) : result string string :=
  if negb (exists_md file_metadata) then Err ("Image does not exist: " ++ image_path)
  else if negb (is_file_md file_metadata) then Err ("Path is not a file: " ++ image_path)
  else
    let mime := mime_type to_lowercase image_path in
    match contents with
    | Ok file_data => Ok ("data:" ++ mime ++ ";base64," ++ base64_encode file_data)
    | Err e => Err ("Failed to read image: " ++ e)
    end.

(** ** Deleting, copying and moving images *)

(** An [io::Error]: its [Display] text and [raw_os_error()]. *)
Record IoError := mkIoError {
  io_message : string;
  io_raw_os_error : option Z
}.

(** The file-system calls that change something. *)
Inductive FsOp :=
| FsTrash (p : string)
| FsCopy (src dst : string)
| FsRename (src dst : string)
| FsRemoveFile (p : string).

(** The environment of a file command: [fs::metadata] of each path, the
    outcome of each mutating call, and the calls made so far. *)
Record FsWorld := mkFsWorld {
  fw_metadata : string -> option Metadata;
  fw_outcome : FsOp -> result unit IoError;
  fw_trace : list FsOp
}.

Definition perform (op : FsOp) (w : FsWorld) : result unit IoError * FsWorld :=
  (fw_outcome w op, mkFsWorld (fw_metadata w) (fw_outcome w) (fw_trace w ++ [op])%list).

Definition fs_exists (w : FsWorld) (p : string) : bool := exists_md (fw_metadata w p).
Definition fs_is_file (w : FsWorld) (p : string) : bool := is_file_md (fw_metadata w p).
Definition fs_is_dir (w : FsWorld) (p : string) : bool := is_dir_md (fw_metadata w p).

(** The targets of [#[cfg(unix)]], [#[cfg(windows)]] and the others. *)
Inductive Platform := Unix | Windows | OtherPlatform.

(** [is_cross_device] of [move_image]: [EXDEV] (18) on Unix,
    [ERROR_NOT_SAME_DEVICE] (17) on Windows. *)
Definition is_cross_device (pl : Platform) (e : IoError) : bool :=
  match io_raw_os_error e with
  | Some raw_err =>
      match pl with
      | Unix => Z.eqb raw_err 18
      | Windows => Z.eqb raw_err 17
      | OtherPlatform => false
      end
  | None => false
  end.

Definition delete_image (image_path : string) (w : FsWorld) : result unit string * FsWorld :=
  if negb (fs_exists w image_path) then (Err ("Image does not exist: " ++ image_path), w)
  else if negb (fs_is_file w image_path) then (Err ("Path is not a file: " ++ image_path), w)
  else
    match perform (FsTrash image_path) w with
    | (Ok _, w') => (Ok tt, w')
    | (Err e, w') => (Err ("Failed to delete image: " ++ io_message e), w')
    end.

(** The checks [copy_image] and [move_image] share, and the destination
    path: [destination_dir] joined with the source's file name. *)
Definition transfer_target (image_path destination_dir : string) (w : FsWorld)
    : result string string :=
  if negb (fs_exists w image_path) then Err ("Image does not exist: " ++ image_path)
  else if negb (fs_is_file w image_path) then Err ("Path is not a file: " ++ image_path)
  else if negb (fs_exists w destination_dir) then
    Err ("Destination directory does not exist: " ++ destination_dir)
  else if negb (fs_is_dir w destination_dir) then
    Err ("Destination is not a directory: " ++ destination_dir)
  else
    match file_name image_path with
    | Some filename => Ok (path_join destination_dir filename)
    | None => Err ("Failed to get filename from: " ++ image_path)
    end.

Definition copy_image (image_path destination_dir : string) (w : FsWorld)
    : result unit string * FsWorld :=
  match transfer_target image_path destination_dir w with
  | Err e => (Err e, w)
  | Ok dest_path =>
      match perform (FsCopy image_path dest_path) w with
      | (Ok _, w') => (Ok tt, w')
      | (Err e, w') => (Err ("Failed to copy image: " ++ io_message e), w')
      end
  end.

Definition move_image (pl : Platform) (image_path destination_dir : string) (w : FsWorld)
    : result unit string * FsWorld :=
  match transfer_target image_path destination_dir w with
  | Err e => (Err e, w)
  | Ok dest_path =>
      match perform (FsRename image_path dest_path) w with
      | (Ok _, w') => (Ok tt, w')
      | (Err e, w') =>
          if is_cross_device pl e then
            match perform (FsCopy image_path dest_path) w' with
            | (Ok _, w'') =>
                match perform (FsRemoveFile image_path) w'' with
                | (Ok _, w3) => (Ok tt, w3)
                | (Err del_err, w3) =>
                    (Err ("Copied file but failed to remove source: " ++ io_message del_err), w3)
                end
            | (Err copy_err, w'') =>
                (Err ("Failed to move image across filesystems: " ++ io_message copy_err), w'')
            end
          else (Err ("Failed to move image: " ++ io_message e), w')
      end
  end.

(** ** The readers of the config store *)

Section StoreReaders.

Variable from_json : string -> result AppData string.

(** [load_app_data]: under the lock, the default when the file does not exist,
    else the file read and parsed. *)
Definition load_app_data : M AppData :=
  get_app_data_path ;; with_lock (current_data from_json).

(** [fs::read_to_string(&app_data_path)] with the error text of
    [get_data_file_path], which names the file. *)
Definition read_config_at (app_data_path : string) : M string := fun w =>
  let w' := emit EvRead w in
  match w_read_error w, w_config w with
  | Some e, _ => (Err ("Failed to read app data file at " ++ app_data_path ++ ": " ++ e), w')
  | None, Some c => (Ok c, w')
  | None, None => (Err ("Failed to read app data file at " ++ app_data_path ++ ": not found"), w')
  end.

(** [get_data_file_path]; [app_data_path] is the displayed path of
    [app-config.json]. *)
Definition get_data_file_path (app_data_path directory : string) : M (option string) :=
  get_app_data_path ;;
  with_lock (fun w =>
    match w_config w with
    | None => (Ok None, w)
    | Some _ =>
        (content ← read_config_at app_data_path;
         match from_json content with
         | Ok data =>
             mret (match data_file_paths data with
                   | Some paths => paths !! directory
                   | None => None
                   end)
         | Err e => lift (Err ("Failed to parse app data file at " ++ app_data_path ++ ": " ++ e))
         end) w
    end).

End StoreReaders.

(** ** The per-directory [.hito.json] file *)

(** [struct HitoFile] (field prefixed [hf_]). *)
Record HitoFile := mkHitoFile {
  hf_image_categories : list (string * list CategoryAssignment)
}.

(** The files [load_hito_config] and [save_hito_config] see. [hw_resolve]
    gives the file a path names: two paths that name the same file on disk
    (such as [/photos/./.hito.json] and [/photos/.hito.json], or two links to
    one file) resolve to the same key; writing a file's content does not
    change it. [hw_files] holds the content of each existing file by that key.
    [hw_stat_fails] holds at the paths whose metadata cannot be read, where
    [Path::exists] is false even if the file is there. [hw_read_error] is the
    failure of [fs::read_to_string] at a path. [hw_write_error] is the failure
    of [fs::write] at a path: [(e, None)] when [File::create] fails and the
    file is left as it was, [(e, Some n)] when the file was created or
    truncated and [write_all] failed after writing the first [n] bytes. *)
Record HitoWorld := mkHitoWorld {
  hw_resolve : string -> string;
  hw_files : gmap string string;
  hw_stat_fails : string -> bool;
  hw_read_error : string -> option string;
  hw_write_error : string -> option (string * option nat)
}.

(** [hw_files] replaced, the rest of the world kept. *)
Definition hw_set_files (files : gmap string string) (w : HitoWorld) : HitoWorld :=
  mkHitoWorld (hw_resolve w) files (hw_stat_fails w) (hw_read_error w) (hw_write_error w).

(** [Path::exists] followed by the read of the file's content. *)
Definition hw_existing (w : HitoWorld) (path : string) : option string :=
  if hw_stat_fails w path then None else hw_files w !! hw_resolve w path.

Section HitoConfig.

(** [serde_json::from_str::<HitoFile>] and [serde_json::to_string_pretty]. *)
Variable hito_from_json : string -> result HitoFile string.
Variable hito_to_json : HitoFile -> result string string.

Definition load_hito_config (directory : string) (filename : option string) (w : HitoWorld)
    : result HitoFile string :=
  let hito_path := get_hito_file_path directory filename in
  match hw_existing w hito_path with
  | None => Ok (mkHitoFile [])
  | Some content =>
      match hw_read_error w hito_path with
      | Some e => Err ("Failed to read .hito.json file: " ++ e)
      | None =>
          match hito_from_json content with
          | Ok data => Ok data
          | Err e => Err ("Failed to parse .hito.json file: " ++ e)
          end
      end
  end.

Definition save_hito_config (directory : string)
    (image_categories : list (string * list CategoryAssignment)) (filename : option string)
    (w : HitoWorld) : result unit string * HitoWorld :=
  let hito_path := get_hito_file_path directory filename in
  let data := mkHitoFile image_categories in
  match hito_to_json data with
  | Err e => (Err ("Failed to serialize .hito.json: " ++ e), w)
  | Ok json_content =>
      let file := hw_resolve w hito_path in
      match hw_write_error w hito_path with
      | Some (e, None) => (Err ("Failed to write .hito.json file: " ++ e), w)
      | Some (e, Some n) =>
          (Err ("Failed to write .hito.json file: " ++ e),
           hw_set_files (<[file := substring 0 n json_content]> (hw_files w)) w)
      | None => (Ok tt, hw_set_files (<[file := json_content]> (hw_files w)) w)
      end
  end.

End HitoConfig.

(** ** A small serializer for concrete instances of the store theorems

    It writes the default [AppData] and the one with the single mapping
    [/photos -> /data/photos.json], and parses back what it writes. *)

Definition example_data_file_paths : gmap string string :=
  {[ "/photos" := "/data/photos.json" ]}.

Definition example_to_json (d : AppData) : result string string :=
  match d with
  | mkAppData [] [] None => Ok "{}"
  | mkAppData [] [] (Some m) =>
      if decide (m = example_data_file_paths) then Ok "{photos}" else Err "unsupported value"
  | _ => Err "unsupported value"
  end.

Definition example_from_json (s : string) : result AppData string :=
  if String.eqb s "{}" then Ok AppData_default
  else if String.eqb s "{photos}" then Ok (mkAppData [] [] (Some example_data_file_paths))
  else Err "unexpected input".

(** * Properties of the config store *)

Section StoreProofs.

Variable from_json : string -> result AppData string.
Variable to_json : AppData -> result string string.

Lemma update_app_data_sync_loaded (update_fn : AppData -> result AppData string)
    (w : World) (d : AppData) :
  loads from_json w d ->
  update_app_data_sync from_json to_json update_fn w =
  (let w1 := foldl (fun w ev => emit ev w) w (EvLock :: load_events w) in
   match update_fn d with
   | Err e => (Err e, emit EvUnlock w1)
   | Ok d' =>
       match to_json d' with
       | Err e => (Err ("Failed to serialize app data: " ++ e), emit EvUnlock w1)
       | Ok s => let '(r, w2) := write_config s w1 in (r, emit EvUnlock w2)
       end
   end).
Proof.
  intros (Hdir & Hcreate & Hlock & [[Hc ->] | (c & Hc & Hr & Hj)]);
  unfold update_app_data_sync, load_events, mbind, M_bind, get_app_data_path, with_lock;
  rewrite Hdir, Hcreate, Hlock; cbn.
  all: idtac.
  - unfold current_data; cbn; rewrite Hc; cbn.
    destruct (update_fn AppData_default) as [d'|e]; cbn; [|done].
    destruct (to_json d') as [s|e]; cbn; [|done].
    destruct (write_config s _); done.
  - unfold current_data; cbn; rewrite Hc; cbn.
    unfold read_config, mbind, M_bind; cbn; rewrite Hr, Hc; cbn; rewrite Hj; cbn.
    destruct (update_fn d) as [d'|e]; cbn; [|done].
    destruct (to_json d') as [s|e]; cbn; [|done].
    destruct (write_config s _); done.
Qed.

Lemma foldl_emit_config (evs : list Event) (w : World) :
  w_config (foldl (fun w ev => emit ev w) w evs) = w_config w.
Proof. revert w; induction evs as [|ev evs IH]; intros w; [done|]. cbn. by rewrite IH. Qed.

Lemma foldl_emit_trace (evs : list Event) (w : World) :
  w_trace (foldl (fun w ev => emit ev w) w evs) = (w_trace w ++ evs)%list.
Proof.
  revert w; induction evs as [|ev evs IH]; intros w; cbn; [by rewrite app_nil_r|].
  rewrite IH; cbn. by rewrite <- app_assoc.
Qed.

Lemma foldl_emit_write_error (evs : list Event) (w : World) :
  w_write_error (foldl (fun w ev => emit ev w) w evs) = w_write_error w.
Proof. revert w; induction evs as [|ev evs IH]; intros w; [done|]. cbn. by rewrite IH. Qed.


Lemma suffix_no_write (tr evs : list Event) :
  (forall c, EvWrite c ∉ evs) ->
  exists evs', (tr ++ evs)%list = (tr ++ evs')%list /\ forall c, EvWrite c ∉ evs'.
Proof. intros H. by exists evs. Qed.

Lemma map_err_ok {A} (f : string -> string) (r : result A string) (x : A) :
  map_err f r = Ok x -> r = Ok x.
Proof. by destruct r; cbn; intros; simplify_eq. Qed.

Ltac apply_map_err_ok :=
  repeat match goal with H : map_err _ _ = Ok _ |- _ => apply map_err_ok in H end.

Ltac run_store :=
  unfold update_app_data_sync, get_app_data_path, with_lock,
    current_data, read_config, write_config, lift, emit, set_config in *;
  unfold mbind, M_bind in *; cbn in *.

(** ** C1: [update_app_data_sync] (the store's mutate).
    A transform that fails leaves the file unwritten and unchanged, in every
    prior state; and once [d] is loaded, a failing transform returns its
    error after lock, load and unlock, while a succeeding one is followed by
    serialization and exactly one write, all between lock and unlock. *)
Theorem update_app_data_sync_transform (update_fn : AppData -> result AppData string)
    (w : World) :
  ((forall d, exists e, update_fn d = Err e) ->
   let '(r, w') := update_app_data_sync from_json to_json update_fn w in
   is_err r = true /\ w_config w' = w_config w /\
   exists evs, w_trace w' = (w_trace w ++ evs)%list /\ forall c, EvWrite c ∉ evs) /\
  (forall d, loads from_json w d ->
   (forall e, update_fn d = Err e ->
    let '(r, w') := update_app_data_sync from_json to_json update_fn w in
    r = Err e /\ w_config w' = w_config w /\
    w_trace w' = (w_trace w ++ EvLock :: load_events w ++ [EvUnlock])%list) /\
   (forall d' s, update_fn d = Ok d' -> to_json d' = Ok s -> w_write_error w = None ->
    let '(r, w') := update_app_data_sync from_json to_json update_fn w in
    r = Ok tt /\ w_config w' = Some s /\
    w_trace w' = (w_trace w ++ EvLock :: load_events w ++ [EvWrite s; EvUnlock])%list)).
Proof.
  split.
  - intros Hf. destruct w as [a b l c r wr tr]. run_store.
    repeat case_match; simplify_eq/=;
      try match goal with
          | H : update_fn ?x = Ok _ |- _ =>
              destruct (Hf x) as [? Hx]; rewrite Hx in H; discriminate
          end.
    all: split; [done|]; split; [done|].
    all: first
      [ exists []; rewrite app_nil_r; split; [done | intros ?; apply not_elem_of_nil]
      | rewrite <- !app_assoc; apply suffix_no_write; cbn;
        intros ?; rewrite ?not_elem_of_cons; repeat split; try discriminate;
        apply not_elem_of_nil ].
  - intros d Hload. rewrite (update_app_data_sync_loaded _ _ d Hload).
    unfold load_events; destruct Hload as (_ & _ & _ & Hc).
    split.
    + intros e ->. cbn. rewrite foldl_emit_config, foldl_emit_trace; cbn.
      split; [done|]. split; [by destruct Hc as [[-> _]|(? & -> & _)]|].
      rewrite <- !app_assoc. by destruct Hc as [[-> _]|(? & -> & _)].
    + intros d' s -> -> Hw. unfold write_config. rewrite foldl_emit_write_error, Hw. cbn.
      split; [done|]. split; [done|].
      rewrite foldl_emit_trace; cbn. rewrite <- !app_assoc. by destruct Hc as [[-> _]|(? & -> & _)].
Qed.


(** ** C2: field isolation of the two wrappers. When [save_data_file_path]
    succeeds, the document it writes keeps the categories and hotkeys of the
    document it loaded; when [save_app_data] succeeds, the document it writes
    keeps the loaded directory-to-path mapping. *)
Theorem save_wrappers_field_isolation :
  (forall (directory data_file_path : string) (w w' : World),
   save_data_file_path from_json to_json directory data_file_path w = (Ok tt, w') ->
   exists d d' s, loads from_json w d /\ w_config w' = Some s /\ to_json d' = Ok s /\
     categories d' = categories d /\ hotkeys d' = hotkeys d /\
     data_file_paths d' = Some (<[directory := data_file_path]> (default ∅ (data_file_paths d)))) /\
  (forall (cats : list CategoryData) (hks : list HotkeyData) (w w' : World),
   save_app_data from_json to_json cats hks w = (Ok tt, w') ->
   exists d d' s, loads from_json w d /\ w_config w' = Some s /\ to_json d' = Ok s /\
     data_file_paths d' = data_file_paths d /\ categories d' = cats /\ hotkeys d' = hks).
Proof.
  split.
  - intros directory dfp w w' Hrun.
    unfold save_data_file_path in Hrun.
    destruct w as [a b l c r wr tr]. run_store.
    repeat case_match; simplify_eq/=; apply_map_err_ok.
    + exists a0; eexists; exists s. split_and!; [|done|eassumption|done..].
      unfold loads; cbn; naive_solver.
    + exists AppData_default; eexists; exists s. split_and!; [|done|eassumption|done..].
      unfold loads; cbn; naive_solver.
  - intros cats hks w w' Hrun.
    unfold save_app_data in Hrun.
    destruct w as [a b l c r wr tr]. run_store.
    repeat case_match; simplify_eq/=; apply_map_err_ok.
    + exists a0; eexists; exists s. split_and!; [|done|eassumption|done..].
      unfold loads; cbn; naive_solver.
    + exists AppData_default; eexists; exists s. split_and!; [|done|eassumption|done..].
      unfold loads; cbn; naive_solver.
Qed.

End StoreProofs.

(** * Stable sorting with a total-preorder comparator *)

Section SortFacts.
Local Open Scope list_scope.

Context {A : Type} (cmp : A -> A -> comparison).
Hypothesis cmp_opp : forall a b, cmp b a = CompOpp (cmp a b).
Hypothesis cmp_le_trans : forall a b c, cmp a b <> Gt -> cmp b c <> Gt -> cmp a c <> Gt.

Lemma cmp_gt_lt a b : cmp a b = Gt <-> cmp b a = Lt.
Proof. rewrite (cmp_opp a b). destruct (cmp a b); cbn; naive_solver. Qed.

Lemma cmp_lt_gt a b : cmp a b = Lt <-> cmp b a = Gt.
Proof. rewrite (cmp_opp a b). destruct (cmp a b); cbn; naive_solver. Qed.

Lemma cmp_lt_le_trans a b c : cmp a b = Lt -> cmp b c <> Gt -> cmp a c = Lt.
Proof.
  intros Hab Hbc. destruct (cmp a c) eqn:Hac; [| done |].
  - exfalso. assert (Hca : cmp c a <> Gt) by (rewrite cmp_opp, Hac; done).
    pose proof (cmp_le_trans b c a Hbc Hca) as Hba.
    apply Hba, cmp_lt_gt, Hab.
  - exfalso. apply cmp_gt_lt in Hac.
    assert (Hca : cmp c a <> Gt) by (rewrite Hac; done).
    pose proof (cmp_le_trans b c a Hbc Hca) as Hba.
    apply Hba, cmp_lt_gt, Hab.
Qed.

Lemma cmp_not_lt a b : cmp a b <> Lt <-> cmp b a <> Gt.
Proof. rewrite (cmp_opp a b). destruct (cmp a b); cbn; naive_solver. Qed.

Lemma insert_by_cons_gt x y l : cmp x y = Gt -> insert_by cmp x (y :: l) = y :: insert_by cmp x l.
Proof. intros H; cbn; by rewrite H. Qed.

Lemma insert_by_cons_ngt x y l : cmp x y <> Gt -> insert_by cmp x (y :: l) = x :: y :: l.
Proof. intros H; cbn; by destruct (cmp x y). Qed.

Lemma insert_last_cons_lt x y l : cmp x y = Lt -> insert_last cmp x (y :: l) = x :: y :: l.
Proof. intros H; cbn; by rewrite H. Qed.

Lemma insert_last_cons_nlt x y l : cmp x y <> Lt -> insert_last cmp x (y :: l) = y :: insert_last cmp x l.
Proof. intros H; cbn; by destruct (cmp x y). Qed.

Lemma insert_by_insert_last_comm (a x : A) (s : list A) :
  insert_by cmp a (insert_last cmp x s) = insert_last cmp x (insert_by cmp a s).
Proof.
  induction s as [|y s IH].
  - cbn. rewrite (cmp_opp a x). by destruct (cmp a x).
  - destruct (decide (cmp x y = Lt)) as [Hxy|Hxy], (decide (cmp a y = Gt)) as [Hay|Hay].
    + assert (Hax : cmp a x = Gt).
      { apply cmp_lt_gt, (cmp_lt_le_trans x y a Hxy).
        apply cmp_gt_lt in Hay. by rewrite Hay. }
      by repeat progress rewrite ?(insert_last_cons_lt _ _ _ Hxy),
        ?(insert_by_cons_gt _ _ _ Hax), ?(insert_by_cons_gt _ _ _ Hay).
    + rewrite (insert_last_cons_lt _ _ _ Hxy), (insert_by_cons_ngt _ _ _ Hay).
      destruct (decide (cmp a x = Gt)) as [Hax|Hax].
      * rewrite (insert_by_cons_gt _ _ _ Hax), (insert_by_cons_ngt _ _ _ Hay).
        apply cmp_gt_lt in Hax. by rewrite (insert_last_cons_lt _ _ _ Hax).
      * rewrite (insert_by_cons_ngt _ _ _ Hax).
        apply cmp_not_lt in Hax. by rewrite (insert_last_cons_nlt _ _ _ Hax),
          (insert_last_cons_lt _ _ _ Hxy).
    + repeat progress rewrite ?(insert_last_cons_nlt _ _ _ Hxy), ?(insert_by_cons_gt _ _ _ Hay).
      by rewrite IH.
    + assert (Hxa : cmp x a <> Lt).
      { apply cmp_not_lt. apply (cmp_le_trans a y x Hay). by apply cmp_not_lt. }
      by repeat progress rewrite ?(insert_last_cons_nlt _ _ _ Hxy),
        ?(insert_by_cons_ngt _ _ _ Hay), ?(insert_last_cons_nlt _ _ _ Hxa).
Qed.

Lemma sort_by_snoc (m : list A) (x : A) :
  sort_by cmp (m ++ [x]) = insert_last cmp x (sort_by cmp m).
Proof.
  induction m as [|a m IH]; [done|].
  cbn. rewrite IH. apply insert_by_insert_last_comm.
Qed.

Lemma insert_by_Permutation (x : A) (l : list A) : Permutation (insert_by cmp x l) (x :: l).
Proof.
  induction l as [|y l IH]; cbn; [done|].
  destruct (cmp x y); try done.
  rewrite IH. apply perm_swap.
Qed.

Lemma sort_by_Permutation (l : list A) : Permutation (sort_by cmp l) l.
Proof.
  induction l as [|x l IH]; cbn; [done|].
  rewrite insert_by_Permutation. by constructor.
Qed.

Lemma insert_by_Sorted (x : A) (l : list A) :
  Sorted (fun a b => cmp a b <> Gt) l -> Sorted (fun a b => cmp a b <> Gt) (insert_by cmp x l).
Proof.
  induction l as [|y l IH]; intros Hs; cbn.
  - by repeat constructor.
  - destruct (cmp x y) eqn:Hxy.
    + constructor; [done|]. constructor. by rewrite Hxy.
    + constructor; [done|]. constructor. by rewrite Hxy.
    + apply Sorted_inv in Hs as [Hs Hhd].
      constructor; [by apply IH|].
      destruct l as [|z l]; cbn.
      * constructor. apply cmp_not_lt. by rewrite Hxy.
      * destruct (cmp x z); constructor;
          try (apply cmp_not_lt; by rewrite Hxy); by inversion Hhd.
Qed.

Lemma sort_by_Sorted (l : list A) : Sorted (fun a b => cmp a b <> Gt) (sort_by cmp l).
Proof. induction l as [|x l IH]; cbn; [constructor|]. by apply insert_by_Sorted. Qed.

Lemma sort_by_StronglySorted (l : list A) :
  StronglySorted (fun a b => cmp a b <> Gt) (sort_by cmp l).
Proof.
  apply Sorted_StronglySorted; [|apply sort_by_Sorted].
  intros a b c. apply cmp_le_trans.
Qed.

Lemma insert_by_app_skip (c : A -> A -> comparison) (x : A) (l1 l2 : list A) :
  (forall z, In z l1 -> c x z = Gt) -> insert_by c x (l1 ++ l2) = l1 ++ insert_by c x l2.
Proof.
  induction l1 as [|y l1 IH]; intros H; cbn; [done|].
  rewrite (H y (or_introl eq_refl)), IH; [done|].
  intros z Hz. apply H. by right.
Qed.

Lemma insert_by_snoc (c : A -> A -> comparison) (x y : A) (l : list A) :
  c x y <> Gt -> insert_by c x (l ++ [y]) = insert_by c x l ++ [y].
Proof.
  intros Hxy. induction l as [|z l IH]; cbn.
  - by destruct (c x y).
  - destruct (c x z); try done. by rewrite IH.
Qed.

Lemma rev_insert_last (x : A) (s : list A) :
  StronglySorted (fun a b => cmp a b <> Gt) s ->
  rev (insert_last cmp x s) = insert_by (fun a b => CompOpp (cmp a b)) x (rev s).
Proof.
  induction s as [|y s IH]; intros Hs; [done|].
  apply StronglySorted_inv in Hs as [Hs Hall].
  destruct (decide (cmp x y = Lt)) as [Hxy|Hxy].
  - rewrite (insert_last_cons_lt _ _ _ Hxy). cbn [rev].
    rewrite insert_by_app_skip.
    + cbn. rewrite Hxy. by rewrite <- app_assoc.
    + intros z Hz. apply in_rev in Hz.
      rewrite Forall_forall in Hall.
      assert (Hyz : cmp y z <> Gt) by (apply Hall; by apply list_elem_of_In).
      by rewrite (cmp_lt_le_trans x y z Hxy Hyz).
  - rewrite (insert_last_cons_nlt _ _ _ Hxy). cbn [rev].
    rewrite IH by done. rewrite insert_by_snoc; [done|].
    by destruct (cmp x y).
Qed.

(** A stable sort with the reversed comparator is the reverse of the stable
    sort of the reversed input. *)
Lemma sort_by_reversed (l : list A) :
  sort_by (fun a b => CompOpp (cmp a b)) l = rev (sort_by cmp (rev l)).
Proof.
  induction l as [|x l IH]; [done|].
  cbn [sort_by rev]. rewrite sort_by_snoc, rev_insert_last, IH; [done|].
  apply sort_by_StronglySorted.
Qed.

End SortFacts.

(** * Properties of the query engine *)

(** ** The four comparators are total preorders *)

Lemma string_compare_opp (a b : string) : String.compare b a = CompOpp (String.compare a b).
Proof. apply String_as_OT.cmp_antisym. Qed.

Lemma string_compare_le_trans (a b c : string) :
  String.compare a b <> Gt -> String.compare b c <> Gt -> String.compare a c <> Gt.
Proof.
  assert (Hle : forall x y, String.compare x y <> Gt <-> x = y \/ String_as_OT.lt x y).
  { intros x y. rewrite <- String_as_OT.cmp_lt. unfold String_as_OT.cmp.
    pose proof (String_as_OT.cmp_eq x y) as Heq. unfold String_as_OT.cmp in Heq.
    destruct (String.compare x y) eqn:E; split; intros H; naive_solver. }
  rewrite !Hle. intros [->|Hab] [->|Hbc]; auto.
  right. by eapply String_as_OT.lt_trans.
Qed.

Lemma Z_compare_le_trans (a b c : Z) :
  Z.compare a b <> Gt -> Z.compare b c <> Gt -> Z.compare a c <> Gt.
Proof. rewrite !Z.compare_le_iff. lia. Qed.

(** The order of [cmp_date_created] on the parsed dates, [None] last. *)
Lemma date_order_opp (x y : option Z) :
  (match y, x with
   | Some a, Some b => Z.compare a b | Some _, None => Lt | None, Some _ => Gt | None, None => Eq
   end) =
  CompOpp (match x, y with
   | Some a, Some b => Z.compare a b | Some _, None => Lt | None, Some _ => Gt | None, None => Eq
   end).
Proof. destruct x, y; cbn; try done. apply Z.compare_antisym. Qed.

Section Comparators.

Variable to_lowercase : string -> string.
Variable parse_rfc3339 : string -> option Z.

Lemma cmp_name_opp a b : cmp_name to_lowercase b a = CompOpp (cmp_name to_lowercase a b).
Proof. apply string_compare_opp. Qed.

Lemma cmp_name_le_trans a b c :
  cmp_name to_lowercase a b <> Gt -> cmp_name to_lowercase b c <> Gt ->
  cmp_name to_lowercase a c <> Gt.
Proof. apply string_compare_le_trans. Qed.

Lemma cmp_size_opp a b : cmp_size b a = CompOpp (cmp_size a b).
Proof. apply Z.compare_antisym. Qed.

Lemma cmp_size_le_trans a b c :
  cmp_size a b <> Gt -> cmp_size b c <> Gt -> cmp_size a c <> Gt.
Proof. apply Z_compare_le_trans. Qed.

Lemma cmp_date_created_opp a b :
  cmp_date_created parse_rfc3339 b a = CompOpp (cmp_date_created parse_rfc3339 a b).
Proof. apply date_order_opp. Qed.

Lemma cmp_date_created_le_trans a b c :
  cmp_date_created parse_rfc3339 a b <> Gt -> cmp_date_created parse_rfc3339 b c <> Gt ->
  cmp_date_created parse_rfc3339 a c <> Gt.
Proof.
  unfold cmp_date_created.
  destruct (date_created parse_rfc3339 a), (date_created parse_rfc3339 b),
    (date_created parse_rfc3339 c); try done.
  apply Z_compare_le_trans.
Qed.

Lemma cmp_last_categorized_opp m a b :
  cmp_last_categorized parse_rfc3339 m b a = CompOpp (cmp_last_categorized parse_rfc3339 m a b).
Proof. apply Z.compare_antisym. Qed.

Lemma cmp_last_categorized_le_trans m a b c :
  cmp_last_categorized parse_rfc3339 m a b <> Gt -> cmp_last_categorized parse_rfc3339 m b c <> Gt ->
  cmp_last_categorized parse_rfc3339 m a c <> Gt.
Proof. apply Z_compare_le_trans. Qed.

End Comparators.

(** ** Filtering commutes with reversal *)

Section FilterFacts.

Variable to_lowercase : string -> string.
Variable parse_rfc3339 : string -> option Z.
Variable profile : Profile.

Lemma category_filter_rev m c (l : list ImagePath) :
  category_filter m c (rev l) = rev (category_filter m c l).
Proof.
  unfold category_filter. destruct c as [cid|]; [|done].
  destruct (String.eqb cid ""); [done|].
  destruct (String.eqb cid "uncategorized"); apply List.filter_rev.
Qed.

Lemma name_filter_rev np op (l : list ImagePath) :
  name_filter to_lowercase np op (rev l) = rev (name_filter to_lowercase np op l).
Proof.
  unfold name_filter. destruct np as [np|]; [|done].
  destruct (String.eqb np ""); [done|]. apply List.filter_rev.
Qed.

Lemma size_filter_rev so sv sv2 (l : list ImagePath) :
  size_filter profile so sv sv2 (rev l) = option_map (@rev ImagePath) (size_filter profile so sv sv2 l).
Proof.
  unfold size_filter.
  repeat (case_match; try done); cbn; by rewrite List.filter_rev.
Qed.

Lemma apply_filters_rev m fo (l : list ImagePath) :
  apply_filters to_lowercase profile m fo (rev l) =
  option_map (@rev ImagePath) (apply_filters to_lowercase profile m fo l).
Proof.
  unfold apply_filters. destruct fo as [f|]; [|done].
  by rewrite category_filter_rev, name_filter_rev, size_filter_rev.
Qed.

End FilterFacts.

Section QueryProofs.

Variable to_lowercase : string -> string.
Variable parse_rfc3339 : string -> option Z.
Variable profile : Profile.

Lemma sort_step_descending m sort_option (l : list ImagePath) :
  sort_step to_lowercase parse_rfc3339 m sort_option "descending" l =
  rev (sort_step to_lowercase parse_rfc3339 m sort_option "ascending" (rev l)).
Proof.
  unfold sort_step, directed; cbn.
  destruct (String.eqb sort_option "name").
  { apply sort_by_reversed; [apply cmp_name_opp | apply cmp_name_le_trans]. }
  destruct (String.eqb sort_option "size").
  { apply sort_by_reversed; [apply cmp_size_opp | apply cmp_size_le_trans]. }
  destruct (String.eqb sort_option "dateCreated").
  { apply sort_by_reversed; [apply cmp_date_created_opp | apply cmp_date_created_le_trans]. }
  destruct (String.eqb sort_option "lastCategorized").
  { apply sort_by_reversed;
      [apply cmp_last_categorized_opp | apply cmp_last_categorized_le_trans]. }
  by rewrite rev_involutive.
Qed.

End QueryProofs.

(** ** C3 as stated fails: two records of equal size keep their input order
    in both directions, so descending is not the reverse of ascending. *)
Lemma sort_images_descending_not_reverse_of_ascending :
  let a := mkImagePath "/photos/a.jpg" (Some 1024) None in
  let b := mkImagePath "/photos/b.jpg" (Some 1024) None in
  sort_images ascii_to_lowercase chrono_parse_rfc3339 Debug [a; b] "size" "ascending" [] None
    = Some (Ok [a; b]) /\
  sort_images ascii_to_lowercase chrono_parse_rfc3339 Debug [a; b] "size" "descending" [] None
    = Some (Ok [a; b]) /\
  rev [a; b] <> [a; b].
Proof. cbn. split; [reflexivity|]. split; [reflexivity|]. discriminate. Qed.

(** ** Witnesses of the config-store theorems on a concrete world *)

Lemma update_app_data_sync_transform_witness :
  loads (fun _ => Ok AppData_default) fresh_world AppData_default /\
  (let '(r, w') := update_app_data_sync (fun _ => Ok AppData_default) (fun _ => Ok "{}")
                     (fun _ => Err "rejected") fresh_world in
   r = Err "rejected" /\ w_config w' = None /\ w_trace w' = [EvLock; EvUnlock]) /\
  (let '(r, w') := update_app_data_sync (fun _ => Ok AppData_default) (fun _ => Ok "{}")
                     (fun d => Ok d) fresh_world in
   r = Ok tt /\ w_config w' = Some "{}" /\ w_trace w' = [EvLock; EvWrite "{}"; EvUnlock]).
Proof.
  assert (Hl : loads (fun _ => Ok AppData_default) fresh_world AppData_default)
    by (unfold loads; cbn; naive_solver).
  destruct (update_app_data_sync_transform (fun _ => Ok AppData_default) (fun _ => Ok "{}")
              (fun _ => Err "rejected") fresh_world) as [_ H1].
  destruct (update_app_data_sync_transform (fun _ => Ok AppData_default) (fun _ => Ok "{}")
              (fun d => Ok d) fresh_world) as [_ H2].
  split; [exact Hl|]. split.
  - exact (proj1 (H1 _ Hl) "rejected" eq_refl).
  - exact (proj2 (H2 _ Hl) AppData_default "{}" eq_refl eq_refl eq_refl).
Defined.

Lemma save_wrappers_field_isolation_witness :
  let old := mkAppData [mkCategoryData "c1" "Cats" "#ff0000"] [] None in
  let w := mkWorld None None None (Some "old") None None [] in
  (let '(r, w') := save_data_file_path (fun _ => Ok old) (fun _ => Ok "new") "/photos" "/data/p.json" w in
   r = Ok tt /\
   exists d d' s, loads (fun _ => Ok old) w d /\ w_config w' = Some s /\
     categories d' = categories d /\ hotkeys d' = hotkeys d) /\
  (let '(r, w') := save_app_data (fun _ => Ok old) (fun _ => Ok "new") [] [] w in
   r = Ok tt /\
   exists d d' s, loads (fun _ => Ok old) w d /\ w_config w' = Some s /\
     data_file_paths d' = data_file_paths d).
Proof.
  intros old w.
  destruct (save_wrappers_field_isolation (fun _ => Ok old) (fun _ => Ok "new")) as [H1 H2].
  split.
  - remember (save_data_file_path (fun _ => Ok old) (fun _ => Ok "new") "/photos" "/data/p.json" w)
      as res eqn:Hres.
    destruct res as [r w'].
    assert (Hr : r = Ok tt) by (vm_compute in Hres; congruence). subst r.
    split; [done|].
    destruct (H1 "/photos" "/data/p.json" w w' (eq_sym Hres)) as (d & d' & s & Hl & Hc & _ & Hcat & Hhk & _).
    exists d, d', s. done.
  - remember (save_app_data (fun _ => Ok old) (fun _ => Ok "new") [] [] w) as res eqn:Hres.
    destruct res as [r w'].
    assert (Hr : r = Ok tt) by (vm_compute in Hres; congruence). subst r.
    split; [done|].
    destruct (H2 [] [] w w' (eq_sym Hres)) as (d & d' & s & Hl & Hc & _ & Hdf & _).
    exists d, d', s. done.
Defined.

(** ** Last-categorized sort values *)

Lemma foldl_max_spec (x : Z) (l : list Z) :
  In (foldl Z.max x l) (x :: l) /\ forall t, In t (x :: l) -> t <= foldl Z.max x l.
Proof.
  revert x; induction l as [|y l IH]; intros x; cbn.
  - split; [by left|]. intros t [->|[]]. lia.
  - destruct (IH (Z.max x y)) as [Hin Hub]. split.
    + destruct Hin as [Hm|Hin]; [|by right; right].
      rewrite <- Hm. destruct (Z.max_spec x y) as [[_ ->]|[_ ->]]; [by right; left|by left].
    + intros t [Ht|[Ht|Ht]].
      * subst t. transitivity (Z.max x y); [lia|]. apply Hub. by left.
      * subst t. transitivity (Z.max x y); [lia|]. apply Hub. by left.
      * apply Hub. by right.
Qed.

Lemma max_list_spec (l : list Z) :
  (l = [] -> max_list l = None) /\
  (l <> [] -> exists t, max_list l = Some t /\ In t l /\ forall u, In u l -> u <= t).
Proof.
  destruct l as [|x l]; cbn; split; try done.
  intros _. exists (foldl Z.max x l). split; [done|]. apply foldl_max_spec.
Qed.

Lemma StronglySorted_weaken {A} (R S : A -> A -> Prop) (l : list A) :
  (forall a b, R a b -> S a b) -> StronglySorted R l -> StronglySorted S l.
Proof.
  intros HRS Hl. induction Hl as [|a l Hl IH Hall]; constructor; [done|].
  eapply Forall_impl; [exact Hall|]. intros b. apply HRS.
Qed.

(** ** C4 (as amended): under [lastCategorized] a record's sort value is the
    maximum of its parseable assignment timestamps (seconds since the Unix
    epoch) and [0] when the path is absent from the map, its list is empty or
    none of its timestamps parses; the ascending result is ordered by that
    value, so a never-categorized record precedes every record whose latest
    timestamp is after 1970-01-01T00:00:00Z, but not one whose latest
    timestamp is at or before it. *)
Theorem last_categorized_sort_value (parse_rfc3339 : string -> option Z)
    (to_lowercase : string -> string) (profile : Profile) :
  (forall (m : gmap string (list CategoryAssignment)) (p : string),
     (parsed_timestamps parse_rfc3339 m p = [] -> get_latest_assignment parse_rfc3339 m p = 0) /\
     (parsed_timestamps parse_rfc3339 m p <> [] ->
        In (get_latest_assignment parse_rfc3339 m p) (parsed_timestamps parse_rfc3339 m p) /\
        forall t, In t (parsed_timestamps parse_rfc3339 m p) ->
          t <= get_latest_assignment parse_rfc3339 m p)) /\
  (forall images image_categories filter_options out,
     sort_images to_lowercase parse_rfc3339 profile images "lastCategorized" "ascending"
       image_categories filter_options = Some (Ok out) ->
     StronglySorted (fun a b =>
       get_latest_assignment parse_rfc3339 (collect_map image_categories) (path a) <=
       get_latest_assignment parse_rfc3339 (collect_map image_categories) (path b)) out).
Proof.
  split.
  - intros m p. unfold get_latest_assignment, parsed_timestamps.
    destruct (m !! p) as [assignments|]; [|done].
    destruct (max_list_spec (omap (fun a => parse_rfc3339 (assigned_at a)) assignments))
      as [Hnil Hcons].
    destruct assignments as [|a0 rest] eqn:Ha; [done|].
    split.
    + intros He. by rewrite (Hnil He).
    + intros Hne. destruct (Hcons Hne) as (t & Ht & Hin & Hub). rewrite Ht. cbn. done.
  - intros images ics fo out Hrun. unfold sort_images in Hrun.
    destruct (apply_filters _ _ _ _ _) as [l|]; [|done].
    injection Hrun as <-. unfold sort_step, directed; cbn.
    eapply StronglySorted_weaken; [|apply sort_by_StronglySorted].
    + intros a b. apply Z.compare_le_iff.
    + apply cmp_last_categorized_opp.
    + apply cmp_last_categorized_le_trans.
Qed.

(** ** C4 as stated fails: the sentinel [0] does not sort before a real
    timestamp earlier than the epoch ([-1] for 1969-12-31T23:59:59Z). *)
Lemma last_categorized_sentinel_after_pre_epoch :
  let u := mkImagePath "/photos/u.jpg" None None in
  let a := mkImagePath "/photos/a.jpg" None None in
  let ics := [("/photos/a.jpg", [mkCategoryAssignment "c1" "1969-12-31T23:59:59Z"])] in
  chrono_parse_rfc3339 "1969-12-31T23:59:59Z" = Some (-1) /\
  sort_images ascii_to_lowercase chrono_parse_rfc3339 Debug [u; a] "lastCategorized" "ascending"
    ics None = Some (Ok [a; u]).
Proof. split; vm_compute; reflexivity. Qed.

Lemma last_categorized_sort_value_witness :
  let ics := [("/photos/a.jpg", [mkCategoryAssignment "c1" "2024-01-01T00:00:00Z";
                                  mkCategoryAssignment "c2" "not a date"])] in
  get_latest_assignment chrono_parse_rfc3339 (collect_map ics) "/photos/a.jpg" = 1704067200 /\
  get_latest_assignment chrono_parse_rfc3339 (collect_map ics) "/photos/u.jpg" = 0 /\
  StronglySorted (fun a b =>
    get_latest_assignment chrono_parse_rfc3339 (collect_map ics) (path a) <=
    get_latest_assignment chrono_parse_rfc3339 (collect_map ics) (path b))
    [mkImagePath "/photos/u.jpg" None None; mkImagePath "/photos/a.jpg" None None].
Proof.
  intros ics.
  destruct (last_categorized_sort_value chrono_parse_rfc3339 ascii_to_lowercase Debug) as [Hkey Hsort].
  split; [|split].
  - vm_compute. reflexivity.
  - apply (proj1 (Hkey (collect_map ics) "/photos/u.jpg")). vm_compute. reflexivity.
  - apply (Hsort [mkImagePath "/photos/a.jpg" None None; mkImagePath "/photos/u.jpg" None None]
             ics None). vm_compute. reflexivity.
Defined.

(** ** C5: a size threshold that parses as a [u64] but exceeds
    [u64::MAX / 1024] makes [size_value_kb * 1024] overflow: the command
    panics in a debug build (overflow checks) and in a release build compares
    against the wrapped threshold ([2^54 * 1024] wraps to [0]). *)
Theorem sort_images_size_threshold_overflow :
  let a := mkImagePath "/photos/a.jpg" (Some 2048) None in
  let fo := mkFilterOptions None None None None (Some "18014398509481984") None in
  parse_u64 "18014398509481984" = Some (2 ^ 54) /\
  sort_images ascii_to_lowercase chrono_parse_rfc3339 Debug [a] "name" "ascending" [] (Some fo)
    = None /\
  sort_images ascii_to_lowercase chrono_parse_rfc3339 Release [a] "name" "ascending" [] (Some fo)
    = Some (Ok [a]).
Proof. split; [|split]; vm_compute; reflexivity. Qed.

(** ** C7: the same overflow breaks order independence of [between] in a
    debug build: with thresholds ([2^54], ["abc"]) the first threshold is
    multiplied and the command panics, with (["abc"], [2^54]) the first
    threshold does not parse and the clause is a no-op. *)
Theorem sort_images_between_order_overflow :
  let a := mkImagePath "/photos/a.jpg" (Some 2048) None in
  let fo x y := mkFilterOptions None None None (Some "between") (Some x) (Some y) in
  sort_images ascii_to_lowercase chrono_parse_rfc3339 Debug [a] "name" "ascending" []
    (Some (fo "18014398509481984" "abc")) = None /\
  sort_images ascii_to_lowercase chrono_parse_rfc3339 Debug [a] "name" "ascending" []
    (Some (fo "abc" "18014398509481984")) = Some (Ok [a]).
Proof. split; vm_compute; reflexivity. Qed.

(** Without overflow the two [between] thresholds are order independent:
    always in a release build. *)
Lemma size_filter_between_swap_release (x y : option string) (imgs : list ImagePath) :
  size_filter Release (Some "between") x y imgs = size_filter Release (Some "between") y x imgs.
Proof.
  unfold size_filter, mul_u64; cbn.
  destruct x as [x|], y as [y|]; cbn; repeat case_match; simplify_eq; try done.
  by rewrite Z.min_comm, Z.max_comm.
Qed.

(** ** Sorting permutes, filtering selects *)

Lemma sort_step_Permutation to_lowercase parse_rfc3339 m so sd (l : list ImagePath) :
  Permutation (sort_step to_lowercase parse_rfc3339 m so sd l) l.
Proof.
  unfold sort_step.
  repeat (case_match; [apply sort_by_Permutation|]). done.
Qed.

Lemma sort_step_In to_lowercase parse_rfc3339 m so sd (l : list ImagePath) img :
  In img (sort_step to_lowercase parse_rfc3339 m so sd l) <-> In img l.
Proof. split; apply Permutation_in; [|symmetry]; apply sort_step_Permutation. Qed.

(** ** C6: the category clause. With ["uncategorized"] it keeps exactly the
    records whose path is absent from the map or maps to an empty list; with
    any other non-empty category [cid] exactly the records with an assignment
    whose [category_id] equals [cid]. *)
Theorem category_filter_exact (to_lowercase : string -> string)
    (parse_rfc3339 : string -> option Z) (profile : Profile)
    (images : list ImagePath) (sort_option sort_direction : string)
    (image_categories : list (string * list CategoryAssignment)) (cid : string) :
  cid <> "" ->
  exists out,
    sort_images to_lowercase parse_rfc3339 profile images sort_option sort_direction
      image_categories (Some (mkFilterOptions (Some cid) None None None None None)) = Some (Ok out) /\
    forall img, In img out <->
      In img images /\
      ((cid = "uncategorized" /\
        (collect_map image_categories !! path img = None \/
         collect_map image_categories !! path img = Some [])) \/
       (cid <> "uncategorized" /\
        exists assignments a, collect_map image_categories !! path img = Some assignments /\
          In a assignments /\ category_id a = cid)).
Proof.
  intros Hne. unfold sort_images, apply_filters; cbn.
  eexists; split; [reflexivity|]. intros img.
  rewrite sort_step_In. unfold category_filter.
  rewrite (proj2 (String.eqb_neq cid "") Hne).
  destruct (String.eqb cid "uncategorized") eqn:Hu.
  - apply String.eqb_eq in Hu. subst cid.
    rewrite List.filter_In.
    destruct (collect_map image_categories !! path img) as [[|a asg]|]; naive_solver.
  - apply String.eqb_neq in Hu.
    rewrite List.filter_In.
    destruct (collect_map image_categories !! path img) as [asg|] eqn:Hl.
    + rewrite existsb_exists. split.
      * intros [Hin [a [Ha Heq]]]. apply String.eqb_eq in Heq. split; [done|].
        right. split; [done|]. exists asg, a. done.
      * intros [Hin [[? _]|[_ (asg' & a & Hasg & Ha & Heq)]]]; [done|].
        simplify_eq. split; [done|]. exists a. split; [done|]. by apply String.eqb_eq.
    + split; [naive_solver|]. intros [_ [[? _]|[_ (? & ? & ? & _)]]]; done.
Qed.

(** ** C8: no filter and an unrecognised sort key return the input as is. *)
Theorem sort_images_identity (to_lowercase : string -> string)
    (parse_rfc3339 : string -> option Z) (profile : Profile)
    (images : list ImagePath) (sort_option sort_direction : string)
    (image_categories : list (string * list CategoryAssignment)) :
  sort_option <> "name" -> sort_option <> "size" -> sort_option <> "dateCreated" ->
  sort_option <> "lastCategorized" ->
  sort_images to_lowercase parse_rfc3339 profile images sort_option sort_direction
    image_categories None = Some (Ok images).
Proof.
  intros H1 H2 H3 H4. unfold sort_images, apply_filters, sort_step; cbn.
  by rewrite (proj2 (String.eqb_neq _ _) H1), (proj2 (String.eqb_neq _ _) H2),
    (proj2 (String.eqb_neq _ _) H3), (proj2 (String.eqb_neq _ _) H4).
Qed.

(** ** C9: the name clause compares the lower-cased pattern with the
    lower-cased file name (the last component of the path, [""] when there is
    none) under the named operator; an absent or unrecognised operator
    behaves as ["contains"]. *)
Theorem name_filter_lowercase_basename (to_lowercase : string -> string)
    (parse_rfc3339 : string -> option Z) (profile : Profile)
    (images : list ImagePath) (sort_option sort_direction : string)
    (image_categories : list (string * list CategoryAssignment)) (np : string) :
  np <> "" ->
  (forall op, exists out,
     sort_images to_lowercase parse_rfc3339 profile images sort_option sort_direction
       image_categories (Some (mkFilterOptions None (Some np) op None None None)) = Some (Ok out) /\
     forall img, In img out <->
       In img images /\
       name_matches (default "contains" op)
         (match file_name (path img) with Some n => to_lowercase n | None => "" end)
         (to_lowercase np) = true) /\
  (forall op, (op = None \/ exists o, op = Some o /\
                 o <> "startsWith" /\ o <> "endsWith" /\ o <> "exact") ->
   exists out,
     sort_images to_lowercase parse_rfc3339 profile images sort_option sort_direction
       image_categories (Some (mkFilterOptions None (Some np) op None None None)) = Some (Ok out) /\
     forall img, In img out <->
       In img images /\
       contains (match file_name (path img) with Some n => to_lowercase n | None => "" end)
         (to_lowercase np) = true).
Proof.
  intros Hne.
  assert (Hall : forall op, exists out,
     sort_images to_lowercase parse_rfc3339 profile images sort_option sort_direction
       image_categories (Some (mkFilterOptions None (Some np) op None None None)) = Some (Ok out) /\
     forall img, In img out <->
       In img images /\
       name_matches (default "contains" op)
         (match file_name (path img) with Some n => to_lowercase n | None => "" end)
         (to_lowercase np) = true).
  { intros op. unfold sort_images, apply_filters; cbn.
    eexists; split; [reflexivity|]. intros img.
    rewrite sort_step_In. unfold name_filter.
    rewrite (proj2 (String.eqb_neq np "") Hne).
    rewrite List.filter_In. unfold filter_file_name. done. }
  split; [exact Hall|].
  intros op Hop. destruct (Hall op) as (out & Hrun & Hin).
  exists out. split; [done|]. intros img. rewrite Hin.
  assert (Hc : forall f, name_matches (default "contains" op) f (to_lowercase np) =
                         contains f (to_lowercase np)).
  { intros f. unfold name_matches.
    destruct Hop as [->|(o & -> & H1 & H2 & H3)]; cbn; [done|].
    by rewrite (proj2 (String.eqb_neq _ _) H1), (proj2 (String.eqb_neq _ _) H2),
      (proj2 (String.eqb_neq _ _) H3). }
  by rewrite Hc.
Qed.

(** ** Collecting the category pairs into a map *)

Lemma foldl_insert_notin (p : string) (x : list CategoryAssignment)
    (l : list (string * list CategoryAssignment)) (m : gmap string (list CategoryAssignment)) :
  ~ In p (map fst l) ->
  foldl (fun m kv => <[kv.1 := kv.2]> m) (<[p := x]> m) l =
  <[p := x]> (foldl (fun m kv => <[kv.1 := kv.2]> m) m l).
Proof.
  revert m; induction l as [|[k y] l IH]; intros m Hp; [done|].
  cbn in *. rewrite insert_insert_ne by naive_solver. apply IH. naive_solver.
Qed.

Lemma map_fst_filter_notin (p : string) (l : list (string * list CategoryAssignment)) :
  ~ In p (map fst (List.filter (fun kv => negb (String.eqb kv.1 p)) l)).
Proof.
  induction l as [|[k y] l IH]; cbn; [tauto|].
  destruct (String.eqb k p) eqn:Hk; cbn; [done|].
  apply String.eqb_neq in Hk. naive_solver.
Qed.

Lemma insert_foldl_drop_earlier (p : string) (v : list CategoryAssignment)
    (l : list (string * list CategoryAssignment)) (m : gmap string (list CategoryAssignment)) :
  <[p := v]> (foldl (fun m kv => <[kv.1 := kv.2]> m) m l) =
  <[p := v]> (foldl (fun m kv => <[kv.1 := kv.2]> m) m
                (List.filter (fun kv => negb (String.eqb kv.1 p)) l)).
Proof.
  revert m; induction l as [|[k y] l IH]; intros m; [done|].
  cbn. destruct (String.eqb k p) eqn:Hk; cbn.
  - apply String.eqb_eq in Hk. subst k.
    rewrite IH, foldl_insert_notin by apply map_fst_filter_notin.
    by rewrite insert_insert_eq.
  - apply IH.
Qed.

Lemma collect_map_drop_earlier (l1 l2 : list (string * list CategoryAssignment))
    (p : string) (v : list CategoryAssignment) :
  collect_map (l1 ++ (p, v) :: l2) =
  collect_map (List.filter (fun kv => negb (String.eqb kv.1 p)) l1 ++ (p, v) :: l2).
Proof.
  unfold collect_map. rewrite !foldl_app. cbn.
  by rewrite insert_foldl_drop_earlier.
Qed.

Lemma collect_map_lookup_last (l1 l2 : list (string * list CategoryAssignment))
    (p : string) (v : list CategoryAssignment) :
  ~ In p (map fst l2) -> collect_map (l1 ++ (p, v) :: l2) !! p = Some v.
Proof.
  intros Hp. unfold collect_map. rewrite foldl_app. cbn.
  rewrite foldl_insert_notin by done. apply lookup_insert_eq.
Qed.

(** ** C10: with several entries for one path, the last one decides: its
    list is the one the map holds, and the entries for that path before it
    can be removed without changing the result (filtering and
    [lastCategorized] sorting alike). *)
Theorem sort_images_last_entry_wins (to_lowercase : string -> string)
    (parse_rfc3339 : string -> option Z) (profile : Profile)
    (l1 l2 : list (string * list CategoryAssignment)) (p : string) (v : list CategoryAssignment) :
  (~ In p (map fst l2) -> collect_map (l1 ++ (p, v) :: l2) !! p = Some v) /\
  forall images sort_option sort_direction filter_options,
  sort_images to_lowercase parse_rfc3339 profile images sort_option sort_direction
    (l1 ++ (p, v) :: l2) filter_options =
  sort_images to_lowercase parse_rfc3339 profile images sort_option sort_direction
    (List.filter (fun kv => negb (String.eqb kv.1 p)) l1 ++ (p, v) :: l2) filter_options.
Proof.
  split; [apply collect_map_lookup_last|].
  intros images so sd fo. unfold sort_images.
  by rewrite collect_map_drop_earlier.
Qed.

(** ** Witnesses of the query theorems on concrete inputs *)

Lemma category_filter_exact_witness :
  let a := mkImagePath "/photos/a.jpg" (Some 2048) None in
  let u := mkImagePath "/photos/u.jpg" (Some 4096) None in
  let ics := [("/photos/a.jpg", [mkCategoryAssignment "c1" "2024-01-01T00:00:00Z"])] in
  exists out,
    sort_images ascii_to_lowercase chrono_parse_rfc3339 Debug [a; u] "name" "ascending" ics
      (Some (mkFilterOptions (Some "uncategorized") None None None None None)) = Some (Ok out) /\
    In u out /\ ~ In a out.
Proof.
  intros a u ics.
  destruct (category_filter_exact ascii_to_lowercase chrono_parse_rfc3339 Debug [a; u]
              "name" "ascending" ics "uncategorized" ltac:(discriminate)) as (out & Hrun & Hin).
  exists out. split; [exact Hrun|]. split.
  - apply Hin. split; [right; left; reflexivity|]. left. split; [reflexivity|].
    left. vm_compute. reflexivity.
  - intros Ha. apply Hin in Ha as [_ [[_ [H|H]]|[H _]]]; vm_compute in H; congruence.
Defined.

Lemma sort_images_identity_witness :
  let imgs := [mkImagePath "/photos/b.jpg" (Some 1) None; mkImagePath "/photos/a.jpg" (Some 2) None] in
  sort_images ascii_to_lowercase chrono_parse_rfc3339 Debug imgs "unknown" "descending" [] None
    = Some (Ok imgs).
Proof.
  intros imgs.
  apply (sort_images_identity ascii_to_lowercase chrono_parse_rfc3339 Debug imgs "unknown"
           "descending" []); vm_compute; discriminate.
Defined.

Lemma name_filter_lowercase_basename_witness :
  let a := mkImagePath "/Photos/Cat.JPG" (Some 2048) None in
  let b := mkImagePath "/jpg/dog.png" (Some 2048) None in
  exists out,
    sort_images ascii_to_lowercase chrono_parse_rfc3339 Debug [a; b] "name" "ascending" []
      (Some (mkFilterOptions None (Some "Jpg") (Some "fuzzy") None None None)) = Some (Ok out) /\
    In a out /\ ~ In b out.
Proof.
  intros a b.
  destruct (name_filter_lowercase_basename ascii_to_lowercase chrono_parse_rfc3339 Debug [a; b]
              "name" "ascending" [] "Jpg" ltac:(discriminate)) as [_ Hdef].
  destruct (Hdef (Some "fuzzy")) as (out & Hrun & Hin).
  { right. exists "fuzzy". split; [reflexivity|]. split_and!; discriminate. }
  exists out. split; [exact Hrun|]. split.
  - apply Hin. split; [left; reflexivity|]. vm_compute. reflexivity.
  - intros Hb. apply Hin in Hb as [_ H]. vm_compute in H. discriminate.
Defined.

Lemma sort_images_last_entry_wins_witness :
  let l1 := [("/photos/a.jpg", [mkCategoryAssignment "c1" "2024-01-01T00:00:00Z"])] in
  collect_map (l1 ++ [("/photos/a.jpg", [])]) !! "/photos/a.jpg" = Some [] /\
  sort_images ascii_to_lowercase chrono_parse_rfc3339 Debug
    [mkImagePath "/photos/a.jpg" None None] "name" "ascending" (l1 ++ [("/photos/a.jpg", [])])
    (Some (mkFilterOptions (Some "uncategorized") None None None None None)) =
  sort_images ascii_to_lowercase chrono_parse_rfc3339 Debug
    [mkImagePath "/photos/a.jpg" None None] "name" "ascending" [("/photos/a.jpg", [])]
    (Some (mkFilterOptions (Some "uncategorized") None None None None None)).
Proof.
  intros l1.
  destruct (sort_images_last_entry_wins ascii_to_lowercase chrono_parse_rfc3339 Debug
              l1 [] "/photos/a.jpg" []) as [Hlast Hdrop].
  split.
  - apply Hlast. simpl. tauto.
  - rewrite Hdrop. vm_compute. reflexivity.
Defined.

(** * Further properties of the query engine *)

Section SortMore.
Local Open Scope list_scope.

(** A stable insertion sort leaves a sorted list as it is. *)
Lemma sort_by_sorted_id {A} (cmp : A -> A -> comparison) (l : list A) :
  Sorted (fun a b => cmp a b <> Gt) l -> sort_by cmp l = l.
Proof.
  induction l as [|x l IH]; intros Hs; [done|].
  apply Sorted_inv in Hs as [Hs Hhd]. cbn. rewrite IH by done.
  destruct l as [|y l]; [done|]. inversion Hhd as [|? ? Hxy]; subst.
  cbn. by destruct (cmp x y).
Qed.

Lemma directed_opp {A} (cmp : A -> A -> comparison) (desc : bool) :
  (forall a b, cmp b a = CompOpp (cmp a b)) ->
  forall a b, directed desc (cmp b a) = CompOpp (directed desc (cmp a b)).
Proof. intros Hopp a b. unfold directed. rewrite Hopp. by destruct desc. Qed.

Lemma directed_le_trans {A} (cmp : A -> A -> comparison) (desc : bool) :
  (forall a b, cmp b a = CompOpp (cmp a b)) ->
  (forall a b c, cmp a b <> Gt -> cmp b c <> Gt -> cmp a c <> Gt) ->
  forall a b c, directed desc (cmp a b) <> Gt -> directed desc (cmp b c) <> Gt ->
    directed desc (cmp a c) <> Gt.
Proof.
  intros Hopp Htr a b c. unfold directed. destruct desc; [|apply Htr].
  assert (Hflip : forall x y, CompOpp (cmp x y) <> Gt <-> cmp y x <> Gt).
  { intros x y. rewrite (Hopp x y). destruct (cmp x y); cbn; naive_solver. }
  rewrite !Hflip. intros Hba Hcb. by apply (Htr c b a).
Qed.

(** Every [sort_by] call of [sort_step] sorts with a total preorder. *)
Lemma sort_step_cases to_lowercase parse_rfc3339 m so sd (l : list ImagePath) :
  (exists cmp : ImagePath -> ImagePath -> comparison,
     (forall a b, cmp b a = CompOpp (cmp a b)) /\
     (forall a b c, cmp a b <> Gt -> cmp b c <> Gt -> cmp a c <> Gt) /\
     forall l', sort_step to_lowercase parse_rfc3339 m so sd l' = sort_by cmp l') \/
  (forall l', sort_step to_lowercase parse_rfc3339 m so sd l' = l').
Proof.
  unfold sort_step.
  set (desc := String.eqb sd "descending").
  destruct (String.eqb so "name").
  { left. eexists; split_and!; [apply directed_opp, cmp_name_opp
      | apply directed_le_trans; [apply cmp_name_opp | apply cmp_name_le_trans] | done]. }
  destruct (String.eqb so "size").
  { left. eexists; split_and!; [apply directed_opp, cmp_size_opp
      | apply directed_le_trans; [apply cmp_size_opp | apply cmp_size_le_trans] | done]. }
  destruct (String.eqb so "dateCreated").
  { left. eexists; split_and!; [apply directed_opp, cmp_date_created_opp
      | apply directed_le_trans; [apply cmp_date_created_opp | apply cmp_date_created_le_trans]
      | done]. }
  destruct (String.eqb so "lastCategorized").
  { left. eexists; split_and!; [apply directed_opp, cmp_last_categorized_opp
      | apply directed_le_trans; [apply cmp_last_categorized_opp | apply cmp_last_categorized_le_trans]
      | done]. }
  by right.
Qed.

Lemma sort_step_idempotent to_lowercase parse_rfc3339 m so sd (l : list ImagePath) :
  sort_step to_lowercase parse_rfc3339 m so sd (sort_step to_lowercase parse_rfc3339 m so sd l) =
  sort_step to_lowercase parse_rfc3339 m so sd l.
Proof.
  destruct (sort_step_cases to_lowercase parse_rfc3339 m so sd l) as [(cmp & Hopp & Htr & Heq)|Hid].
  - rewrite !Heq. apply sort_by_sorted_id. by apply sort_by_Sorted.
  - by rewrite !Hid.
Qed.

Lemma List_filter_true {A} (l : list A) : List.filter (fun _ => true) l = l.
Proof. induction l as [|x l IH]; cbn; [done|]. by rewrite IH. Qed.

Lemma List_filter_filter {A} (P Q : A -> bool) (l : list A) :
  List.filter Q (List.filter P l) = List.filter (fun x => P x && Q x) l.
Proof.
  induction l as [|x l IH]; cbn; [done|].
  destruct (P x); cbn; [|done]. destruct (Q x); cbn; by rewrite IH.
Qed.

Lemma List_filter_sublist {A} (P : A -> bool) (l : list A) : sublist (List.filter P l) l.
Proof.
  induction l as [|x l IH]; cbn; [constructor|].
  destruct (P x); by constructor.
Qed.

(** Each clause of [apply_filters] keeps the records passing a test that does
    not depend on the other records; the size clause may instead panic, for
    every input alike. *)
Lemma category_filter_spec m c :
  exists P, forall l : list ImagePath, category_filter m c l = List.filter P l.
Proof.
  unfold category_filter. destruct c as [cid|].
  - destruct (String.eqb cid ""); [|destruct (String.eqb cid "uncategorized")].
    + exists (fun _ => true). intros l. by rewrite List_filter_true.
    + eexists; intros l; reflexivity.
    + eexists; intros l; reflexivity.
  - exists (fun _ => true). intros l. by rewrite List_filter_true.
Qed.

Lemma name_filter_spec to_lowercase np op :
  exists P, forall l : list ImagePath, name_filter to_lowercase np op l = List.filter P l.
Proof.
  unfold name_filter. destruct np as [np|].
  - destruct (String.eqb np "").
    + exists (fun _ => true). intros l. by rewrite List_filter_true.
    + eexists; intros l; reflexivity.
  - exists (fun _ => true). intros l. by rewrite List_filter_true.
Qed.

Lemma size_filter_spec profile so sv sv2 :
  (forall l : list ImagePath, size_filter profile so sv sv2 l = None) \/
  exists P, forall l : list ImagePath, size_filter profile so sv sv2 l = Some (List.filter P l).
Proof.
  unfold size_filter.
  assert (Hall : exists P, forall l : list ImagePath, Some l = Some (List.filter P l)).
  { exists (fun _ => true). intros l. by rewrite List_filter_true. }
  destruct sv as [sv|]; [|by right].
  destruct (String.eqb sv ""); [by right|].
  destruct (parse_u64 sv) as [kb|]; [|by right].
  destruct (mul_u64 profile kb 1024) as [b|]; [|by left].
  destruct (String.eqb (default "largerThan" so) "lessThan"); [right; eexists; intros l; reflexivity|].
  destruct (String.eqb (default "largerThan" so) "between"); [|right; eexists; intros l; reflexivity].
  destruct sv2 as [sv2|]; [|by right].
  destruct (String.eqb sv2 ""); [by right|].
  destruct (parse_u64 sv2) as [kb2|]; [|by right].
  destruct (mul_u64 profile kb2 1024) as [b2|]; [|by left].
  right; eexists; intros l; reflexivity.
Qed.

Lemma sort_images_run to_lowercase parse_rfc3339 profile images so sd ics fo out :
  sort_images to_lowercase parse_rfc3339 profile images so sd ics fo = Some (Ok out) ->
  exists filtered,
    apply_filters to_lowercase profile (collect_map ics) fo images = Some filtered /\
    out = sort_step to_lowercase parse_rfc3339 (collect_map ics) so sd filtered.
Proof.
  unfold sort_images. destruct (apply_filters _ _ _ _ _) as [f|]; [|done].
  intros [= <-]. by exists f.
Qed.

(** Sorted by a preorder in which [P] is closed downwards: the records with
    [P] come first. *)
Lemma StronglySorted_partition {A} (R : A -> A -> Prop) (P : A -> bool) (l : list A) :
  (forall a b, R a b -> P b = true -> P a = true) ->
  StronglySorted R l -> l = List.filter P l ++ List.filter (fun x => negb (P x)) l.
Proof.
  intros HP Hs. induction Hs as [|x l Hs IH Hall]; [done|]. cbn.
  destruct (P x) eqn:Hx; cbn.
  - by rewrite <- IH.
  - assert (Hnone : forall y, In y l -> P y = false).
    { intros y Hy. destruct (P y) eqn:Hy'; [|done].
      rewrite Forall_forall in Hall.
      assert (Hr : R x y) by (apply Hall; by apply list_elem_of_In).
      rewrite (HP x y Hr Hy') in Hx. discriminate. }
    assert (Hf : List.filter P l = []).
    { clear IH Hs Hall. induction l as [|y l IHl]; cbn; [done|].
      rewrite (Hnone y (or_introl eq_refl)). apply IHl. intros z Hz. apply Hnone. by right. }
    assert (Hg : List.filter (fun x => negb (P x)) l = l).
    { clear IH Hs Hall Hf. induction l as [|y l IHl]; cbn; [done|].
      rewrite (Hnone y (or_introl eq_refl)); cbn. f_equal. apply IHl.
      intros z Hz. apply Hnone. by right. }
    by rewrite Hf, Hg.
Qed.

End SortMore.

(** * Stability of the sort and the role of ties *)

Section SortStability.
Local Open Scope list_scope.

Context {A : Type} (cmp : A -> A -> comparison).
Hypothesis cmp_opp : forall a b, cmp b a = CompOpp (cmp a b).
Hypothesis cmp_le_trans : forall a b c, cmp a b <> Gt -> cmp b c <> Gt -> cmp a c <> Gt.

Lemma insert_by_split (x : A) (s : list A) :
  exists s1 s2, s = s1 ++ s2 /\ insert_by cmp x s = s1 ++ x :: s2 /\
    Forall (fun y => cmp x y = Gt) s1.
Proof.
  induction s as [|y s IH].
  - by exists [], [].
  - cbn. destruct (cmp x y) eqn:Hxy.
    + by exists [], (y :: s).
    + by exists [], (y :: s).
    + destruct IH as (s1 & s2 & -> & -> & Hall).
      exists (y :: s1), s2. split_and!; [done|done|by constructor].
Qed.

Lemma insert_by_filter_tied (z x : A) (s : list A) :
  List.filter (fun y => match cmp z y with Eq => true | _ => false end) (insert_by cmp x s) =
  List.filter (fun y => match cmp z y with Eq => true | _ => false end) (x :: s).
Proof.
  destruct (insert_by_split x s) as (s1 & s2 & -> & -> & Hall).
  rewrite !List.filter_app. cbn. rewrite !List.filter_app.
  destruct (cmp z x) eqn:Hzx; [|reflexivity|reflexivity].
  assert (Hnil : List.filter (fun y => match cmp z y with Eq => true | _ => false end) s1 = []).
  { induction Hall as [|y s1 Hy Hall IH]; cbn; [done|].
    destruct (cmp z y) eqn:Hzy; [|done|done].
    exfalso. assert (Hxz : cmp x z = Eq) by (rewrite cmp_opp, Hzx; done).
    apply (cmp_le_trans x z y); [by rewrite Hxz|by rewrite Hzy|done]. }
  by rewrite Hnil.
Qed.

(** [sort_by] is stable: the records comparing equal to any [z] come out in
    the order they came in. *)
Lemma sort_by_filter_tied (z : A) (l : list A) :
  List.filter (fun y => match cmp z y with Eq => true | _ => false end) (sort_by cmp l) =
  List.filter (fun y => match cmp z y with Eq => true | _ => false end) l.
Proof.
  induction l as [|x l IH]; [done|]. cbn [sort_by].
  rewrite insert_by_filter_tied. cbn. destruct (cmp z x); by rewrite IH.
Qed.

Lemma StronglySorted_cmp_unique (l1 l2 : list A) :
  StronglySorted (fun a b => cmp a b <> Gt) l1 ->
  StronglySorted (fun a b => cmp a b <> Gt) l2 ->
  Permutation l1 l2 ->
  (forall a b, In a l1 -> In b l1 -> cmp a b = Eq -> a = b) ->
  l1 = l2.
Proof.
  revert l2. induction l1 as [|x l1 IH]; intros l2 H1 H2 Hp Hnt.
  - symmetry. by apply Permutation_nil.
  - destruct l2 as [|y l2]; [by apply Permutation_sym, Permutation_nil_cons in Hp|].
    assert (Hxy : x = y).
    { assert (Hy : In y (x :: l1)) by (apply (Permutation_in _ (Permutation_sym Hp)); by left).
      assert (Hx : In x (y :: l2)) by (apply (Permutation_in _ Hp); by left).
      destruct Hy as [->|Hy]; [done|]. destruct Hx as [->|Hx]; [done|].
      apply StronglySorted_inv in H1 as [_ H1]. apply StronglySorted_inv in H2 as [_ H2].
      rewrite Forall_forall in H1, H2.
      assert (Rxy : cmp x y <> Gt) by (apply H1; by apply list_elem_of_In).
      assert (Ryx : cmp y x <> Gt) by (apply H2; by apply list_elem_of_In).
      apply Hnt; [by left|by right|].
      rewrite cmp_opp in Ryx. destruct (cmp x y); done. }
    subst y. f_equal. apply IH.
    + by apply StronglySorted_inv in H1 as [H1 _].
    + by apply StronglySorted_inv in H2 as [H2 _].
    + by apply Permutation_cons_inv in Hp.
    + intros a b Ha Hb. apply Hnt; by right.
Qed.

(** Without ties among the records, the sorted order does not depend on the
    input order. *)
Lemma sort_by_rev_no_ties (l : list A) :
  (forall a b, In a l -> In b l -> cmp a b = Eq -> a = b) ->
  sort_by cmp (rev l) = sort_by cmp l.
Proof.
  intros Hnt. apply StronglySorted_cmp_unique.
  - by apply sort_by_StronglySorted.
  - by apply sort_by_StronglySorted.
  - rewrite sort_by_Permutation, sort_by_Permutation by done.
    symmetry. apply Permutation_rev.
  - intros a b Ha Hb. apply Hnt.
    + apply (Permutation_in _ (sort_by_Permutation cmp _)) in Ha.
      by apply in_rev.
    + apply (Permutation_in _ (sort_by_Permutation cmp _)) in Hb.
      by apply in_rev.
Qed.

End SortStability.

Lemma directed_eq (desc : bool) (o : comparison) : directed desc o = Eq <-> o = Eq.
Proof. by destruct desc, o. Qed.

Lemma sort_by_directed_filter_tied {A} (cmp : A -> A -> comparison) (desc : bool) (z : A) (l : list A) :
  (forall a b, cmp b a = CompOpp (cmp a b)) ->
  (forall a b c, cmp a b <> Gt -> cmp b c <> Gt -> cmp a c <> Gt) ->
  List.filter (fun y => match cmp z y with Eq => true | _ => false end)
    (sort_by (fun a b => directed desc (cmp a b)) l) =
  List.filter (fun y => match cmp z y with Eq => true | _ => false end) l.
Proof.
  intros Hopp Htr.
  assert (Hext : forall l' : list A,
    List.filter (fun y => match cmp z y with Eq => true | _ => false end) l' =
    List.filter (fun y => match directed desc (cmp z y) with Eq => true | _ => false end) l').
  { intros l'. apply List.filter_ext. intros y. by destruct desc, (cmp z y). }
  rewrite !Hext. apply (sort_by_filter_tied (fun a b => directed desc (cmp a b))).
  - by apply directed_opp.
  - by apply directed_le_trans.
Qed.

Lemma sort_by_directed_rev_no_ties {A} (cmp : A -> A -> comparison) (desc : bool) (l : list A) :
  (forall a b, cmp b a = CompOpp (cmp a b)) ->
  (forall a b c, cmp a b <> Gt -> cmp b c <> Gt -> cmp a c <> Gt) ->
  (forall a b, In a l -> In b l -> cmp a b = Eq -> a = b) ->
  sort_by (fun a b => directed desc (cmp a b)) (rev l) =
  sort_by (fun a b => directed desc (cmp a b)) l.
Proof.
  intros Hopp Htr Hnt. apply sort_by_rev_no_ties.
  - by apply directed_opp.
  - by apply directed_le_trans.
  - intros a b Ha Hb Hab. apply directed_eq in Hab. by apply Hnt.
Qed.

Lemma sublist_In {A} (l1 l2 : list A) (x : A) : sublist l1 l2 -> In x l1 -> In x l2.
Proof.
  intros Hs. induction Hs as [|y l1 l2 Hs IH|y l1 l2 Hs IH]; cbn; [done|tauto|tauto].
Qed.

Section QueryStability.

Variable to_lowercase : string -> string.
Variable parse_rfc3339 : string -> option Z.
Variable profile : Profile.

Lemma apply_filters_sublist m fo (images kept : list ImagePath) :
  apply_filters to_lowercase profile m fo images = Some kept -> sublist kept images.
Proof.
  intros Hf. unfold apply_filters in Hf. destruct fo as [f|]; [|injection Hf as <-; done].
  destruct (category_filter_spec m (fo_category_id f)) as [P1 H1].
  destruct (name_filter_spec to_lowercase (fo_name_pattern f) (fo_name_operator f)) as [P2 H2].
  destruct (size_filter_spec profile (fo_size_operator f) (fo_size_value f) (fo_size_value2 f))
    as [H3|[P3 H3]]; rewrite ?H3 in Hf; [discriminate|].
  injection Hf as <-. rewrite H2, H1.
  etrans; [apply List_filter_sublist|]. etrans; [apply List_filter_sublist|].
  apply List_filter_sublist.
Qed.

(** ** C3 (as amended): [descending] sorts stably with the reversed
    comparator. For every sort key, the descending result is the reverse of
    the ascending result computed on the reversed input. In either direction
    the records with equal sort values (ties under the key's comparator)
    come out in the order they had in the input. For the four sort keys, when
    no two different input records tie, the descending result is exactly the
    reverse of the ascending one. *)
Theorem sort_images_descending_is_reversed_ascending (images : list ImagePath)
    (sort_option : string) (image_categories : list (string * list CategoryAssignment))
    (filter_options : option FilterOptions) :
  let key_cmp : ImagePath -> ImagePath -> comparison :=
    if String.eqb sort_option "name" then cmp_name to_lowercase
    else if String.eqb sort_option "size" then cmp_size
    else if String.eqb sort_option "dateCreated" then cmp_date_created parse_rfc3339
    else cmp_last_categorized parse_rfc3339 (collect_map image_categories) in
  let tied (x y : ImagePath) : bool := match key_cmp x y with Eq => true | _ => false end in
  sort_images to_lowercase parse_rfc3339 profile images sort_option "descending"
    image_categories filter_options =
  match sort_images to_lowercase parse_rfc3339 profile (rev images) sort_option "ascending"
          image_categories filter_options with
  | Some (Ok v) => Some (Ok (rev v))
  | r => r
  end /\
  (forall (sort_direction : string) (out : list ImagePath),
     sort_images to_lowercase parse_rfc3339 profile images sort_option sort_direction
       image_categories filter_options = Some (Ok out) ->
     exists kept,
       apply_filters to_lowercase profile (collect_map image_categories) filter_options images
         = Some kept /\
       sublist kept images /\
       forall x, List.filter (tied x) out = List.filter (tied x) kept) /\
  (In sort_option ["name"; "size"; "dateCreated"; "lastCategorized"] ->
   (forall a b, In a images -> In b images -> key_cmp a b = Eq -> a = b) ->
   forall out : list ImagePath,
     sort_images to_lowercase parse_rfc3339 profile images sort_option "ascending"
       image_categories filter_options = Some (Ok out) ->
     sort_images to_lowercase parse_rfc3339 profile images sort_option "descending"
       image_categories filter_options = Some (Ok (rev out))).
Proof.
  intros key_cmp tied. split_and!.
  - unfold sort_images. rewrite apply_filters_rev.
    destruct (apply_filters _ _ _ _ images) as [l|]; cbn; [|done].
    by rewrite sort_step_descending.
  - intros sd out Hrun. apply sort_images_run in Hrun as (f & Hf & ->).
    exists f. split_and!; [done|by eapply apply_filters_sublist|].
    intros x. subst tied key_cmp. unfold sort_step.
    destruct (String.eqb sort_option "name").
    { apply sort_by_directed_filter_tied; [apply cmp_name_opp | apply cmp_name_le_trans]. }
    destruct (String.eqb sort_option "size").
    { apply sort_by_directed_filter_tied; [apply cmp_size_opp | apply cmp_size_le_trans]. }
    destruct (String.eqb sort_option "dateCreated").
    { apply sort_by_directed_filter_tied;
        [apply cmp_date_created_opp | apply cmp_date_created_le_trans]. }
    destruct (String.eqb sort_option "lastCategorized"); [|done].
    apply sort_by_directed_filter_tied;
      [apply cmp_last_categorized_opp | apply cmp_last_categorized_le_trans].
  - intros Hin Hnt out Hrun. apply sort_images_run in Hrun as (f & Hf & ->).
    unfold sort_images. rewrite Hf. cbn [option_map]. rewrite sort_step_descending.
    assert (Hntf : forall a b, In a f -> In b f -> key_cmp a b = Eq -> a = b).
    { apply apply_filters_sublist in Hf.
      intros a b Ha Hb. apply Hnt; by eapply sublist_In. }
    clear Hnt Hf. subst tied key_cmp. unfold sort_step.
    destruct (String.eqb sort_option "name") eqn:E1.
    { by rewrite sort_by_directed_rev_no_ties by (apply cmp_name_opp || apply cmp_name_le_trans || done). }
    destruct (String.eqb sort_option "size") eqn:E2.
    { by rewrite sort_by_directed_rev_no_ties by (apply cmp_size_opp || apply cmp_size_le_trans || done). }
    destruct (String.eqb sort_option "dateCreated") eqn:E3.
    { by rewrite sort_by_directed_rev_no_ties
        by (apply cmp_date_created_opp || apply cmp_date_created_le_trans || done). }
    destruct (String.eqb sort_option "lastCategorized") eqn:E4.
    { by rewrite sort_by_directed_rev_no_ties
        by (apply cmp_last_categorized_opp || apply cmp_last_categorized_le_trans || done). }
    exfalso. cbn in Hin.
    destruct Hin as [<-|[<-|[<-|[<-|[]]]]]; discriminate.
Qed.

End QueryStability.

Lemma digits_value_nonneg (s : string) (acc v : Z) :
  0 <= acc -> digits_value s acc = Some v -> 0 <= v.
Proof.
  revert acc; induction s as [|c s IH]; intros acc Hacc; cbn; [congruence|].
  destruct (is_digit c) eqn:Hd; [|discriminate].
  apply IH. unfold is_digit in Hd. apply andb_prop in Hd as [H1 _].
  apply Nat.leb_le in H1. unfold digit_val. lia.
Qed.

Lemma parse_u64_range (s : string) (v : Z) :
  parse_u64 s = Some v -> s <> "" /\ 0 <= v <= U64_MAX.
Proof.
  unfold parse_u64. intros H. split; [by intros ->|].
  destruct (match s with String "+" (String c t) => String c t | _ => s end); [discriminate|].
  destruct (digits_value _ 0) as [w|] eqn:Hw; [|discriminate].
  destruct (Z.leb w U64_MAX) eqn:Hle; [|discriminate]. injection H as <-.
  apply Z.leb_le in Hle. split; [|done]. by eapply digits_value_nonneg; [|exact Hw].
Qed.

Lemma mul_u64_1024 (profile : Profile) (kb : Z) :
  0 <= kb -> kb * 1024 <= U64_MAX -> mul_u64 profile kb 1024 = Some (kb * 1024).
Proof.
  intros H0 H1. unfold mul_u64. destruct profile.
  - by rewrite (proj2 (Z.leb_le _ _) H1).
  - rewrite Z.mod_small; [done|]. unfold U64_MAX in H1. lia.
Qed.

Lemma Z_directed_le (desc : bool) (x y : Z) :
  directed desc (Z.compare x y) <> Gt -> if desc then y <= x else x <= y.
Proof.
  unfold directed. destruct desc.
  - rewrite <- Z.compare_antisym. apply Z.compare_le_iff.
  - apply Z.compare_le_iff.
Qed.

Lemma string_directed_le (desc : bool) (x y : string) :
  directed desc (String.compare x y) <> Gt ->
  if desc then String.compare y x <> Gt else String.compare x y <> Gt.
Proof. unfold directed. destruct desc; [|done]. rewrite (string_compare_opp y x), CompOpp_involutive. done. Qed.

(** ** Extra: [sort_images] only drops and reorders. The output is a
    permutation of a sub-list of the input (records kept in input order
    before sorting), and of the whole input when no filter is given. *)
Theorem sort_images_reorders_sublist (to_lowercase : string -> string)
    (parse_rfc3339 : string -> option Z) (profile : Profile) (images : list ImagePath)
    (sort_option sort_direction : string)
    (image_categories : list (string * list CategoryAssignment))
    (filter_options : option FilterOptions) (out : list ImagePath) :
  sort_images to_lowercase parse_rfc3339 profile images sort_option sort_direction
    image_categories filter_options = Some (Ok out) ->
  exists kept, sublist kept images /\ Permutation out kept /\
    (filter_options = None -> kept = images).
Proof.
  intros Hrun. apply sort_images_run in Hrun as (filtered & Hf & ->).
  exists filtered. split_and!; [| apply sort_step_Permutation |].
  - unfold apply_filters in Hf. destruct filter_options as [f|]; [|by injection Hf as <-].
    destruct (category_filter_spec (collect_map image_categories) (fo_category_id f)) as [P1 H1].
    destruct (name_filter_spec to_lowercase (fo_name_pattern f) (fo_name_operator f)) as [P2 H2].
    destruct (size_filter_spec profile (fo_size_operator f) (fo_size_value f) (fo_size_value2 f))
      as [H3|[P3 H3]]; rewrite ?H3 in Hf; [discriminate|].
    injection Hf as <-. rewrite H2, H1.
    etrans; [apply List_filter_sublist|]. etrans; [apply List_filter_sublist|].
    apply List_filter_sublist.
  - intros ->. cbn in Hf. by injection Hf as <-.
Qed.

(** ** Extra: re-sorting is a no-op. Sorting the output of [sort_images]
    again, with the same key, direction and categories and no filter, returns
    it unchanged. *)
Theorem sort_images_resort_noop (to_lowercase : string -> string)
    (parse_rfc3339 : string -> option Z) (profile : Profile) (images : list ImagePath)
    (sort_option sort_direction : string)
    (image_categories : list (string * list CategoryAssignment))
    (filter_options : option FilterOptions) (out : list ImagePath) :
  sort_images to_lowercase parse_rfc3339 profile images sort_option sort_direction
    image_categories filter_options = Some (Ok out) ->
  sort_images to_lowercase parse_rfc3339 profile out sort_option sort_direction
    image_categories None = Some (Ok out).
Proof.
  intros Hrun. apply sort_images_run in Hrun as (filtered & _ & ->).
  unfold sort_images; cbn. by rewrite sort_step_idempotent.
Qed.

(** ** Extra: the three clauses of a filter act independently. A record is
    in the output of a query with category, name and size clauses exactly
    when it is in the output of each of the three single-clause queries. *)
Theorem sort_images_clauses_conjoin (to_lowercase : string -> string)
    (parse_rfc3339 : string -> option Z) (profile : Profile) (images : list ImagePath)
    (sort_option sort_direction : string)
    (image_categories : list (string * list CategoryAssignment))
    (c np no szo sv sv2 : option string) (out : list ImagePath) :
  sort_images to_lowercase parse_rfc3339 profile images sort_option sort_direction
    image_categories (Some (mkFilterOptions c np no szo sv sv2)) = Some (Ok out) ->
  exists out_c out_n out_s,
    sort_images to_lowercase parse_rfc3339 profile images sort_option sort_direction
      image_categories (Some (mkFilterOptions c None None None None None)) = Some (Ok out_c) /\
    sort_images to_lowercase parse_rfc3339 profile images sort_option sort_direction
      image_categories (Some (mkFilterOptions None np no None None None)) = Some (Ok out_n) /\
    sort_images to_lowercase parse_rfc3339 profile images sort_option sort_direction
      image_categories (Some (mkFilterOptions None None None szo sv sv2)) = Some (Ok out_s) /\
    forall img, In img out <-> In img out_c /\ In img out_n /\ In img out_s.
Proof.
  unfold sort_images, apply_filters; cbn.
  set (m := collect_map image_categories).
  destruct (category_filter_spec m c) as [P1 H1].
  destruct (name_filter_spec to_lowercase np no) as [P2 H2].
  destruct (size_filter_spec profile szo sv sv2) as [H3|[P3 H3]]; rewrite !H3; [discriminate|].
  intros [= <-].
  assert (Hc0 : forall l, category_filter m None l = l) by done.
  assert (Hn0 : forall l, name_filter to_lowercase None None l = l) by done.
  assert (Hs0 : forall l, size_filter profile None None None l = Some l) by done.
  rewrite ?Hs0, ?Hn0, ?Hc0.
  do 3 eexists. split_and!; [reflexivity..|].
  intros img. rewrite !sort_step_In, !H2, !H1, !List.filter_In. naive_solver.
Qed.

(** ** Extra: records without a parseable creation date go last under
    [dateCreated] ascending (any direction other than ["descending"]), and
    first under ["descending"]. *)
Theorem sort_images_undated_placement (to_lowercase : string -> string)
    (parse_rfc3339 : string -> option Z) (profile : Profile) (images : list ImagePath)
    (sort_direction : string) (image_categories : list (string * list CategoryAssignment))
    (filter_options : option FilterOptions) (out : list ImagePath) :
  sort_images to_lowercase parse_rfc3339 profile images "dateCreated" sort_direction
    image_categories filter_options = Some (Ok out) ->
  let dated img := match date_created parse_rfc3339 img with Some _ => true | None => false end in
  if String.eqb sort_direction "descending"
  then out = (List.filter (fun img => negb (dated img)) out ++ List.filter dated out)%list
  else out = (List.filter dated out ++ List.filter (fun img => negb (dated img)) out)%list.
Proof.
  intros Hrun dated. apply sort_images_run in Hrun as (filtered & _ & ->).
  unfold sort_step; cbn.
  pose proof (sort_by_StronglySorted
    (fun a b => directed (String.eqb sort_direction "descending") (cmp_date_created parse_rfc3339 a b))
    (directed_opp _ _ (cmp_date_created_opp parse_rfc3339))
    (directed_le_trans _ _ (cmp_date_created_opp parse_rfc3339)
       (cmp_date_created_le_trans parse_rfc3339)) filtered) as Hs.
  destruct (String.eqb sort_direction "descending").
  - apply (StronglySorted_partition _ (fun img => negb (dated img))) in Hs.
    + rewrite Hs at 1. f_equal. apply List.filter_ext. intros x. by destruct (dated x).
    + intros a b. unfold directed, cmp_date_created, dated.
      destruct (date_created parse_rfc3339 a), (date_created parse_rfc3339 b); cbn; done.
  - apply (StronglySorted_partition _ dated) in Hs; [done|].
    intros a b. unfold directed, cmp_date_created, dated.
    destruct (date_created parse_rfc3339 a), (date_created parse_rfc3339 b); cbn; done.
Qed.

(** ** Extra: the output is ordered by the sort key: the lower-cased file
    name under [name], the size (missing as 0) under [size], the latest
    assignment time under [lastCategorized]; non-decreasing unless the
    direction is ["descending"], then non-increasing. *)
Theorem sort_images_ordered_by_key (to_lowercase : string -> string)
    (parse_rfc3339 : string -> option Z) (profile : Profile) (images : list ImagePath)
    (sort_direction : string) (image_categories : list (string * list CategoryAssignment))
    (filter_options : option FilterOptions) (out : list ImagePath) :
  (sort_images to_lowercase parse_rfc3339 profile images "name" sort_direction
     image_categories filter_options = Some (Ok out) ->
   StronglySorted (fun a b =>
     if String.eqb sort_direction "descending"
     then String.compare (sort_name to_lowercase b) (sort_name to_lowercase a) <> Gt
     else String.compare (sort_name to_lowercase a) (sort_name to_lowercase b) <> Gt) out) /\
  (sort_images to_lowercase parse_rfc3339 profile images "size" sort_direction
     image_categories filter_options = Some (Ok out) ->
   StronglySorted (fun a b =>
     if String.eqb sort_direction "descending" then img_size b <= img_size a
     else img_size a <= img_size b) out) /\
  (sort_images to_lowercase parse_rfc3339 profile images "lastCategorized" sort_direction
     image_categories filter_options = Some (Ok out) ->
   StronglySorted (fun a b =>
     let ka := get_latest_assignment parse_rfc3339 (collect_map image_categories) (path a) in
     let kb := get_latest_assignment parse_rfc3339 (collect_map image_categories) (path b) in
     if String.eqb sort_direction "descending" then kb <= ka else ka <= kb) out).
Proof.
  split_and!; intros Hrun; apply sort_images_run in Hrun as (filtered & _ & ->);
    unfold sort_step; cbn.
  - eapply StronglySorted_weaken; [intros a b; apply string_directed_le|].
    apply sort_by_StronglySorted;
      [apply directed_opp, cmp_name_opp
      | apply directed_le_trans; [apply cmp_name_opp | apply cmp_name_le_trans]].
  - eapply StronglySorted_weaken; [intros a b; apply Z_directed_le|].
    apply sort_by_StronglySorted;
      [apply directed_opp, cmp_size_opp
      | apply directed_le_trans; [apply cmp_size_opp | apply cmp_size_le_trans]].
  - eapply StronglySorted_weaken; [intros a b; apply Z_directed_le|].
    apply sort_by_StronglySorted;
      [apply directed_opp, cmp_last_categorized_opp
      | apply directed_le_trans; [apply cmp_last_categorized_opp | apply cmp_last_categorized_le_trans]].
Qed.

(** ** Extra: the size clause, when the thresholds do not overflow. For a
    threshold [sv] parsing to [kb] kilobytes with [kb * 1024 <= u64::MAX], in
    either build: ["lessThan"] keeps exactly the records smaller than
    [kb * 1024] bytes, ["largerThan"] (also an absent or unknown operator)
    exactly the larger ones, and ["between"] with a second such threshold
    [kb2] exactly the records from the smaller to the larger bound, both
    included. A record without a size counts as 0 bytes. *)
Theorem sort_images_size_clause (to_lowercase : string -> string)
    (parse_rfc3339 : string -> option Z) (profile : Profile) (images : list ImagePath)
    (sort_option sort_direction : string)
    (image_categories : list (string * list CategoryAssignment)) (sv : string) (kb : Z) :
  parse_u64 sv = Some kb -> kb * 1024 <= U64_MAX ->
  (exists out,
     sort_images to_lowercase parse_rfc3339 profile images sort_option sort_direction
       image_categories (Some (mkFilterOptions None None None (Some "lessThan") (Some sv) None))
       = Some (Ok out) /\
     forall img, In img out <-> In img images /\ img_size img < kb * 1024) /\
  (forall szo, (szo = None \/ exists o, szo = Some o /\ o <> "lessThan" /\ o <> "between") ->
   exists out,
     sort_images to_lowercase parse_rfc3339 profile images sort_option sort_direction
       image_categories (Some (mkFilterOptions None None None szo (Some sv) None)) = Some (Ok out) /\
     forall img, In img out <-> In img images /\ kb * 1024 < img_size img) /\
  (forall sv2 kb2, parse_u64 sv2 = Some kb2 -> kb2 * 1024 <= U64_MAX ->
   exists out,
     sort_images to_lowercase parse_rfc3339 profile images sort_option sort_direction
       image_categories (Some (mkFilterOptions None None None (Some "between") (Some sv) (Some sv2)))
       = Some (Ok out) /\
     forall img, In img out <-> In img images /\
       Z.min (kb * 1024) (kb2 * 1024) <= img_size img <= Z.max (kb * 1024) (kb2 * 1024)).
Proof.
  intros Hp Hb. destruct (parse_u64_range _ _ Hp) as [Hne [Hkb _]].
  pose proof (mul_u64_1024 profile kb Hkb Hb) as Hm.
  assert (Hsv : String.eqb sv "" = false) by (apply String.eqb_neq; done).
  unfold sort_images, apply_filters, size_filter; cbn.
  rewrite Hsv, Hp, Hm. split_and!.
  - cbn. eexists; split; [reflexivity|]. intros img.
    rewrite sort_step_In, List.filter_In. by rewrite Z.ltb_lt.
  - intros szo Hszo.
    assert (Hop : String.eqb (default "largerThan" szo) "lessThan" = false /\
                  String.eqb (default "largerThan" szo) "between" = false).
    { destruct Hszo as [->|(o & -> & H1 & H2)]; cbn; [done|].
      split; by apply String.eqb_neq. }
    destruct Hop as [-> ->].
    eexists; split; [reflexivity|]. intros img.
    rewrite sort_step_In, List.filter_In. by rewrite Z.ltb_lt.
  - intros sv2 kb2 Hp2 Hb2. destruct (parse_u64_range _ _ Hp2) as [Hne2 [Hkb2 _]].
    assert (Hsv2 : String.eqb sv2 "" = false) by (apply String.eqb_neq; done).
    cbn. rewrite Hsv2, Hp2, (mul_u64_1024 profile kb2 Hkb2 Hb2).
    eexists; split; [reflexivity|]. intros img.
    rewrite sort_step_In, List.filter_In, andb_true_iff, !Z.leb_le. done.
Qed.

(** * Further properties of the config store *)

Ltac run_world :=
  unfold save_data_file_path, save_app_data, update_app_data_sync, load_app_data,
    get_data_file_path, get_app_data_path, with_lock, current_data, read_config,
    read_config_at, write_config, lift, emit, set_config in *;
  unfold mbind, M_bind, mret, M_ret in *; cbn in *.

Ltac map_err_oks :=
  repeat match goal with H : map_err _ _ = Ok _ |- _ => apply map_err_ok in H end.

Ltac close_trace :=
  lazymatch goal with
  | |- exists evs, ?T = (?tr ++ evs)%list /\ _ =>
      first [ exists []; rewrite app_nil_r; split; [reflexivity|]
            | eexists; split; [rewrite <- ?app_assoc; reflexivity|] ]
  end; cbn.

Ltac not_in_concrete :=
  let Hin := fresh "Hin" in
  intros Hin; repeat (apply elem_of_cons in Hin as [Hin|Hin]; [discriminate|]);
  by apply elem_of_nil in Hin.

Section StoreMore.
Local Open Scope list_scope.

Variable from_json : string -> result AppData string.
Variable to_json : AppData -> result string string.

(** ** Extra: the readers never write. [load_app_data] and
    [get_data_file_path] leave [app-config.json] as it is and add to the
    trace nothing, or a lock and an unlock, or a lock, one read and an
    unlock. When the app-data directory resolves, the mutex is sound and the
    file does not exist, they return [AppData::default()] and [None]. *)
Theorem store_readers_never_write (app_data_path directory : string) (w : World) :
  (let '(r, w') := load_app_data from_json w in
   w_config w' = w_config w /\
   (exists evs, w_trace w' = w_trace w ++ evs /\
      (evs = [] \/ evs = [EvLock; EvUnlock] \/ evs = [EvLock; EvRead; EvUnlock])) /\
   (w_app_data_dir_error w = None -> w_create_dir_error w = None -> w_lock_poisoned w = None ->
    w_config w = None -> r = Ok AppData_default)) /\
  (let '(r, w') := get_data_file_path from_json app_data_path directory w in
   w_config w' = w_config w /\
   (exists evs, w_trace w' = w_trace w ++ evs /\
      (evs = [] \/ evs = [EvLock; EvUnlock] \/ evs = [EvLock; EvRead; EvUnlock])) /\
   (w_app_data_dir_error w = None -> w_create_dir_error w = None -> w_lock_poisoned w = None ->
    w_config w = None -> r = Ok None)).
Proof.
  destruct w as [a b l c r wr tr]. split; run_world;
    repeat case_match; simplify_eq/=;
    (split; [done|]); (split; [close_trace; naive_solver|]); naive_solver.
Qed.

Lemma update_app_data_sync_ok (update_fn : AppData -> result AppData string) (w w' : World) :
  update_app_data_sync from_json to_json update_fn w = (Ok tt, w') ->
  exists d d' s, loads from_json w d /\ update_fn d = Ok d' /\ to_json d' = Ok s /\
    w_config w' = Some s /\
    w_app_data_dir_error w' = w_app_data_dir_error w /\
    w_create_dir_error w' = w_create_dir_error w /\
    w_lock_poisoned w' = w_lock_poisoned w /\
    w_read_error w' = w_read_error w /\ w_write_error w' = w_write_error w.
Proof.
  intros Hrun. destruct w as [a b l c r wr tr]. run_world.
  repeat case_match; simplify_eq/=; map_err_oks.
  - do 3 eexists. split_and!; [|eassumption|eassumption|done..].
    unfold loads; cbn; naive_solver.
  - do 3 eexists. split_and!; [|eassumption|eassumption|done..].
    unfold loads; cbn; naive_solver.
Qed.

Lemma loads_functional (w : World) (d e : AppData) :
  loads from_json w d -> loads from_json w e -> d = e.
Proof.
  intros (_ & _ & _ & [[Hc ->] | (c & Hc & _ & Hj)]) (_ & _ & _ & [[Hc' ->] | (c' & Hc' & _ & Hj')]);
    congruence.
Qed.

Lemma loads_load_app_data (w : World) (d : AppData) :
  loads from_json w d -> (load_app_data from_json w).1 = Ok d.
Proof.
  destruct w as [a b l c r wr tr].
  intros (Ha & Hb & Hl & [[Hc ->] | (c' & Hc & Hr & Hj)]); cbn in *; subst; run_world.
  - done.
  - rewrite Hj. done.
Qed.

Lemma loads_get_data_file_path (app_data_path directory : string) (w : World) (d : AppData) :
  loads from_json w d ->
  (get_data_file_path from_json app_data_path directory w).1 =
  Ok (match data_file_paths d with Some paths => paths !! directory | None => None end).
Proof.
  destruct w as [a b l c r wr tr].
  intros (Ha & Hb & Hl & [[Hc ->] | (c' & Hc & Hr & Hj)]); cbn in *; subst; run_world.
  - done.
  - rewrite Hj. done.
Qed.

(** ** Extra: the lock brackets every access to [app-config.json].
    [update_app_data_sync], [load_app_data] and [get_data_file_path] add to
    the trace either nothing, and then they fail, or a lock, then reads and
    writes with no lock or unlock among them, then an unlock. *)
Theorem store_commands_lock_bracket (update_fn : AppData -> result AppData string)
    (app_data_path directory : string) (w : World) :
  let bracketed (failed : bool) (w1 : World) :=
    exists evs, w_trace w1 = w_trace w ++ evs /\
      ((evs = [] /\ failed = true) \/
       exists body, evs = EvLock :: body ++ [EvUnlock] /\ (EvLock ∉ body) /\ (EvUnlock ∉ body)) in
  bracketed (is_err (update_app_data_sync from_json to_json update_fn w).1)
            (update_app_data_sync from_json to_json update_fn w).2 /\
  bracketed (is_err (load_app_data from_json w).1) (load_app_data from_json w).2 /\
  bracketed (is_err (get_data_file_path from_json app_data_path directory w).1)
            (get_data_file_path from_json app_data_path directory w).2.
Proof.
  intros bracketed. subst bracketed. destruct w as [a b l c r wr tr].
  split_and!; run_world; repeat case_match; simplify_eq/=; close_trace;
    first [ left; split; reflexivity
          | right;
            match goal with |- exists body, EvLock :: ?l = _ /\ _ => exists (removelast l) end;
            split; [reflexivity|]; split; not_in_concrete ].
Qed.

Hypothesis json_roundtrip : forall d s, to_json d = Ok s -> from_json s = Ok d.

Lemma update_app_data_sync_reloads (update_fn : AppData -> result AppData string) (w w' : World) :
  update_app_data_sync from_json to_json update_fn w = (Ok tt, w') ->
  w_read_error w = None ->
  exists d d', loads from_json w d /\ update_fn d = Ok d' /\ loads from_json w' d'.
Proof.
  intros Hrun Hr.
  destruct (update_app_data_sync_ok _ _ _ Hrun)
    as (d & d' & s & Hl & Hf & Hs & Hc & Ha & Hb & Hp & Hr' & _).
  exists d, d'. split_and!; [done|done|].
  destruct Hl as (Ha0 & Hb0 & Hp0 & _).
  unfold loads. rewrite Ha, Hb, Hp. split_and!; [done..|].
  right. exists s. split_and!; [done|congruence|auto].
Qed.

Lemma update_app_data_sync_chain (f g : AppData -> result AppData string) (w w1 w2 : World) :
  update_app_data_sync from_json to_json f w = (Ok tt, w1) ->
  update_app_data_sync from_json to_json g w1 = (Ok tt, w2) ->
  exists d d1 d2 s, loads from_json w d /\ f d = Ok d1 /\ g d1 = Ok d2 /\
    to_json d2 = Ok s /\ w_config w2 = Some s.
Proof.
  intros H1 H2.
  destruct (update_app_data_sync_ok _ _ _ H1)
    as (d & d1 & s1 & Hl & Hf & Hs1 & Hc1 & _).
  destruct (update_app_data_sync_ok _ _ _ H2)
    as (e & d2 & s2 & Hl1 & Hg & Hs2 & Hc2 & _).
  assert (e = d1) as ->.
  { destruct Hl1 as (_ & _ & _ & [[Hc _] | (c & Hc & _ & Hj)]); [congruence|].
    rewrite Hc1 in Hc. injection Hc as <-. apply json_roundtrip in Hs1. congruence. }
  exists d, d1, d2, s2. done.
Qed.

(** ** Extra: [save_data_file_path] then [get_data_file_path]. When the
    serializer's output parses back to the same value and the file can be
    read, a successful save of [directory -> data_file_path] makes
    [get_data_file_path] return [Some data_file_path] for [directory], and
    every other directory keeps the answer it had before the save. *)
Theorem save_then_get_data_file_path (app_data_path directory data_file_path other : string)
    (w w' : World) :
  save_data_file_path from_json to_json directory data_file_path w = (Ok tt, w') ->
  w_read_error w = None ->
  (get_data_file_path from_json app_data_path directory w').1 = Ok (Some data_file_path) /\
  (other <> directory ->
   (get_data_file_path from_json app_data_path other w').1 =
   (get_data_file_path from_json app_data_path other w).1).
Proof.
  intros Hrun Hr.
  destruct (update_app_data_sync_reloads _ _ _ Hrun Hr) as (d & d' & Hl & Hf & Hl').
  injection Hf as <-.
  rewrite !(loads_get_data_file_path _ _ _ _ Hl'), (loads_get_data_file_path _ _ _ _ Hl); cbn.
  split.
  - by rewrite lookup_insert_eq.
  - intros Hne. rewrite lookup_insert_ne by congruence.
    destruct (data_file_paths d); cbn; [done|]. by rewrite lookup_empty.
Qed.

(** ** Extra: [save_app_data] then [load_app_data]. When the serializer's
    output parses back and the file can be read, after a successful save
    [load_app_data] returns the saved categories and hotkeys with the
    directory mapping that was loaded before the save. *)
Theorem save_then_load_app_data (cats : list CategoryData) (hks : list HotkeyData)
    (w w' : World) :
  save_app_data from_json to_json cats hks w = (Ok tt, w') ->
  w_read_error w = None ->
  exists d, (load_app_data from_json w).1 = Ok d /\
    (load_app_data from_json w').1 = Ok (mkAppData cats hks (data_file_paths d)).
Proof.
  intros Hrun Hr.
  destruct (update_app_data_sync_reloads _ _ _ Hrun Hr) as (d & d' & Hl & Hf & Hl').
  injection Hf as <-. exists d.
  by rewrite (loads_load_app_data _ _ Hl), (loads_load_app_data _ _ Hl').
Qed.

Lemma save_data_file_path_reloads (directory data_file_path : string) (w w' : World) :
  save_data_file_path from_json to_json directory data_file_path w = (Ok tt, w') ->
  w_read_error w = None ->
  exists d, loads from_json w d /\
    loads from_json w' (mkAppData (categories d) (hotkeys d)
      (Some (<[directory := data_file_path]> (default ∅ (data_file_paths d))))) /\
    w_read_error w' = None.
Proof.
  intros Hrun Hr.
  destruct (update_app_data_sync_reloads _ _ _ Hrun Hr) as (d & d' & Hl & Hf & Hl').
  injection Hf as <-. exists d. split_and!; [done|done|].
  destruct (update_app_data_sync_ok _ _ _ Hrun) as (? & ? & ? & _ & _ & _ & _ & _ & _ & _ & Hr' & _).
  congruence.
Qed.

(** ** Extra: saves of directory mappings compose like map inserts. When the
    serializer's output parses back and the file can be read, two successful
    saves for different directories make [get_data_file_path] give the same
    answer for every directory in either order, and saving the same mapping
    twice gives the answers the first save gave. (The text of the file may
    differ between the orders: the JSON object's key order is the map's
    iteration order, which the statement does not fix.) *)
Theorem save_data_file_path_commute_idem (app_data_path dir1 dir2 p1 p2 other : string)
    (w w1 w12 w2 w21 : World) :
  w_read_error w = None ->
  save_data_file_path from_json to_json dir1 p1 w = (Ok tt, w1) ->
  (save_data_file_path from_json to_json dir2 p2 w1 = (Ok tt, w12) ->
   save_data_file_path from_json to_json dir2 p2 w = (Ok tt, w2) ->
   save_data_file_path from_json to_json dir1 p1 w2 = (Ok tt, w21) ->
   dir1 <> dir2 ->
   (get_data_file_path from_json app_data_path other w12).1 =
   (get_data_file_path from_json app_data_path other w21).1) /\
  (save_data_file_path from_json to_json dir1 p1 w1 = (Ok tt, w12) ->
   (get_data_file_path from_json app_data_path other w12).1 =
   (get_data_file_path from_json app_data_path other w1).1).
Proof.
  intros Hr H1. split.
  - intros H12 H2 H21 Hne.
    destruct (save_data_file_path_reloads _ _ _ _ H1 Hr) as (d & Hl & Hl1 & Hr1).
    destruct (save_data_file_path_reloads _ _ _ _ H12 Hr1) as (d1 & Hl1' & Hl12 & _).
    destruct (save_data_file_path_reloads _ _ _ _ H2 Hr) as (e & Hle & Hl2 & Hr2).
    destruct (save_data_file_path_reloads _ _ _ _ H21 Hr2) as (e2 & Hl2' & Hl21 & _).
    rewrite (loads_get_data_file_path _ _ _ _ Hl12), (loads_get_data_file_path _ _ _ _ Hl21).
    rewrite <- (loads_functional _ _ _ Hl1 Hl1'), <- (loads_functional _ _ _ Hl2 Hl2').
    rewrite <- (loads_functional _ _ _ Hl Hle). cbn.
    rewrite insert_insert_ne by congruence. done.
  - intros H11.
    destruct (save_data_file_path_reloads _ _ _ _ H1 Hr) as (d & Hl & Hl1 & Hr1).
    destruct (save_data_file_path_reloads _ _ _ _ H11 Hr1) as (d1 & Hl1' & Hl11 & _).
    rewrite (loads_get_data_file_path _ _ _ _ Hl11), (loads_get_data_file_path _ _ _ _ Hl1).
    rewrite <- (loads_functional _ _ _ Hl1 Hl1'). cbn.
    rewrite insert_insert_eq. done.
Qed.

End StoreMore.

(** * The per-directory [.hito.json] file *)

Lemma sapp_nil_l (t : string) : "" ++ t = t.
Proof. reflexivity. Qed.

Lemma sapp_cons (c : ascii) (s t : string) : String c s ++ t = String c (s ++ t).
Proof. reflexivity. Qed.

Lemma sapp_assoc (a b c : string) : (a ++ b) ++ c = a ++ (b ++ c).
Proof. induction a; rewrite ?sapp_nil_l, ?sapp_cons; congruence. Qed.

Lemma sapp_nil_r (a : string) : a ++ "" = a.
Proof. induction a; rewrite ?sapp_nil_l, ?sapp_cons; congruence. Qed.

Lemma str_rev_app (a b : string) : str_rev (a ++ b) = str_rev b ++ str_rev a.
Proof.
  induction a as [|c a IH]; rewrite ?sapp_nil_l, ?sapp_cons; cbn [str_rev].
  - by rewrite sapp_nil_r.
  - rewrite IH, sapp_assoc. done.
Qed.

Lemma str_rev_involutive (s : string) : str_rev (str_rev s) = s.
Proof.
  induction s as [|c s IH]; cbn [str_rev]; [done|].
  rewrite str_rev_app, IH. done.
Qed.

Lemma ends_with_slash (base : string) :
  ends_with base "/" = true -> exists b, base = b ++ "/".
Proof.
  unfold ends_with. change (str_rev "/") with "/". intros H.
  rewrite <- (str_rev_involutive base).
  destruct (str_rev base) as [|c s]; [discriminate|].
  cbn [starts_with] in H. try apply andb_true_iff in H as [H _]. apply Ascii.eqb_eq in H as <-.
  exists (str_rev s). reflexivity.
Qed.

Lemma starts_with_nil (s : string) : starts_with s "" = true.
Proof. destruct s; reflexivity. Qed.

Lemma split_slash_plain (f cur : string) :
  contains f "/" = false -> split_slash f cur = cons (cur ++ f) nil.
Proof.
  revert cur; induction f as [|c f IH]; intros cur H; cbn; [by rewrite sapp_nil_r|].
  cbn [contains starts_with] in H. apply orb_false_iff in H as [H1 H2]. rewrite starts_with_nil, andb_true_r in H1.
  rewrite Ascii.eqb_sym, H1, IH by done. rewrite sapp_assoc. done.
Qed.

Lemma split_slash_sep (s f cur : string) :
  exists pre, split_slash (s ++ String "/" f) cur = (pre ++ split_slash f "")%list.
Proof.
  revert cur; induction s as [|c s IH]; intros cur;
    rewrite ?sapp_nil_l, ?sapp_cons; cbn [split_slash].
  - exists [cur]. done.
  - destruct (Ascii.eqb c "/").
    + destruct (IH "") as [pre ->]. exists (cur :: pre). done.
    + apply IH.
Qed.

Lemma file_name_last (pre : list string) (f : string) :
  f <> "" -> f <> "." -> f <> ".." ->
  match last (List.filter (fun c => negb (String.eqb c "" || String.eqb c ".")) (pre ++ [f])%list) with
  | Some c => if String.eqb c ".." then None else Some c
  | None => None
  end = Some f.
Proof.
  intros H1 H2 H3. rewrite List.filter_app. cbn.
  apply String.eqb_neq in H1, H2, H3. rewrite H1, H2. cbn.
  rewrite last_snoc, H3. done.
Qed.

Lemma file_name_of_plain (s f : string) :
  contains f "/" = false -> f <> "" -> f <> "." -> f <> ".." ->
  file_name f = Some f /\ file_name (s ++ String "/" f) = Some f.
Proof.
  intros Hs H1 H2 H3. unfold file_name, path_components. split.
  - rewrite split_slash_plain by done. apply (file_name_last []); done.
  - destruct (split_slash_sep s f "") as [pre ->].
    rewrite split_slash_plain by done. apply file_name_last; done.
Qed.

Lemma file_name_path_join (base f : string) :
  contains f "/" = false -> f <> "" -> f <> "." -> f <> ".." ->
  file_name (path_join base f) = Some f.
Proof.
  intros Hs H1 H2 H3.
  destruct (file_name_of_plain base f Hs H1 H2 H3) as [Hf Hj].
  unfold path_join.
  assert (starts_with f "/" = false) as ->.
  { destruct f as [|c f']; [done|]. cbn [contains starts_with] in Hs |- *.
    apply orb_false_iff in Hs as [Hs _]. done. }
  destruct (String.eqb base "") eqn:Hb; cbn.
  - apply String.eqb_eq in Hb as ->. done.
  - destruct (ends_with base "/") eqn:He; cbn; [|done].
    destruct (ends_with_slash base He) as [b ->].
    rewrite sapp_assoc. cbn. destruct (file_name_of_plain b f Hs H1 H2 H3) as [_ Hb']. done.
Qed.

(** ** Extra: [get_hito_file_path] names the file directly in the
    directory. Whatever the directory, the last component of the path is the
    given file name, or [.hito.json] when none is given, provided the name is
    a plain one: not empty, without a slash, and neither [.] nor [..]. *)
Theorem get_hito_file_path_file_name (directory : string) (filename : option string) :
  (match filename with
   | Some n => contains n "/" = false /\ n <> "" /\ n <> "." /\ n <> ".."
   | None => True
   end) ->
  file_name (get_hito_file_path directory filename) = Some (default ".hito.json" filename).
Proof.
  unfold get_hito_file_path. destruct filename as [n|]; cbn [default].
  - intros (Hs & H1 & H2 & H3). by apply file_name_path_join.
  - intros _. apply file_name_path_join; [reflexivity|discriminate..].
Qed.

Section HitoMore.

Variable hito_from_json : string -> result HitoFile string.
Variable hito_to_json : HitoFile -> result string string.

(** ** Extra: [save_hito_config] then [load_hito_config]. After a
    successful save, loading from any directory and file name whose path
    names the saved file returns the saved categories, when the serializer's
    output parses back and that path can be checked and read. Whether the
    save succeeds or fails, loading from a path that names another file
    returns what it returned before. *)
Theorem save_then_load_hito_config (directory : string)
    (image_categories : list (string * list CategoryAssignment)) (filename : option string)
    (directory' : string) (filename' : option string) (w w' : HitoWorld) (r : result unit string) :
  save_hito_config hito_to_json directory image_categories filename w = (r, w') ->
  (r = Ok tt ->
   (forall d s, hito_to_json d = Ok s -> hito_from_json s = Ok d) ->
   hw_stat_fails w (get_hito_file_path directory' filename') = false ->
   hw_read_error w (get_hito_file_path directory' filename') = None ->
   hw_resolve w (get_hito_file_path directory' filename') =
   hw_resolve w (get_hito_file_path directory filename) ->
   load_hito_config hito_from_json directory' filename' w' = Ok (mkHitoFile image_categories)) /\
  (hw_resolve w (get_hito_file_path directory' filename') <>
   hw_resolve w (get_hito_file_path directory filename) ->
   load_hito_config hito_from_json directory' filename' w' =
   load_hito_config hito_from_json directory' filename' w).
Proof.
  unfold save_hito_config, load_hito_config, hw_existing.
  destruct (hito_to_json (mkHitoFile image_categories)) as [s|e] eqn:Hs.
  2:{ intros [= <- <-]. split; [discriminate|done]. }
  destruct (hw_write_error w (get_hito_file_path directory filename)) as [[e [n|]]|] eqn:Hw.
  - intros [= <- <-]. split; [discriminate|]. intros Hne.
    unfold hw_set_files; cbn [hw_files hw_stat_fails hw_resolve hw_read_error].
    rewrite lookup_insert_ne by congruence. done.
  - intros [= <- <-]. split; [discriminate|done].
  - intros [= <- <-]. unfold hw_set_files; cbn [hw_files hw_stat_fails hw_resolve hw_read_error].
    split.
    + intros _ Hrt Hst Hr Hres. rewrite Hst, Hres, lookup_insert_eq, Hr, (Hrt _ _ Hs). done.
    + intros Hne. rewrite lookup_insert_ne by congruence. done.
Qed.

End HitoMore.

(** * The file commands *)

Lemma list_ascii_of_string_app (a b : string) :
  list_ascii_of_string (a ++ b) = (list_ascii_of_string a ++ list_ascii_of_string b)%list.
Proof. induction a as [|c a IH]; rewrite ?sapp_nil_l, ?sapp_cons; cbn; congruence. Qed.

Lemma contains_char (s : string) (x : ascii) :
  contains s (String x "") = existsb (Ascii.eqb x) (list_ascii_of_string s).
Proof.
  induction s as [|c s IH]; [reflexivity|].
  cbn [contains starts_with list_ascii_of_string existsb].
  rewrite starts_with_nil, andb_true_r, IH. done.
Qed.

Lemma split_slash_no_sep (s cur : string) :
  contains cur "/" = false -> Forall (fun x => contains x "/" = false) (split_slash s cur).
Proof.
  revert cur; induction s as [|c s IH]; intros cur Hc; cbn [split_slash].
  - by constructor.
  - destruct (Ascii.eqb c "/") eqn:Ec.
    + constructor; [done|]. apply IH. reflexivity.
    + apply IH. rewrite contains_char, list_ascii_of_string_app, existsb_app.
      rewrite contains_char in Hc. rewrite Hc. cbn [existsb list_ascii_of_string]. rewrite Ascii.eqb_sym, Ec. done.
Qed.

Lemma file_name_normal (p f : string) :
  file_name p = Some f ->
  contains f "/" = false /\ f <> "" /\ f <> "." /\ f <> "..".
Proof.
  unfold file_name, path_components.
  destruct (last _) as [c|] eqn:Hl; [|discriminate].
  destruct (String.eqb c "..") eqn:Hdd; [discriminate|]. intros [= <-].
  apply last_Some_elem_of, list_elem_of_In, List.filter_In in Hl as [Hin Hp].
  apply negb_true_iff, orb_false_iff in Hp as [He Hd].
  apply String.eqb_neq in He, Hd, Hdd.
  pose proof (split_slash_no_sep p "" eq_refl) as Hall.
  rewrite List.Forall_forall in Hall. split_and!; auto.
Qed.

Lemma transfer_target_ok (image_path destination_dir : string) (w : FsWorld) (dest : string) :
  transfer_target image_path destination_dir w = Ok dest ->
  fs_is_file w image_path = true /\ fs_is_dir w destination_dir = true /\
  exists f, file_name image_path = Some f /\ dest = path_join destination_dir f.
Proof.
  unfold transfer_target.
  destruct (fs_exists w image_path), (fs_is_file w image_path),
    (fs_exists w destination_dir), (fs_is_dir w destination_dir); cbn; try discriminate.
  destruct (file_name image_path) as [f|]; [|discriminate]. intros [= <-]. eauto.
Qed.

Lemma transfer_target_file_name (image_path destination_dir : string) (w : FsWorld) (dest : string) :
  transfer_target image_path destination_dir w = Ok dest ->
  file_name dest = file_name image_path /\ is_Some (file_name image_path).
Proof.
  intros (_ & _ & f & Hf & ->)%transfer_target_ok.
  rewrite Hf. destruct (file_name_normal _ _ Hf) as (Hs & H1 & H2 & H3).
  split; [by apply file_name_path_join | eauto].
Qed.

Section FileCommands.
Local Open Scope list_scope.

(** ** Extra: the file commands touch only the image and a same-named
    destination, after their checks. [delete_image], [copy_image] and
    [move_image] append to the calls made so far nothing unless the image is
    an existing file (and, for copy and move, the destination an existing
    directory). Delete only trashes the image. Every copy or rename reads the
    image and writes a path whose file name is the image's, and a removal
    removes only the image. *)
Theorem file_commands_touch_only_targets (pl : Platform) (image_path destination_dir : string)
    (w : FsWorld) :
  let target_op (op : FsOp) :=
    match op with
    | FsCopy src dst | FsRename src dst =>
        src = image_path /\ file_name dst = file_name image_path /\ is_Some (file_name image_path)
    | FsRemoveFile p => p = image_path
    | FsTrash _ => False
    end in
  (exists ops, fw_trace (delete_image image_path w).2 = fw_trace w ++ ops /\
     (ops <> [] -> fs_is_file w image_path = true) /\ Forall (fun op => op = FsTrash image_path) ops) /\
  (exists ops, fw_trace (copy_image image_path destination_dir w).2 = fw_trace w ++ ops /\
     (ops <> [] -> fs_is_file w image_path = true /\ fs_is_dir w destination_dir = true) /\
     Forall target_op ops) /\
  (exists ops, fw_trace (move_image pl image_path destination_dir w).2 = fw_trace w ++ ops /\
     (ops <> [] -> fs_is_file w image_path = true /\ fs_is_dir w destination_dir = true) /\
     Forall target_op ops).
Proof.
  intros target_op. split_and!.
  - unfold delete_image.
    destruct (fs_exists w image_path) eqn:He; cbn [negb];
      [|exists []; rewrite app_nil_r; split_and!; [done|done|constructor]].
    destruct (fs_is_file w image_path) eqn:Hf; cbn [negb];
      [|exists []; rewrite app_nil_r; split_and!; [done|done|constructor]].
    unfold perform. exists [FsTrash image_path].
    destruct (fw_outcome w (FsTrash image_path)); cbn;
      (split_and!; [done|done|by repeat constructor]).
  - unfold copy_image.
    destruct (transfer_target image_path destination_dir w) as [dest|e] eqn:Ht;
      [|exists []; rewrite app_nil_r; split_and!; [done|done|constructor]].
    pose proof (transfer_target_ok _ _ _ _ Ht) as (Hf & Hd & _).
    pose proof (transfer_target_file_name _ _ _ _ Ht) as [Hn Hs].
    unfold perform. exists [FsCopy image_path dest].
    destruct (fw_outcome w (FsCopy image_path dest)); cbn;
      (split_and!; [done|done|repeat constructor; done]).
  - unfold move_image.
    destruct (transfer_target image_path destination_dir w) as [dest|e] eqn:Ht;
      [|exists []; rewrite app_nil_r; split_and!; [done|done|constructor]].
    pose proof (transfer_target_ok _ _ _ _ Ht) as (Hf & Hd & _).
    pose proof (transfer_target_file_name _ _ _ _ Ht) as [Hn Hs].
    unfold perform; cbn [fw_outcome fw_trace fw_metadata].
    destruct (fw_outcome w (FsRename image_path dest)) as [[]|e1]; cbn.
    { exists [FsRename image_path dest]. split_and!; [done|done|repeat constructor; done]. }
    destruct (is_cross_device pl e1); cbn.
    2:{ exists [FsRename image_path dest]. split_and!; [done|done|repeat constructor; done]. }
    destruct (fw_outcome w (FsCopy image_path dest)) as [[]|e2]; cbn.
    + exists [FsRename image_path dest; FsCopy image_path dest; FsRemoveFile image_path].
      destruct (fw_outcome w (FsRemoveFile image_path)); cbn;
        (split_and!; [by rewrite <- !app_assoc|done|repeat constructor; done]).
    + exists [FsRename image_path dest; FsCopy image_path dest].
      split_and!; [by rewrite <- !app_assoc|done|repeat constructor; done].
Qed.

(** ** Extra: [move_image] removes the source only after copying it. The
    source is removed only when the rename failed with the platform's
    cross-device error and the copy to the same destination succeeded; and
    [Ok] means the rename succeeded, or the copy and the removal both did. *)
Theorem move_image_removes_only_after_copy (pl : Platform) (image_path destination_dir : string)
    (w : FsWorld) :
  let '(r, w') := move_image pl image_path destination_dir w in
  exists ops, fw_trace w' = fw_trace w ++ ops /\
    (forall p, FsRemoveFile p ∈ ops ->
     exists dest e, transfer_target image_path destination_dir w = Ok dest /\
       ops = [FsRename image_path dest; FsCopy image_path dest; FsRemoveFile image_path] /\
       fw_outcome w (FsRename image_path dest) = Err e /\ is_cross_device pl e = true /\
       fw_outcome w (FsCopy image_path dest) = Ok tt) /\
    (r = Ok tt ->
     exists dest, transfer_target image_path destination_dir w = Ok dest /\
       (fw_outcome w (FsRename image_path dest) = Ok tt \/
        (fw_outcome w (FsCopy image_path dest) = Ok tt /\
         fw_outcome w (FsRemoveFile image_path) = Ok tt))).
Proof.
  unfold move_image.
  destruct (transfer_target image_path destination_dir w) as [dest|e] eqn:Ht.
  2:{ exists []. rewrite app_nil_r. split_and!; [done| |discriminate].
      intros p Hin. by apply elem_of_nil in Hin. }
  unfold perform; cbn [fw_outcome fw_trace fw_metadata].
  destruct (fw_outcome w (FsRename image_path dest)) as [[]|e1] eqn:Hr; cbn.
  { exists [FsRename image_path dest]. split_and!; [done| |eauto].
    intros p Hin. apply elem_of_cons in Hin as [Hin|Hin]; [discriminate|by apply elem_of_nil in Hin]. }
  destruct (is_cross_device pl e1) eqn:Hx; cbn.
  2:{ exists [FsRename image_path dest]. split_and!; [done| |discriminate].
      intros p Hin. apply elem_of_cons in Hin as [Hin|Hin]; [discriminate|by apply elem_of_nil in Hin]. }
  destruct (fw_outcome w (FsCopy image_path dest)) as [[]|e2] eqn:Hc; cbn.
  - destruct (fw_outcome w (FsRemoveFile image_path)) as [[]|e3] eqn:Hd; cbn;
      exists [FsRename image_path dest; FsCopy image_path dest; FsRemoveFile image_path];
      (split_and!; [by rewrite <- !app_assoc| intros; eauto 10 |]); [eauto|discriminate].
  - exists [FsRename image_path dest; FsCopy image_path dest].
    split_and!; [by rewrite <- !app_assoc| |discriminate].
    intros p Hin. repeat (apply elem_of_cons in Hin as [Hin|Hin]; [discriminate|]).
    by apply elem_of_nil in Hin.
Qed.

End FileCommands.

(** * Directory listing and image loading *)

Ltac entry_leaf ds is :=
  exists ds, is; split; [by rewrite ?app_nil_r|];
  split; intros ?; try setoid_rewrite list_elem_of_singleton;
  try setoid_rewrite elem_of_nil; (split;
  [ naive_solver
  | intros ?; repeat match goal with H : ex _ |- _ => destruct H end; destruct_and!; simplify_eq;
    repeat match goal with
      | H1 : de_metadata ?e = Some _, H2 : de_metadata ?e = Some _ |- _ =>
          rewrite H1 in H2; simplify_eq
      end; first [congruence | naive_solver] ]).

Section ListingProofs.
Local Open Scope list_scope.

Variable to_lowercase : string -> string.
Variable timestamp_to_rfc3339 : Z -> Z -> option string.

Lemma list_entry_spec (dir : string) (acc : list DirectoryPath * list ImagePath)
    (x : result DirEntry string) :
  exists ds is, list_entry to_lowercase timestamp_to_rfc3339 dir acc x = (acc.1 ++ ds, acc.2 ++ is) /\
  (forall d, d ∈ ds <->
     exists e m, Ok e ∈ [x] /\ de_metadata e = Some m /\ md_is_dir m = true /\
       utf8_valid (path_join dir (de_file_name e)) = true /\
       d = mkDirectoryPath (path_join dir (de_file_name e)) None
             (created_at_of timestamp_to_rfc3339 (md_created m))) /\
  (forall img, img ∈ is <->
     exists e m ext, Ok e ∈ [x] /\ de_metadata e = Some m /\ md_is_file m = true /\
       extension (path_join dir (de_file_name e)) = Some ext /\
       is_image_extension to_lowercase ext = true /\
       utf8_valid (path_join dir (de_file_name e)) = true /\
       img = mkImagePath (path_join dir (de_file_name e)) (Some (md_len m))
               (created_at_of timestamp_to_rfc3339 (md_created m))).
Proof.
  destruct acc as [a1 a2]. destruct x as [e|err]; cbn [fst snd].
  2:{ entry_leaf (@nil DirectoryPath) (@nil ImagePath). }
  unfold list_entry.
  destruct (de_metadata e) as [m|] eqn:Hm.
  2:{ cbn. entry_leaf (@nil DirectoryPath) (@nil ImagePath). }
  cbn [is_dir_md is_file_md fst snd].
  destruct (md_is_dir m) eqn:Hd.
  { assert (md_is_file m = false) by (unfold md_is_dir, md_is_file in *; by destruct (md_file_type m)).
    destruct (utf8_valid (path_join dir (de_file_name e))) eqn:Hu.
    - entry_leaf [mkDirectoryPath (path_join dir (de_file_name e)) None
                   (created_at_of timestamp_to_rfc3339 (md_created m))] (@nil ImagePath).
    - entry_leaf (@nil DirectoryPath) (@nil ImagePath). }
  destruct (md_is_file m) eqn:Hf.
  2:{ entry_leaf (@nil DirectoryPath) (@nil ImagePath). }
  destruct (extension (path_join dir (de_file_name e))) as [ext|] eqn:Hx.
  2:{ entry_leaf (@nil DirectoryPath) (@nil ImagePath). }
  destruct (is_image_extension to_lowercase ext) eqn:Hi.
  2:{ entry_leaf (@nil DirectoryPath) (@nil ImagePath). }
  destruct (utf8_valid (path_join dir (de_file_name e))) eqn:Hu.
  - entry_leaf (@nil DirectoryPath)
      [mkImagePath (path_join dir (de_file_name e)) (Some (md_len m))
         (created_at_of timestamp_to_rfc3339 (md_created m))].
  - entry_leaf (@nil DirectoryPath) (@nil ImagePath).
Qed.

Lemma foldl_list_entry_spec (dir : string) (entries : list (result DirEntry string))
    (acc : list DirectoryPath * list ImagePath) :
  exists ds is, foldl (list_entry to_lowercase timestamp_to_rfc3339 dir) acc entries =
    (acc.1 ++ ds, acc.2 ++ is) /\
  (forall d, d ∈ ds <->
     exists e m, Ok e ∈ entries /\ de_metadata e = Some m /\ md_is_dir m = true /\
       utf8_valid (path_join dir (de_file_name e)) = true /\
       d = mkDirectoryPath (path_join dir (de_file_name e)) None
             (created_at_of timestamp_to_rfc3339 (md_created m))) /\
  (forall img, img ∈ is <->
     exists e m ext, Ok e ∈ entries /\ de_metadata e = Some m /\ md_is_file m = true /\
       extension (path_join dir (de_file_name e)) = Some ext /\
       is_image_extension to_lowercase ext = true /\
       utf8_valid (path_join dir (de_file_name e)) = true /\
       img = mkImagePath (path_join dir (de_file_name e)) (Some (md_len m))
               (created_at_of timestamp_to_rfc3339 (md_created m))).
Proof.
  revert acc; induction entries as [|x entries IH]; intros acc; cbn [foldl].
  { exists [], []. split; [destruct acc; by rewrite !app_nil_r|].
    split; intros ?; (split; [by intros ?%elem_of_nil|]);
      [intros (? & ? & Hin & _) | intros (? & ? & ? & Hin & _)]; by apply elem_of_nil in Hin. }
  destruct (list_entry_spec dir acc x) as (ds1 & is1 & Hx & Hd1 & Hi1).
  rewrite Hx.
  destruct (IH (acc.1 ++ ds1, acc.2 ++ is1)) as (ds2 & is2 & Hf & Hd2 & Hi2).
  exists (ds1 ++ ds2), (is1 ++ is2). rewrite Hf. cbn [fst snd]. rewrite <- !app_assoc.
  split; [done|]. split.
  - intros d. rewrite elem_of_app, Hd1, Hd2. split.
    + intros [(e & m & Hin & H) | (e & m & Hin & H)]; exists e, m; (split; [|exact H]);
        rewrite elem_of_cons; [left; by apply list_elem_of_singleton|by right].
    + intros (e & m & Hin & H). apply elem_of_cons in Hin as [Hin|Hin]; [left|right];
        exists e, m; (split; [|exact H]); [by apply list_elem_of_singleton|done].
  - intros img. rewrite elem_of_app, Hi1, Hi2. split.
    + intros [(e & m & ext & Hin & H) | (e & m & ext & Hin & H)]; exists e, m, ext;
        (split; [|exact H]);
        rewrite elem_of_cons; [left; by apply list_elem_of_singleton|by right].
    + intros (e & m & ext & Hin & H). apply elem_of_cons in Hin as [Hin|Hin]; [left|right];
        exists e, m, ext; (split; [|exact H]); [by apply list_elem_of_singleton|done].
Qed.

(** ** Extra: what [list_images] returns. On a directory whose entries
    are read, the result lists, sorted by path, every subdirectory entry with
    a UTF-8 path (no size) and every regular-file entry with a UTF-8 path and
    one of the eight image extensions in any case (its size from the
    metadata); entries that fail to read and all other entries are left out. *)
Theorem list_images_contents (dir : string) (path_metadata : option Metadata)
    (entries : list (result DirEntry string)) (dc : DirectoryContents) :
  list_images to_lowercase timestamp_to_rfc3339 dir path_metadata (Ok entries) = Ok dc ->
  is_dir_md path_metadata = true /\
  StronglySorted (fun a b => String.compare (dp_path a) (dp_path b) <> Gt) (directories dc) /\
  StronglySorted (fun a b => String.compare (path a) (path b) <> Gt) (images dc) /\
  (forall d, d ∈ directories dc <->
     exists e m, Ok e ∈ entries /\ de_metadata e = Some m /\ md_is_dir m = true /\
       utf8_valid (path_join dir (de_file_name e)) = true /\
       d = mkDirectoryPath (path_join dir (de_file_name e)) None
             (created_at_of timestamp_to_rfc3339 (md_created m))) /\
  (forall img, img ∈ images dc <->
     exists e m ext, Ok e ∈ entries /\ de_metadata e = Some m /\ md_is_file m = true /\
       extension (path_join dir (de_file_name e)) = Some ext /\
       existsb (String.eqb (to_lowercase ext)) image_extensions = true /\
       utf8_valid (path_join dir (de_file_name e)) = true /\
       img = mkImagePath (path_join dir (de_file_name e)) (Some (md_len m))
               (created_at_of timestamp_to_rfc3339 (md_created m))).
Proof.
  unfold list_images.
  destruct (exists_md path_metadata) eqn:He; cbn [negb]; [|discriminate].
  destruct (is_dir_md path_metadata) eqn:Hd; cbn [negb]; [|discriminate].
  destruct (foldl_list_entry_spec dir entries ([], [])) as (ds & is & Hf & Hds & His).
  rewrite Hf. cbn [fst snd app]. intros [= <-]. cbn [directories images].
  split_and!; [done| | | |].
  - apply sort_by_StronglySorted; unfold directory_path_cmp.
    + intros a b. apply string_compare_opp.
    + intros a b c. apply string_compare_le_trans.
  - apply sort_by_StronglySorted; unfold image_path_cmp.
    + intros a b. apply string_compare_opp.
    + intros a b c. apply string_compare_le_trans.
  - intros d. rewrite <- Hds, !list_elem_of_In.
    split; apply Permutation_in; [|symmetry]; apply sort_by_Permutation.
  - intros img. rewrite <- His, !list_elem_of_In.
    split; apply Permutation_in; [|symmetry]; apply sort_by_Permutation.
Qed.

Lemma list_images_member (dir : string) (path_metadata : option Metadata)
    (entries : list (result DirEntry string)) (dc : DirectoryContents) :
  list_images to_lowercase timestamp_to_rfc3339 dir path_metadata (Ok entries) = Ok dc ->
  (forall d, d ∈ directories dc ->
     exists e m, Ok e ∈ entries /\ de_metadata e = Some m /\ md_is_dir m = true /\
       utf8_valid (path_join dir (de_file_name e)) = true /\
       dp_path d = path_join dir (de_file_name e)) /\
  (forall img, img ∈ images dc ->
     exists e m ext, Ok e ∈ entries /\ de_metadata e = Some m /\ md_is_file m = true /\
       extension (path_join dir (de_file_name e)) = Some ext /\
       is_image_extension to_lowercase ext = true /\
       utf8_valid (path_join dir (de_file_name e)) = true /\
       path img = path_join dir (de_file_name e)).
Proof.
  unfold list_images.
  destruct (exists_md path_metadata); cbn [negb]; [|discriminate].
  destruct (is_dir_md path_metadata); cbn [negb]; [|discriminate].
  destruct (foldl_list_entry_spec dir entries ([], [])) as (ds & is & Hf & Hds & His).
  rewrite Hf. cbn [fst snd app]. intros [= <-]. cbn [directories images]. split.
  - intros d Hd. apply list_elem_of_In in Hd.
    eapply Permutation_in in Hd; [|apply sort_by_Permutation].
    apply list_elem_of_In, Hds in Hd as (e & m & H1 & H2 & H3 & H4 & ->).
    exists e, m. done.
  - intros img Hi. apply list_elem_of_In in Hi.
    eapply Permutation_in in Hi; [|apply sort_by_Permutation].
    apply list_elem_of_In, His in Hi as (e & m & ext & H1 & H2 & H3 & H4 & H5 & H6 & ->).
    exists e, m, ext. done.
Qed.

(** ** Extra: every image [list_images] returns has a MIME type of its
    own in [load_image]. Its path has an extension whose lowercase form is
    one of the eight image extensions, and [load_image] labels it with the
    MIME type of that extension, never with the fallback of an unknown one. *)
Theorem listed_image_mime_type (dir : string) (path_metadata : option Metadata)
    (entries : list (result DirEntry string)) (dc : DirectoryContents) (img : ImagePath) :
  list_images to_lowercase timestamp_to_rfc3339 dir path_metadata (Ok entries) = Ok dc ->
  img ∈ images dc ->
  exists ext, extension (path img) = Some ext /\
    In (to_lowercase ext, mime_type to_lowercase (path img))
      [("jpg", "image/jpeg"); ("jpeg", "image/jpeg"); ("png", "image/png");
       ("gif", "image/gif"); ("bmp", "image/bmp"); ("webp", "image/webp");
       ("svg", "image/svg+xml"); ("ico", "image/x-icon")].
Proof.
  intros Hl Hi.
  destruct (list_images_member _ _ _ _ Hl) as [_ Himg].
  destruct (Himg img Hi) as (e & m & ext & _ & _ & _ & Hx & Himage & _ & ->).
  exists ext. split; [done|].
  unfold mime_type. rewrite Hx.
  unfold is_image_extension in Himage. apply existsb_exists in Himage as (x & Hin & Heq).
  apply String.eqb_eq in Heq. rewrite Heq.
  cbn in Hin. destruct_or! Hin; subst x; cbn; tauto.
Qed.

End ListingProofs.

(** * The data URL of [load_image] *)

Lemma sapp_cancel_l (a x y : string) : a ++ x = a ++ y -> x = y.
Proof.
  induction a as [|c a IH]; rewrite ?sapp_nil_l, ?sapp_cons; [done|].
  intros [= H]. by apply IH.
Qed.

Lemma bytes_of_inj (s t : string) : bytes_of s = bytes_of t -> s = t.
Proof.
  unfold bytes_of. revert t; induction s as [|c s IH]; intros [|d t]; cbn; try done.
  intros [= Hcd Hst]. f_equal; [|by apply IH].
  apply Nat2Z.inj in Hcd.
  rewrite <- (ascii_nat_embedding c), <- (ascii_nat_embedding d), Hcd. done.
Qed.

Lemma bytes_of_range (s : string) : Forall (fun b => 0 <= b < 256) (bytes_of s).
Proof.
  unfold bytes_of. induction s as [|c s IH]; cbn; constructor; [|done].
  pose proof (nat_ascii_bounded c). lia.
Qed.

Lemma b64_digits_in (n : Z) : 0 <= n < 64 -> In n (map Z.of_nat (seq 0 64)).
Proof.
  intros Hn. apply in_map_iff. exists (Z.to_nat n).
  split; [lia|]. apply in_seq. lia.
Qed.

Lemma b64_char_inj (n m : Z) :
  0 <= n < 64 -> 0 <= m < 64 ->
  default "A"%char (String.get (Z.to_nat n) base64_alphabet) =
  default "A"%char (String.get (Z.to_nat m) base64_alphabet) -> n = m.
Proof.
  intros Hn%b64_digits_in Hm%b64_digits_in.
  assert (Hall : forallb (fun n => forallb (fun m =>
            implb (Ascii.eqb (default "A"%char (String.get (Z.to_nat n) base64_alphabet))
                             (default "A"%char (String.get (Z.to_nat m) base64_alphabet)))
                  (Z.eqb n m)) (map Z.of_nat (seq 0 64))) (map Z.of_nat (seq 0 64)) = true)
    by (vm_compute; reflexivity).
  rewrite forallb_forall in Hall. specialize (Hall n Hn).
  rewrite forallb_forall in Hall. specialize (Hall m Hm).
  intros Heq. rewrite Heq, Ascii.eqb_refl in Hall. cbn in Hall. by apply Z.eqb_eq.
Qed.

Lemma b64_char_not_pad (n : Z) :
  0 <= n < 64 -> default "A"%char (String.get (Z.to_nat n) base64_alphabet) <> "="%char.
Proof.
  intros Hn%b64_digits_in.
  assert (Hall : forallb (fun n =>
            negb (Ascii.eqb (default "A"%char (String.get (Z.to_nat n) base64_alphabet)) "="))
            (map Z.of_nat (seq 0 64)) = true)
    by (vm_compute; reflexivity).
  rewrite forallb_forall in Hall. specialize (Hall n Hn).
  intros Heq. rewrite Heq in Hall. done.
Qed.

Lemma b64_app_inj (x y : Z) (s t : string) :
  0 <= x < 64 -> 0 <= y < 64 -> b64 x ++ s = b64 y ++ t -> x = y /\ s = t.
Proof.
  intros Hx Hy. unfold b64. rewrite !sapp_cons, !sapp_nil_l.
  intros Heq. assert (Hc := f_equal (String.get 0) Heq). cbn in Hc.
  injection Hc as Hc. split; [by apply b64_char_inj|]. congruence.
Qed.

Lemma b64_app_pad (x : Z) (s t : string) :
  0 <= x < 64 -> b64 x ++ s <> String "=" t.
Proof.
  intros Hx. unfold b64. rewrite sapp_cons.
  intros Heq. assert (Hc := f_equal (String.get 0) Heq). cbn in Hc.
  injection Hc as Hc. by apply (b64_char_not_pad x).
Qed.

Ltac b64_peel :=
  repeat match goal with
  | H : String.append (b64 _) _ = String.append (b64 _) _ |- _ =>
      apply b64_app_inj in H as [? H]; [|Z.div_mod_to_equations; lia|Z.div_mod_to_equations; lia]
  | H : String "="%char _ = String.append (b64 _) _ |- _ => symmetry in H
  | H : String.append (b64 ?x) ?s = String "="%char ?t |- _ =>
      exfalso; refine (b64_app_pad x s t _ H); Z.div_mod_to_equations; lia
  end.

Lemma base64_encode_bytes_inj (n : nat) (l1 l2 : list Z) :
  (List.length l1 <= n)%nat ->
  Forall (fun b => 0 <= b < 256) l1 -> Forall (fun b => 0 <= b < 256) l2 ->
  base64_encode_bytes l1 = base64_encode_bytes l2 -> l1 = l2.
Proof.
  revert l1 l2; induction n as [|n IH]; intros l1 l2 Hlen H1 H2 Heq.
  - destruct l1; [|cbn in Hlen; lia].
    destruct l2 as [|a [|b [|c r]]]; [done| | |];
      cbn [base64_encode_bytes] in Heq; unfold b64 in Heq;
      rewrite ?sapp_cons in Heq; discriminate.
  - repeat match goal with H : Forall _ (_ :: _) |- _ => inversion H; clear H; subst end.
    destruct l1 as [|a [|b [|c r]]], l2 as [|a' [|b' [|c' r']]];
      cbn [base64_encode_bytes] in Heq; try done;
      try (unfold b64 in Heq; rewrite ?sapp_cons in Heq; discriminate);
      repeat match goal with H : Forall _ (_ :: _) |- _ => inversion H; clear H; subst end;
      b64_peel; try discriminate.
    all: repeat f_equal; try (Z.div_mod_to_equations; lia).
    apply IH; [cbn in Hlen; lia|done|done|done].
Qed.

(** ** Extra: the data URL of [load_image] determines the file. For the
    same image path and metadata, two contents that [load_image] turns into
    the same data URL are the same bytes: the MIME prefix is fixed by the
    path, and base64 with padding loses nothing. *)
Theorem load_image_data_url_injective (to_lowercase : string -> string) (image_path : string)
    (file_metadata : option Metadata) (data1 data2 url : string) :
  load_image to_lowercase image_path file_metadata (Ok data1) = Ok url ->
  load_image to_lowercase image_path file_metadata (Ok data2) = Ok url ->
  data1 = data2.
Proof.
  unfold load_image.
  destruct (exists_md file_metadata), (is_file_md file_metadata); cbn [negb]; try discriminate.
  intros [= H1] [= H2]. rewrite <- H2 in H1.
  apply sapp_cancel_l, sapp_cancel_l, sapp_cancel_l in H1.
  apply bytes_of_inj.
  apply (base64_encode_bytes_inj (List.length (bytes_of data1))); auto using bytes_of_range.
Qed.

(** * [get_parent_directory] of the listed paths *)

Section ParentProofs.
Local Open Scope list_scope.

Lemma parse_single_component_some (l : list ascii) :
  l <> [] -> l <> ["."%char] -> is_Some (parse_single_component l).
Proof.
  intros H1 H2. destruct l as [|a [|b [|c l]]]; cbn; try done.
  - destruct (Ascii.eqb a ".") eqn:E; [|eauto]. apply Ascii.eqb_eq in E. by subst.
  - destruct (Ascii.eqb a "." && Ascii.eqb b "."); eauto.
Qed.

Lemma take_until_sep_nosep (l : list ascii) :
  Forall (fun c => c <> "/"%char) l -> take_until_sep l = (l, false).
Proof.
  induction 1 as [|c l Hc Hl IH]; cbn; [done|].
  unfold is_sep_byte. destruct (Ascii.eqb c "/") eqn:E; [by apply Ascii.eqb_eq in E|].
  by rewrite IH.
Qed.

Lemma take_until_sep_sep (l r : list ascii) :
  Forall (fun c => c <> "/"%char) l -> take_until_sep (l ++ "/"%char :: r) = (l, true).
Proof.
  induction 1 as [|c l Hc Hl IH]; cbn; [done|].
  unfold is_sep_byte. destruct (Ascii.eqb c "/") eqn:E; [by apply Ascii.eqb_eq in E|].
  by rewrite IH.
Qed.

Lemma take_until_sep_cons (c : ascii) (l : list ascii) :
  c <> "/"%char -> take_until_sep (c :: l) = (c :: (take_until_sep l).1, (take_until_sep l).2).
Proof.
  intros Hc. cbn. unfold is_sep_byte.
  destruct (Ascii.eqb c "/") eqn:E; [by apply Ascii.eqb_eq in E|].
  by destruct (take_until_sep l).
Qed.

Lemma take_until_sep_fst_nil (l : list ascii) :
  (take_until_sep l).1 = [] -> l = [] \/ exists r, l = "/"%char :: r.
Proof.
  destruct l as [|c l]; [auto|]. cbn. unfold is_sep_byte.
  destruct (Ascii.eqb c "/") eqn:E.
  - apply Ascii.eqb_eq in E as ->. eauto.
  - by destruct (take_until_sep l).
Qed.

Lemma len_before_body_le (c : Components) : (len_before_body c <= 1)%nat.
Proof.
  unfold len_before_body, include_cur_dir.
  destruct (comp_has_physical_root c); cbn; [lia|].
  destruct (comp_path c) as [|d [|b l]]; cbn; [lia|..]; case_match; lia.
Qed.

Lemma next_back_join (D N : list ascii) (root : bool) :
  N <> [] -> N <> ["."%char] -> Forall (fun c => c <> "/"%char) N ->
  (D = [] -> root = true) ->
  next_back (mkComponents (D ++ "/"%char :: N) root StBody) =
  (parse_single_component N,
   mkComponents (match D with [] => ["/"%char] | _ => D end) root StBody).
Proof.
  intros HN1 HN2 HN HD.
  assert (Hlbb : (len_before_body (mkComponents (D ++ "/"%char :: N) root StBody) <= 1)%nat)
    by apply len_before_body_le.
  assert (HlenN : (1 <= List.length N)%nat) by (destruct N; [done|cbn; lia]).
  assert (HrN : Forall (fun c => c <> "/"%char) (rev N)) by (by apply Forall_rev).
  destruct (parse_single_component_some N HN1 HN2) as [comp Hcomp].
  unfold next_back. cbn [comp_path].
  replace (List.length (D ++ "/"%char :: N) + 3)%nat
    with (S (List.length (D ++ "/"%char :: N) + 2)) by lia.
  cbn [next_back_loop comp_back].
  rewrite (proj2 (Nat.ltb_lt _ _)).
  2:{ cbn [comp_path]. rewrite length_app. cbn [List.length]. lia. }
  unfold parse_next_component_back. cbn [comp_path].
  destruct D as [|d D'].
  - rewrite (HD eq_refl) in *.
    assert (Hl : len_before_body (mkComponents ([] ++ "/"%char :: N) true StBody) = 1%nat)
      by reflexivity.
    rewrite Hl. cbn [app drop]. rewrite drop_0.
    rewrite take_until_sep_nosep by done.
    rewrite rev_involutive, Hcomp, length_rev.
    unfold drop_back, set_comp_path. cbn [comp_path comp_has_physical_root comp_back].
    replace (List.length ("/"%char :: N) - (List.length N + 0))%nat with 1%nat by (cbn; lia).
    done.
  - rewrite drop_app_le by (cbn [List.length]; lia).
    rewrite rev_app_distr. cbn [rev]. rewrite <- app_assoc. cbn [app].
    rewrite take_until_sep_sep by done.
    rewrite rev_involutive, Hcomp, length_rev.
    unfold drop_back, set_comp_path. cbn [comp_path comp_has_physical_root comp_back].
    rewrite (app_comm_cons D' _ d), take_app_length'; [done|]. rewrite length_app. cbn [List.length]. lia.
Qed.

Lemma parse_single_component_none (l : list ascii) :
  parse_single_component l = None -> l = [] \/ l = ["."%char].
Proof.
  destruct l as [|a [|b [|c l]]]; cbn; [auto| |by case_match|done].
  destruct (Ascii.eqb a ".") eqn:E; [|done]. apply Ascii.eqb_eq in E as ->. auto.
Qed.

Lemma as_path_plain (D : list ascii) (root : bool) :
  D <> [] ->
  (forall r, rev D <> "/"%char :: r) ->
  (forall r, rev D <> "."%char :: "/"%char :: r) ->
  root = match D with d :: _ => is_sep_byte d | [] => false end ->
  as_path (mkComponents D root StBody) = D.
Proof.
  intros HD Hs Hd Hroot.
  unfold as_path. cbn [comp_back comp_path].
  destruct (List.length D) as [|n] eqn:EL; [by apply length_zero_iff_nil in EL|].
  cbn [trim_right_loop].
  set (c := mkComponents D root StBody).
  destruct (Nat.ltb (len_before_body c) (List.length (comp_path c))) eqn:Hlt; [|reflexivity].
  apply Nat.ltb_lt in Hlt.
  unfold parse_next_component_back.
  assert (Hsplit : D = take (len_before_body c) D ++ drop (len_before_body c) D)
    by (symmetry; apply take_drop).
  assert (Hlbb : (len_before_body c <= 1)%nat) by apply len_before_body_le.
  set (lbb := len_before_body c) in *.
  assert (Hpc : comp_path c = D) by reflexivity. rewrite Hpc in *.
  set (body := drop lbb D) in *.
  assert (Hbody : body <> []).
  { intros E. unfold body in E. apply (f_equal List.length) in E.
    rewrite length_drop in E. cbn [List.length] in E. lia. }
  assert (HrD : rev D = rev body ++ rev (take lbb D)).
  { rewrite Hsplit at 1. by rewrite rev_app_distr. }
  destruct (rev body) as [|cl rb] eqn:Erb.
  { apply (f_equal (@rev ascii)) in Erb. rewrite rev_involutive in Erb. done. }
  assert (Hcl : cl <> "/"%char).
  { intros ->. apply (Hs (rb ++ rev (take lbb D))). by rewrite HrD. }
  rewrite take_until_sep_cons by done.
  destruct (parse_single_component (rev (cl :: (take_until_sep rb).1))) eqn:Hp; [reflexivity|].
  exfalso.
  apply parse_single_component_none in Hp as [Hp|Hp].
  { cbn [rev] in Hp. by apply app_eq_nil in Hp as [_ ?]. }
  cbn [rev] in Hp. apply app_eq_unit in Hp as [[Ht Hcl']|[_ ?]]; [|done].
  injection Hcl' as ->.
  apply (f_equal (@rev ascii)) in Ht. rewrite rev_involutive in Ht. cbn in Ht.
  apply take_until_sep_fst_nil in Ht as [->| [r ->]].
  2:{ apply (Hd (r ++ rev (take lbb D))). by rewrite HrD. }
  assert (Erb' : body = ["."%char]).
  { apply (f_equal (@rev ascii)) in Erb. by rewrite rev_involutive in Erb. }
  assert (Hl : lbb = len_before_body (mkComponents D root StBody)) by reflexivity.
  assert (Htl : List.length (take lbb D) = lbb) by (rewrite length_take; lia).
  clearbody lbb body c. subst body.
  destruct (take lbb D) as [|x [|y t]]; cbn [List.length] in Htl; [| |lia].
  - subst lbb. cbn [app] in Hsplit. subst D. cbn in Hroot. subst root.
    vm_compute in Htl. lia.
  - subst lbb. cbn [app] in Hsplit. subst D.
    destruct (Ascii.eqb x "/") eqn:Ex.
    + apply Ascii.eqb_eq in Ex. subst x. by apply (Hd []).
    + unfold is_sep_byte in Hroot. rewrite Ex in Hroot. subst root.
      unfold len_before_body, include_cur_dir in Htl.
      cbn [comp_has_physical_root comp_path] in Htl. unfold is_sep_byte in Htl.
      change (Ascii.eqb "." "/") with false in Htl. rewrite andb_false_r in Htl. lia.
Qed.

Lemma starts_with_app (a b : string) : starts_with (a ++ b) a = true.
Proof.
  induction a as [|c a IH]; rewrite ?sapp_nil_l, ?sapp_cons.
  - apply starts_with_nil.
  - cbn [starts_with]. by rewrite Ascii.eqb_refl, IH.
Qed.

Lemma ends_with_app (s t : string) : ends_with (s ++ t) t = true.
Proof. unfold ends_with. rewrite str_rev_app. apply starts_with_app. Qed.

Lemma list_ascii_of_string_inj (s t : string) :
  list_ascii_of_string s = list_ascii_of_string t -> s = t.
Proof.
  intros H. by rewrite <- (string_of_list_ascii_of_string s), H, string_of_list_ascii_of_string.
Qed.

Lemma ends_with_rev (s t : string) :
  ends_with s t = false -> forall r, rev (list_ascii_of_string s) <> rev (list_ascii_of_string t) ++ r.
Proof.
  intros He r Hr. apply (f_equal (@rev ascii)) in Hr.
  rewrite rev_involutive, rev_app_distr, rev_involutive in Hr.
  assert (s = (string_of_list_ascii (rev r) ++ t)%string) as ->.
  { apply list_ascii_of_string_inj. by rewrite list_ascii_of_string_app,
      list_ascii_of_string_of_list_ascii. }
  by rewrite ends_with_app in He.
Qed.

Lemma contains_starts_with (s p : string) : contains s p = false -> starts_with s p = false.
Proof. destruct s; cbn [contains]; intros H; by apply orb_false_iff in H as [H _]. Qed.

Lemma contains_slash_forall (s : string) :
  contains s "/" = false -> Forall (fun c => c <> "/"%char) (list_ascii_of_string s).
Proof.
  rewrite contains_char. intros H. apply Forall_forall. intros c Hc ->.
  assert (existsb (Ascii.eqb "/") (list_ascii_of_string s) = true) as E.
  { apply existsb_exists. exists "/"%char. split; [by apply list_elem_of_In|].
    by rewrite Ascii.eqb_refl. }
  congruence.
Qed.

Lemma parse_single_component_kind (l : list ascii) :
  match parse_single_component l with
  | Some RootDir | Some CurDir => False
  | _ => True
  end.
Proof. destruct l as [|a [|b [|c l]]]; cbn; repeat case_match; done. Qed.

Lemma next_back_plain (N : list ascii) :
  N <> [] -> N <> ["."%char] -> Forall (fun c => c <> "/"%char) N ->
  next_back (mkComponents N false StBody) =
  (parse_single_component N, mkComponents [] false StBody).
Proof.
  intros HN1 HN2 HN.
  destruct (parse_single_component_some N HN1 HN2) as [comp Hcomp].
  assert (Hl : len_before_body (mkComponents N false StBody) = 0%nat).
  { unfold len_before_body, include_cur_dir. cbn [comp_has_physical_root comp_path].
    destruct N as [|a [|b l]]; [done| |].
    - destruct (Ascii.eqb a ".") eqn:E; [|done]. by apply Ascii.eqb_eq in E as ->.
    - apply Forall_cons in HN as [_ HN]. apply Forall_cons in HN as [Hb _].
      unfold is_sep_byte. destruct (Ascii.eqb b "/") eqn:E; [by apply Ascii.eqb_eq in E|].
      by rewrite andb_false_r. }
  unfold next_back. cbn [comp_path].
  replace (List.length N + 3)%nat with (S (List.length N + 2)) by lia.
  cbn [next_back_loop comp_back].
  rewrite Hl. rewrite (proj2 (Nat.ltb_lt _ _)) by (destruct N; [done|cbn; lia]).
  unfold parse_next_component_back. rewrite Hl. cbn [comp_path]. rewrite drop_0.
  rewrite take_until_sep_nosep by (by apply Forall_rev).
  rewrite rev_involutive, Hcomp, length_rev.
  unfold drop_back, set_comp_path. cbn [comp_path comp_has_physical_root comp_back].
  by rewrite Nat.add_0_r, Nat.sub_diag.
Qed.

Lemma path_parent_join (dir name : string) :
  contains name "/" = false -> name <> "" -> name <> "." ->
  (dir = "/" \/ (ends_with dir "/" = false /\ ends_with dir "/." = false)) ->
  path_parent (path_join dir name) = Some dir.
Proof.
  intros Hc Hn1 Hn2 Hdir.
  set (N := list_ascii_of_string name).
  assert (HN : Forall (fun c => c <> "/"%char) N) by (by apply contains_slash_forall).
  assert (HN1 : N <> []).
  { intros E. apply Hn1. by apply list_ascii_of_string_inj. }
  assert (HN2 : N <> ["."%char]).
  { intros E. apply Hn2. by apply list_ascii_of_string_inj. }
  assert (Hk := parse_single_component_kind N).
  destruct (parse_single_component_some N HN1 HN2) as [comp Hcomp].
  rewrite Hcomp in Hk.
  unfold path_join. rewrite (contains_starts_with _ _ Hc).
  destruct Hdir as [->|[He1 He2]].
  - change (negb (String.eqb "/" "") && negb (ends_with "/" "/")) with false. cbn iota.
    unfold path_parent, components. cbv zeta.
    rewrite list_ascii_of_string_app. fold N.
    change (list_ascii_of_string "/") with ["/"%char]. cbn [app].
    change (is_sep_byte "/") with true.
    pose proof (next_back_join [] N true HN1 HN2 HN (fun _ => eq_refl)) as Hb.
    cbn [app] in Hb. rewrite Hb.
    rewrite Hcomp. destruct comp; first [contradiction | reflexivity].
  - destruct (String.eqb dir "") eqn:Ed.
    + apply String.eqb_eq in Ed as ->. cbn [negb andb]. rewrite sapp_nil_l.
      unfold path_parent, components. cbv zeta. fold N.
      assert (Hr : match N with d :: _ => is_sep_byte d | [] => false end = false).
      { destruct N as [|d l]; [done|]. apply Forall_cons in HN as [Hd _].
        unfold is_sep_byte. destruct (Ascii.eqb d "/") eqn:E; [by apply Ascii.eqb_eq in E|done]. }
      rewrite Hr, next_back_plain by done.
      rewrite Hcomp. destruct comp; first [contradiction | reflexivity].
    + rewrite He1. cbn [negb andb]. 
      unfold path_parent, components. cbv zeta.
      rewrite !list_ascii_of_string_app. fold N.
      change (list_ascii_of_string "/") with ["/"%char]. cbn [app].
      set (D := list_ascii_of_string dir).
      assert (HD : D <> []).
      { intros E. apply String.eqb_neq in Ed. apply Ed. by apply list_ascii_of_string_inj. }
      rewrite (next_back_join D N) by (done || (intros ->; done)).
      destruct D as [|d D'] eqn:ED; [done|].
      rewrite as_path_plain.
      * rewrite Hcomp. rewrite <- ED. unfold D. rewrite string_of_list_ascii_of_string.
        destruct comp; first [contradiction | reflexivity].
      * done.
      * rewrite <- ED. apply (ends_with_rev dir "/"), He1.
      * rewrite <- ED. apply (ends_with_rev dir "/."), He2.
      * done.
Qed.

End ParentProofs.

Section ListedParents.
Local Open Scope list_scope.

Variable to_lowercase : string -> string.
Variable timestamp_to_rfc3339 : Z -> Z -> option string.

(** ** Extra: [get_parent_directory] of every path [list_images] returns
    is the listed directory itself. This holds when the entry names, as a
    directory listing gives them, contain no separator and are neither empty
    nor [.], and the directory is valid UTF-8 and is ["/"] or does not end in
    a separator or in ["/."]. *)
Theorem list_images_parent_directory (dir : string) (path_metadata : option Metadata)
    (entries : list (result DirEntry string)) (dc : DirectoryContents) :
  list_images to_lowercase timestamp_to_rfc3339 dir path_metadata (Ok entries) = Ok dc ->
  utf8_valid dir = true ->
  (dir = "/" \/ (ends_with dir "/" = false /\ ends_with dir "/." = false)) ->
  (forall e, Ok e ∈ entries ->
     contains (de_file_name e) "/" = false /\ de_file_name e <> "" /\ de_file_name e <> ".") ->
  (forall d, d ∈ directories dc -> get_parent_directory (dp_path d) = Ok dir) /\
  (forall img, img ∈ images dc -> get_parent_directory (path img) = Ok dir).
Proof.
  intros Hl Hu Hdir Hnames.
  destruct (list_images_member to_lowercase timestamp_to_rfc3339 _ _ _ _ Hl) as [Hds His].
  assert (Hp : forall e, Ok e ∈ entries ->
            get_parent_directory (path_join dir (de_file_name e)) = Ok dir).
  { intros e He. destruct (Hnames e He) as (H1 & H2 & H3).
    unfold get_parent_directory. rewrite path_parent_join by done. by rewrite Hu. }
  split.
  - intros d Hd. destruct (Hds d Hd) as (e & m & He & _ & _ & _ & ->). by apply Hp.
  - intros img Hi. destruct (His img Hi) as (e & m & ext & He & _ & _ & _ & _ & _ & ->).
    by apply Hp.
Qed.

End ListedParents.

(** * The further properties on concrete inputs *)

Lemma example_json_roundtrip (d : AppData) (s : string) :
  example_to_json d = Ok s -> example_from_json s = Ok d.
Proof.
  destruct d as [[|c cats] [|h hks] [m|]]; cbn; try discriminate.
  - case_decide; [|discriminate]. intros [= <-]. by subst m.
  - intros [= <-]. reflexivity.
Qed.

Lemma sort_images_reorders_sublist_witness :
  let a := mkImagePath "/photos/a.jpg" (Some 2048) (Some "2024-01-01T00:00:00Z") in
  let b := mkImagePath "/photos/b.png" (Some 4096) None in
  let fo := Some (mkFilterOptions None (Some "a") None None None None) in
  exists kept, sublist kept [b; a] /\ Permutation [a] kept /\ (fo = None -> kept = [b; a]).
Proof.
  intros a b fo.
  apply (sort_images_reorders_sublist ascii_to_lowercase chrono_parse_rfc3339 Debug [b; a]
           "name" "ascending" [] fo [a]).
  vm_compute. reflexivity.
Defined.

Lemma sort_images_resort_noop_witness :
  let a := mkImagePath "/photos/a.jpg" (Some 2048) (Some "2024-01-01T00:00:00Z") in
  let b := mkImagePath "/photos/b.png" (Some 4096) None in
  sort_images ascii_to_lowercase chrono_parse_rfc3339 Debug [b; a] "size" "descending" [] None
    = Some (Ok [b; a]).
Proof.
  intros a b.
  apply (sort_images_resort_noop ascii_to_lowercase chrono_parse_rfc3339 Debug [a; b]
           "size" "descending" [] (Some (mkFilterOptions None None None None (Some "1") None))).
  vm_compute. reflexivity.
Defined.

Lemma sort_images_clauses_conjoin_witness :
  let a := mkImagePath "/photos/a.jpg" (Some 2048) (Some "2024-01-01T00:00:00Z") in
  let b := mkImagePath "/photos/b.png" (Some 4096) None in
  let ics := [("/photos/a.jpg", [mkCategoryAssignment "c1" "2024-01-01T00:00:00Z"])] in
  exists out_c out_n out_s,
    sort_images ascii_to_lowercase chrono_parse_rfc3339 Debug [b; a] "name" "ascending" ics
      (Some (mkFilterOptions (Some "c1") None None None None None)) = Some (Ok out_c) /\
    sort_images ascii_to_lowercase chrono_parse_rfc3339 Debug [b; a] "name" "ascending" ics
      (Some (mkFilterOptions None (Some "a") None None None None)) = Some (Ok out_n) /\
    sort_images ascii_to_lowercase chrono_parse_rfc3339 Debug [b; a] "name" "ascending" ics
      (Some (mkFilterOptions None None None None None None)) = Some (Ok out_s) /\
    forall img, In img [a] <-> In img out_c /\ In img out_n /\ In img out_s.
Proof.
  intros a b ics.
  apply (sort_images_clauses_conjoin ascii_to_lowercase chrono_parse_rfc3339 Debug [b; a]
           "name" "ascending" ics (Some "c1") (Some "a") None None None None [a]).
  vm_compute. reflexivity.
Defined.

Lemma sort_images_undated_placement_witness :
  let a := mkImagePath "/photos/a.jpg" (Some 2048) (Some "2024-01-01T00:00:00Z") in
  let b := mkImagePath "/photos/b.png" (Some 4096) None in
  let dated img := match date_created chrono_parse_rfc3339 img with Some _ => true | None => false end in
  [a; b] = (List.filter dated [a; b] ++ List.filter (fun img => negb (dated img)) [a; b])%list.
Proof.
  intros a b dated.
  exact (sort_images_undated_placement ascii_to_lowercase chrono_parse_rfc3339 Debug [b; a]
           "ascending" [] None [a; b] eq_refl).
Defined.

Lemma sort_images_size_clause_witness :
  let a := mkImagePath "/photos/a.jpg" (Some 2048) None in
  let b := mkImagePath "/photos/b.png" (Some 4096) None in
  exists out,
    sort_images ascii_to_lowercase chrono_parse_rfc3339 Debug [b; a] "name" "ascending" []
      (Some (mkFilterOptions None None None (Some "lessThan") (Some "3") None)) = Some (Ok out) /\
    forall img, In img out <-> In img [b; a] /\ img_size img < 3 * 1024.
Proof.
  intros a b.
  refine (proj1 (sort_images_size_clause ascii_to_lowercase chrono_parse_rfc3339 Debug [b; a]
                   "name" "ascending" [] "3" 3 _ _)); vm_compute; [reflexivity | discriminate].
Defined.

Lemma save_then_get_data_file_path_witness :
  let '(r, w') := save_data_file_path example_from_json example_to_json
                    "/photos" "/data/photos.json" fresh_world in
  r = Ok tt /\
  (get_data_file_path example_from_json "/cfg/app-config.json" "/photos" w').1
    = Ok (Some "/data/photos.json") /\
  ("/music" <> "/photos" ->
   (get_data_file_path example_from_json "/cfg/app-config.json" "/music" w').1 =
   (get_data_file_path example_from_json "/cfg/app-config.json" "/music" fresh_world).1).
Proof.
  destruct (save_data_file_path example_from_json example_to_json
              "/photos" "/data/photos.json" fresh_world) as [r w'] eqn:E.
  assert (Hr : r = Ok tt) by (vm_compute in E; congruence). subst r.
  split; [reflexivity|].
  exact (save_then_get_data_file_path example_from_json example_to_json example_json_roundtrip
           "/cfg/app-config.json" "/photos" "/data/photos.json" "/music" fresh_world w' E eq_refl).
Defined.

Lemma save_then_load_app_data_witness :
  let '(r, w') := save_app_data example_from_json example_to_json [] [] fresh_world in
  r = Ok tt /\
  exists d, (load_app_data example_from_json fresh_world).1 = Ok d /\
    (load_app_data example_from_json w').1 = Ok (mkAppData [] [] (data_file_paths d)).
Proof.
  destruct (save_app_data example_from_json example_to_json [] [] fresh_world) as [r w'] eqn:E.
  assert (Hr : r = Ok tt) by (vm_compute in E; congruence). subst r.
  split; [reflexivity|].
  exact (save_then_load_app_data example_from_json example_to_json example_json_roundtrip
           [] [] fresh_world w' E eq_refl).
Defined.

Lemma save_data_file_path_commute_idem_witness :
  let w1 := mkWorld None None None (Some "{photos}") None None
              [EvLock; EvWrite "{photos}"; EvUnlock] in
  let w12 := mkWorld None None None (Some "{photos}") None None
               [EvLock; EvWrite "{photos}"; EvUnlock; EvLock; EvRead; EvWrite "{photos}"; EvUnlock] in
  w_read_error fresh_world = None /\
  save_data_file_path example_from_json example_to_json "/photos" "/data/photos.json" fresh_world
    = (Ok tt, w1) /\
  (save_data_file_path example_from_json example_to_json "/photos" "/data/photos.json" w1
     = (Ok tt, w12) ->
   (get_data_file_path example_from_json "/data" "/photos" w12).1 =
   (get_data_file_path example_from_json "/data" "/photos" w1).1).
Proof.
  intros w1 w12.
  assert (E : save_data_file_path example_from_json example_to_json "/photos" "/data/photos.json"
                fresh_world = (Ok tt, w1)) by (vm_compute; reflexivity).
  split; [reflexivity|]. split; [exact E|].
  exact (proj2 (save_data_file_path_commute_idem example_from_json example_to_json
                  example_json_roundtrip "/data" "/photos" "/music" "/data/photos.json"
                  "/data/music.json" "/photos" fresh_world w1 w12 w12 w12 eq_refl E)).
Defined.

Lemma get_hito_file_path_file_name_witness :
  file_name (get_hito_file_path "/photos" (Some "album.json")) = Some "album.json".
Proof.
  apply (get_hito_file_path_file_name "/photos" (Some "album.json")).
  split_and!; [reflexivity | discriminate..].
Defined.

Lemma save_then_load_hito_config_witness :
  let to_j : HitoFile -> result string string := fun d =>
    match hf_image_categories d with [] => Ok "{}" | _ => Err "unsupported value" end in
  let from_j : string -> result HitoFile string := fun _ => Ok (mkHitoFile []) in
  let w := mkHitoWorld
             (fun p => if String.eqb p "/photos/./.hito.json" then "/photos/.hito.json" else p)
             ∅ (fun _ => false) (fun _ => None) (fun _ => None) in
  let '(r, w') := save_hito_config to_j "/photos" [] None w in
  r = Ok tt /\ (forall d s, to_j d = Ok s -> from_j s = Ok d) /\
  hw_stat_fails w (get_hito_file_path "/photos/." None) = false /\
  hw_read_error w (get_hito_file_path "/photos/." None) = None /\
  hw_resolve w (get_hito_file_path "/photos/." None) =
  hw_resolve w (get_hito_file_path "/photos" None) /\
  load_hito_config from_j "/photos/." None w' = Ok (mkHitoFile []).
Proof.
  intros to_j from_j w.
  destruct (save_hito_config to_j "/photos" [] None w) as [r w'] eqn:E.
  assert (Hr : r = Ok tt) by (vm_compute in E; congruence).
  assert (Hrt : forall d s, to_j d = Ok s -> from_j s = Ok d).
  { intros [[|c l]] s Hs; [reflexivity|discriminate]. }
  assert (Hst : hw_stat_fails w (get_hito_file_path "/photos/." None) = false) by reflexivity.
  assert (Hre : hw_read_error w (get_hito_file_path "/photos/." None) = None) by reflexivity.
  assert (Hres : hw_resolve w (get_hito_file_path "/photos/." None) =
                 hw_resolve w (get_hito_file_path "/photos" None)) by (vm_compute; reflexivity).
  split_and!; [exact Hr|exact Hrt|exact Hst|exact Hre|exact Hres|].
  exact (proj1 (save_then_load_hito_config from_j to_j "/photos" [] None "/photos/." None w w' r E)
           Hr Hrt Hst Hre Hres).
Defined.

Lemma list_images_contents_witness :
  let entries : list (result DirEntry string) := [Ok (mkDirEntry "b.PNG" (Some (mkMetadata FtFile 10 None)));
                  Ok (mkDirEntry "sub" (Some (mkMetadata FtDir 0 None)));
                  Ok (mkDirEntry "notes.txt" (Some (mkMetadata FtFile 3 None)))] in
  let dc := mkDirectoryContents [mkDirectoryPath "/photos/sub" None None]
              [mkImagePath "/photos/b.PNG" (Some 10) None] in
  is_dir_md (Some (mkMetadata FtDir 0 None)) = true /\
  StronglySorted (fun a b => String.compare (dp_path a) (dp_path b) <> Gt) (directories dc) /\
  StronglySorted (fun a b => String.compare (path a) (path b) <> Gt) (images dc) /\
  (forall d, d ∈ directories dc <->
     exists e m, Ok e ∈ entries /\ de_metadata e = Some m /\ md_is_dir m = true /\
       utf8_valid (path_join "/photos" (de_file_name e)) = true /\
       d = mkDirectoryPath (path_join "/photos" (de_file_name e)) None
             (created_at_of (fun _ _ => None) (md_created m))) /\
  (forall img, img ∈ images dc <->
     exists e m ext, Ok e ∈ entries /\ de_metadata e = Some m /\ md_is_file m = true /\
       extension (path_join "/photos" (de_file_name e)) = Some ext /\
       existsb (String.eqb (ascii_to_lowercase ext)) image_extensions = true /\
       utf8_valid (path_join "/photos" (de_file_name e)) = true /\
       img = mkImagePath (path_join "/photos" (de_file_name e)) (Some (md_len m))
               (created_at_of (fun _ _ => None) (md_created m))).
Proof.
  intros entries dc.
  apply (list_images_contents ascii_to_lowercase (fun _ _ => None) "/photos"
           (Some (mkMetadata FtDir 0 None)) entries dc).
  vm_compute. reflexivity.
Defined.

Lemma listed_image_mime_type_witness :
  exists ext, extension "/photos/b.PNG" = Some ext /\
    In (ascii_to_lowercase ext, mime_type ascii_to_lowercase "/photos/b.PNG")
      [("jpg", "image/jpeg"); ("jpeg", "image/jpeg"); ("png", "image/png");
       ("gif", "image/gif"); ("bmp", "image/bmp"); ("webp", "image/webp");
       ("svg", "image/svg+xml"); ("ico", "image/x-icon")].
Proof.
  apply (listed_image_mime_type ascii_to_lowercase (fun _ _ => None) "/photos"
           (Some (mkMetadata FtDir 0 None))
           [Ok (mkDirEntry "b.PNG" (Some (mkMetadata FtFile 10 None)));
            Ok (mkDirEntry "notes.txt" (Some (mkMetadata FtFile 3 None)))]
           (mkDirectoryContents [] [mkImagePath "/photos/b.PNG" (Some 10) None])
           (mkImagePath "/photos/b.PNG" (Some 10) None)).
  - vm_compute. reflexivity.
  - by apply list_elem_of_singleton.
Defined.

Lemma load_image_data_url_injective_witness :
  load_image ascii_to_lowercase "/photos/a.jpg" (Some (mkMetadata FtFile 3 None)) (Ok "abc")
    = Ok "data:image/jpeg;base64,YWJj" /\ "abc" = "abc".
Proof.
  split; [reflexivity|].
  apply (load_image_data_url_injective ascii_to_lowercase "/photos/a.jpg"
           (Some (mkMetadata FtFile 3 None)) "abc" "abc" "data:image/jpeg;base64,YWJj");
    reflexivity.
Defined.

Lemma list_images_parent_directory_witness :
  let entries : list (result DirEntry string) := [Ok (mkDirEntry "b.PNG" (Some (mkMetadata FtFile 10 None)));
                  Ok (mkDirEntry "sub" (Some (mkMetadata FtDir 0 None)));
                  Ok (mkDirEntry "notes.txt" (Some (mkMetadata FtFile 3 None)))] in
  let dc := mkDirectoryContents [mkDirectoryPath "/photos/sub" None None]
              [mkImagePath "/photos/b.PNG" (Some 10) None] in
  (forall d, d ∈ directories dc -> get_parent_directory (dp_path d) = Ok "/photos") /\
  (forall img, img ∈ images dc -> get_parent_directory (path img) = Ok "/photos").
Proof.
  intros entries dc.
  apply (list_images_parent_directory ascii_to_lowercase (fun _ _ => None) "/photos"
           (Some (mkMetadata FtDir 0 None)) entries dc).
  - vm_compute. reflexivity.
  - reflexivity.
  - right. split; reflexivity.
  - intros e He.
    repeat (apply elem_of_cons in He as [He|He];
            [injection He as ->; cbn [de_file_name]; split_and!; [reflexivity | discriminate..] |]).
    by apply elem_of_nil in He.
Defined.
